(** * RPort server core: a shallow embedding of the Go sources and the
      properties of its specification

    The development follows the packages of the repository:
    - [Query]       share/query/convert.go
    - [Banlist]     share/security/banlist.go
    - [Ports]       server/ports/port_distributor.go
    - [GoNet], [TunnelACL]  server/clients/tunnel_acl.go over Go's package net
    - [Session]     the client session and its tunnel ids
    - [Jobs]        the job store behind the JobProvider interface
    - [Dispatcher]  getOrderedClients, executeMultiClientJob, createAndRunJob
                    of server/api_middleware.go
    - [BannedIPs], [MultiClientCommand], [ClientGroups]  the handlers and
                    checks of server/api_middleware.go around them

    Go strings are byte strings: they are modelled by [string], whose
    characters are the 256 values of [ascii].  Go's [int] and [int64] are
    modelled by [Z], with the wrap-around written out where the code does
    arithmetic on them. *)

From Stdlib Require Import ZArith Lia List Bool Ascii String.
From Stdlib Require Import Sorting.Sorted Sorting.Permutation.
From Stdlib Require Import DecimalString DecimalNat DecimalPos DecimalZ DecimalFacts.
From Stdlib Require OrderedTypeEx.
From stdpp Require Import base option list gmap strings fin_maps fin_sets sorting.

Set Warnings "-clear-no-such-hyp".

Local Open Scope string_scope.
Local Open Scope list_scope.
Local Open Scope Z_scope.

(* ===================================================================== *)
(** * Go's fixed-width integers and their decimal form *)
(* ===================================================================== *)

Module GoInt.

(** A value of Go's [int64] (and of [int] on the 64-bit platforms the server
    is built for) after an arithmetic operation: the result modulo 2^64, in
    the signed range. *)
Definition wrap_int (z : Z) : Z := (z + 2 ^ 63) mod 2 ^ 64 - 2 ^ 63.
Arguments wrap_int : simpl never.

(** [strconv.FormatInt(n, 10)]: the decimal digits, after a minus sign for
    a negative number. *)
Definition FormatInt (n : Z) : string := NilZero.string_of_int (Z.to_int n).

Lemma wrap_int_small (z : Z) : - 2 ^ 63 <= z < 2 ^ 63 -> wrap_int z = z.
Proof.
  intros H. unfold wrap_int.
  rewrite Z.mod_small by lia. lia.
Qed.

Lemma FormatInt_inj (a b : Z) : FormatInt a = FormatInt b -> a = b.
Proof.
  unfold FormatInt. intros H.
  assert (Hparse : forall z, NilZero.int_of_string (NilZero.string_of_int (Z.to_int z))
                             = Some (Z.to_int z)).
  { intros z. apply NilZero.isi; destruct z as [|q|q]; simpl; try discriminate;
      intros [= Hq]; exact (DecimalPos.Unsigned.to_uint_nonnil q Hq). }
  apply DecimalZ.to_int_inj.
  pose proof (Hparse a) as Ha. rewrite H, Hparse in Ha. congruence.
Qed.

End GoInt.

(* ===================================================================== *)
(** * Go's package strings, on byte strings *)
(* ===================================================================== *)

Module GoStrings.

(** [strings.HasPrefix(s, prefix)]. *)
Fixpoint HasPrefix (s prefix : string) : bool :=
  match prefix with
  | EmptyString => true
  | String p prefix' =>
      match s with
      | EmptyString => false
      | String c s' => if Ascii.eqb c p then HasPrefix s' prefix' else false
      end
  end.

(** [strings.Contains(s, substr)]. *)
Fixpoint Contains (s substr : string) : bool :=
  if HasPrefix s substr then true
  else match s with
       | EmptyString => false
       | String _ s' => Contains s' substr
       end.

(** [strings.ContainsRune(s, r)] for a rune [r] below 128 (one byte). *)
Fixpoint ContainsRune (s : string) (r : ascii) : bool :=
  match s with
  | EmptyString => false
  | String c s' => if Ascii.eqb c r then true else ContainsRune s' r
  end.

(** The upper-case mapping of one ASCII byte; other bytes are kept. *)
Definition upper_byte (c : ascii) : ascii :=
  let n := nat_of_ascii c in
  if ((97 <=? n) && (n <=? 122))%nat then ascii_of_nat (n - 32) else c.

(** [strings.ToUpper(s)] on ASCII text: the letters a to z are mapped and
    every other byte is kept.  Go maps the letters outside ASCII as well, so
    on text with a byte of 128 or above the two can differ; the queries the
    properties below are about are ASCII. *)
Fixpoint ToUpper (s : string) : string :=
  match s with
  | EmptyString => EmptyString
  | String c s' => String (upper_byte c) (ToUpper s')
  end.

(** [strings.Join(elems, sep)]. *)
Fixpoint Join (elems : list string) (sep : string) : string :=
  match elems with
  | [] => EmptyString
  | [e] => e
  | e :: rest => e +:+ sep +:+ Join rest sep
  end.

(** [s[n:]]: the string without its first [n] bytes. *)
Fixpoint drop_bytes (n : nat) (s : string) : string :=
  match n, s with
  | O, _ => s
  | S _, EmptyString => EmptyString
  | S n', String _ s' => drop_bytes n' s'
  end.

(** [strings.Replace(s, old, new, 1)]: the first occurrence of [old] in
    [s] is replaced by [new]; [s] is returned when there is none. *)
Fixpoint Replace1 (s old new : string) : string :=
  if HasPrefix s old then new +:+ drop_bytes (String.length old) s
  else match s with
       | EmptyString => EmptyString
       | String c s' => String c (Replace1 s' old new)
       end.

(** [strings.Split(s, sep)] for a one-byte separator: the pieces between
    the separators, at least one piece (the whole string when the
    separator does not occur). *)
Fixpoint Split (s : string) (sep : ascii) : list string :=
  match s with
  | EmptyString => [EmptyString]
  | String c s' =>
      if Ascii.eqb c sep then EmptyString :: Split s' sep
      else match Split s' sep with
           | [] => [String c EmptyString]
           | piece :: pieces => String c piece :: pieces
           end
  end.

End GoStrings.

(* ===================================================================== *)
(** * share/query/convert.go *)
(* ===================================================================== *)

Module Query.
Import GoStrings.

Section Convert.

(** The filter operator type and its [Code()] method are declared in a file
    of the package that is not among the sources; they are parameters of
    the translation. *)
Variable FilterOperatorType : Type.
Variable Code : FilterOperatorType -> string.

Record FilterOption := mkFilterOption {
  fo_Column : string;
  fo_Operator : FilterOperatorType;
  fo_Values : list string
}.

Record SortOption := mkSortOption {
  so_Column : string;
  so_IsASC : bool
}.

Record FieldsOption := mkFieldsOption {
  fd_Resource : string;
  fd_Fields : list string
}.

Record ListOptions := mkListOptions {
  lo_Sorts : list SortOption;
  lo_Filters : list FilterOption;
  lo_Fields : list FieldsOption
}.

(** [fmt.Sprintf("%s %s ?", column, operator.Code())]. *)
Definition wherePlaceholder (f : FilterOption) : string :=
  fo_Column f +:+ " " +:+ Code (fo_Operator f) +:+ " ?".

(** One turn of the loop of [addWhere]: the part of the WHERE clause of a
    filter, and the binds it appends. *)
Definition wherePart (f : FilterOption) : string * list string :=
  match fo_Values f with
  | [v] => (wherePlaceholder f, [v])
  | vs =>
      let orParts := map (fun _ => wherePlaceholder f) vs in
      ("(" +:+ Join orParts " OR " +:+ ")", vs)
  end.

Definition addWhere (filterOptions : list FilterOption) (q : string)
  : string * list string :=
  match filterOptions with
  | [] => (q, [])
  | _ =>
      let parts := map wherePart filterOptions in
      let whereParts := map fst parts in
      let params := concat (map snd parts) in
      let concat_kw :=
        if Contains (ToUpper q) " WHERE " then " AND " else " WHERE " in
      (q +:+ concat_kw +:+ Join whereParts " AND " +:+ " ", params)
  end.

Definition orderByValue (s : SortOption) : string :=
  so_Column s +:+ " " +:+ (if so_IsASC s then "ASC" else "DESC").

Definition addOrderBy (sortOptions : list SortOption) (q : string) : string :=
  match sortOptions with
  | [] => q
  | _ => q +:+ "ORDER BY " +:+ Join (map orderByValue sortOptions) ", "
  end.

Definition ReplaceStarSelect (fieldOptions : list FieldsOption) (q : string)
  : string :=
  if negb (HasPrefix (ToUpper q) "SELECT * ") then q
  else match fieldOptions with
       | [] => q
       | _ =>
           let fields :=
             concat (map (fun fo =>
                            map (fun field => fd_Resource fo +:+ "." +:+ field)
                                (fd_Fields fo))
                         fieldOptions) in
           Replace1 q "*" (Join fields ", ")
       end.

Definition ConvertListOptionsToQuery (lo : ListOptions) (q : string)
  : string * list string :=
  let '(qOut, params) := addWhere (lo_Filters lo) q in
  let qOut := addOrderBy (lo_Sorts lo) qOut in
  let qOut := ReplaceStarSelect (lo_Fields lo) qOut in
  (qOut, params).

Definition AppendOptionsToQuery (o : ListOptions) (q : string)
  (inParams : list string) : string * list string :=
  let '(qOut, params) := addWhere (lo_Filters o) q in
  let outParams := inParams ++ params in
  let qOut := addOrderBy (lo_Sorts o) qOut in
  let qOut := ReplaceStarSelect (lo_Fields o) qOut in
  (qOut, outParams).

(** The options of the specification's scenario, for any operator and any
    four filter values. *)
Definition mixedOptions (op : FilterOperatorType) (v1 v2 v3 v4 : string)
  : ListOptions :=
  {| lo_Sorts := [ mkSortOption "field1" true; mkSortOption "field2" false ];
     lo_Filters := [ mkFilterOption "field1" op [v1; v2; v3];
                     mkFilterOption "field2" op [v4] ];
     lo_Fields := [ mkFieldsOption "res1" ["field1"; "field2"] ] |}.

End Convert.

(** The operators the package's tests use, with the codes the expected
    queries of convert_test.go show: an option built without an operator
    yields [=], [FilterOperatorTypeGT] yields [>], [FilterOperatorTypeLT]
    yields [<]. *)
Inductive TestOperator := FilterOperatorTypeDefault | FilterOperatorTypeGT | FilterOperatorTypeLT.

Definition TestOperatorCode (o : TestOperator) : string :=
  match o with
  | FilterOperatorTypeDefault => "="
  | FilterOperatorTypeGT => ">"
  | FilterOperatorTypeLT => "<"
  end.

(** The test case "fields, filters, sorts, params" of
    TestAppendListOptionsToQuery. *)
Definition appendTestOptions : ListOptions TestOperator :=
  {| lo_Sorts := [ mkSortOption "timestamp" false ];
     lo_Filters := [ mkFilterOption _ "timestamp" FilterOperatorTypeGT ["val1"];
                     mkFilterOption _ "timestamp" FilterOperatorTypeLT ["value2"] ];
     lo_Fields := [ mkFieldsOption "metrics" ["field1"; "field2"] ] |}.

(** The query text [addWhere] builds depends on the columns, the operators
    and the number of values of each filter only: the values themselves go
    to the binds.  Two filter lists that differ in their values alone give
    the same text. *)
Definition sameShape {O : Type} (f g : FilterOption O) : Prop :=
  fo_Column _ f = fo_Column _ g /\ fo_Operator _ f = fo_Operator _ g /\
  length (fo_Values _ f) = length (fo_Values _ g).

(** The number of bind placeholders of a query text: its bytes [?]. *)
Fixpoint placeholders (q : string) : nat :=
  match q with
  | EmptyString => 0%nat
  | String c q' => ((if Ascii.eqb c "?" then 1 else 0) + placeholders q')%nat
  end.

(** The names of a list of options hold no [?]. *)
Definition plainNames {O : Type} (Code : O -> string) (lo : ListOptions O) : Prop :=
  Forall (fun f => placeholders (fo_Column O f) = 0%nat
                   /\ placeholders (Code (fo_Operator O f)) = 0%nat) (lo_Filters O lo)
  /\ Forall (fun s => placeholders (so_Column s) = 0%nat) (lo_Sorts O lo)
  /\ Forall (fun fd => placeholders (fd_Resource fd) = 0%nat
                       /\ Forall (fun field => placeholders field = 0%nat) (fd_Fields fd))
            (lo_Fields O lo).

(** The field list [ReplaceStarSelect] puts in the place of the star. *)
Definition selectedFields (fieldOptions : list FieldsOption) : list string :=
  concat (map (fun fo => map (fun field => fd_Resource fo +:+ "." +:+ field)
                             (fd_Fields fo))
              fieldOptions).

(** ** Properties *)

Lemma wherePart_text_shape {O : Type} (Code : O -> string) (f g : FilterOption O) :
  sameShape f g -> fst (wherePart O Code f) = fst (wherePart O Code g).
Proof.
  destruct f as [c o vs], g as [c' o' vs']; unfold sameShape; simpl.
  intros (-> & -> & Hlen).
  unfold wherePart, wherePlaceholder; simpl.
  destruct vs as [|v [|w vs]], vs' as [|v' [|w' vs']]; simpl in *; try lia; try reflexivity.
  do 2 f_equal. f_equal.
  assert (Hl : length vs = length vs') by lia. clear Hlen.
  revert vs' Hl; induction vs as [|x vs IH]; intros [|x' vs'] Hl; simpl in *;
    try lia; try reflexivity.
  f_equal. f_equal. 
  specialize (IH vs' ltac:(lia)).
  destruct vs, vs'; simpl in *; try lia; congruence.
Qed.

Lemma addWhere_text_shape {O : Type} (Code : O -> string)
    (fs gs : list (FilterOption O)) (q : string) :
  Forall2 sameShape fs gs ->
  fst (addWhere O Code fs q) = fst (addWhere O Code gs q).
Proof.
  intros H.
  assert (Hparts : map fst (map (wherePart O Code) fs)
                   = map fst (map (wherePart O Code) gs)).
  { induction H as [|f g fs gs Hfg _ IH]; simpl; [reflexivity|].
    rewrite IH, (wherePart_text_shape Code f g Hfg). reflexivity. }
  destruct H as [|f g fs gs Hfg Hrest]; [reflexivity|].
  unfold addWhere. cbv zeta. unfold fst at 1 3. rewrite Hparts. reflexivity.
Qed.

(** The binds of [addWhere] are the filter values, in the order of the
    filters and, within a filter, of its values. *)
Lemma addWhere_params {O : Type} (Code : O -> string)
    (fs : list (FilterOption O)) (q : string) :
  snd (addWhere O Code fs q) = concat (map (fo_Values O) fs).
Proof.
  destruct fs as [|f fs]; [reflexivity|].
  unfold addWhere; cbv zeta; unfold snd at 1.
  rewrite map_map. f_equal.
  apply map_ext. intros [c o vs]. unfold wherePart; simpl.
  destruct vs as [|v [|w vs]]; reflexivity.
Qed.

(** C8. For the list options of the scenario (filters field1 in
    {v1,v2,v3} and field2 = v4 with an operator whose code is "=", sorts
    field1 ascending and field2 descending, fields res1.field1 and
    res1.field2) and the base query "SELECT * FROM res1", the translation
    yields exactly the query text of the specification, with one blank
    before ORDER BY, and the binds [v1; v2; v3; v4] in that order.  The text
    is the same whatever the four values are: they are passed as binds only.
    The instance at val1, val2, val3, value2 is the scenario itself. *)
Theorem convert_mixed_options
    (O : Type) (Code : O -> string) (op : O) (v1 v2 v3 v4 : string) :
  Code op = "=" ->
  ConvertListOptionsToQuery O Code (mixedOptions O op v1 v2 v3 v4)
                            "SELECT * FROM res1"
  = ("SELECT res1.field1, res1.field2 FROM res1 WHERE (field1 = ? OR field1 = ? OR field1 = ?) AND field2 = ? ORDER BY field1 ASC, field2 DESC",
     [v1; v2; v3; v4])
  /\ ConvertListOptionsToQuery O Code (mixedOptions O op "val1" "val2" "val3" "value2")
                               "SELECT * FROM res1"
  = ("SELECT res1.field1, res1.field2 FROM res1 WHERE (field1 = ? OR field1 = ? OR field1 = ?) AND field2 = ? ORDER BY field1 ASC, field2 DESC",
     ["val1"; "val2"; "val3"; "value2"]).
Proof.
  intros HCode.
  assert (Hgen : forall a b c d,
    ConvertListOptionsToQuery O Code (mixedOptions O op a b c d) "SELECT * FROM res1"
    = ("SELECT res1.field1, res1.field2 FROM res1 WHERE (field1 = ? OR field1 = ? OR field1 = ?) AND field2 = ? ORDER BY field1 ASC, field2 DESC",
       [a; b; c; d])).
  { intros a b c d.
    unfold ConvertListOptionsToQuery, mixedOptions, addWhere, wherePart,
      wherePlaceholder; simpl lo_Filters; simpl lo_Sorts; simpl lo_Fields.
    cbn [map fst snd fo_Values fo_Column fo_Operator concat app].
    rewrite HCode. reflexivity. }
  split; apply Hgen.
Qed.

Lemma convert_mixed_options_witness :
  ConvertListOptionsToQuery TestOperator TestOperatorCode
    (mixedOptions TestOperator FilterOperatorTypeDefault "val1" "val2" "val3" "value2")
    "SELECT * FROM res1"
  = ("SELECT res1.field1, res1.field2 FROM res1 WHERE (field1 = ? OR field1 = ? OR field1 = ?) AND field2 = ? ORDER BY field1 ASC, field2 DESC",
     ["val1"; "val2"; "val3"; "value2"]).
Proof.
  exact (proj1 (convert_mixed_options TestOperator TestOperatorCode
                  FilterOperatorTypeDefault "val1" "val2" "val3" "value2" eq_refl)).
Defined.

(** The second test of the package, which appends to a query that already
    has a WHERE clause and binds. *)
Example append_test_case :
  AppendOptionsToQuery TestOperator TestOperatorCode appendTestOptions
    "SELECT * FROM measurements as metrics WHERE client_id = ?" ["123"]
  = ("SELECT metrics.field1, metrics.field2 FROM measurements as metrics WHERE client_id = ? AND timestamp > ? AND timestamp < ? ORDER BY timestamp DESC",
     ["123"; "val1"; "value2"]).
Proof. vm_compute. reflexivity. Qed.

Lemma q_append_cons (x : ascii) (a b : string) : String x a +:+ b = String x (a +:+ b).
Proof. reflexivity. Qed.

Lemma list_sum_cons (a : nat) (l : list nat) : list_sum (a :: l) = (a + list_sum l)%nat.
Proof. reflexivity. Qed.

Lemma placeholders_app (a b : string) :
  placeholders (a +:+ b) = (placeholders a + placeholders b)%nat.
Proof.
  induction a as [|x a IH]; [reflexivity|].
  rewrite q_append_cons. cbn [placeholders]. rewrite IH. apply Nat.add_assoc.
Qed.

Lemma placeholders_Join (elems : list string) (sep : string) :
  placeholders sep = 0%nat ->
  placeholders (Join elems sep) = list_sum (map placeholders elems).
Proof.
  intros Hsep. induction elems as [|e [|e' rest] IH]; [reflexivity| |].
  - simpl. lia.
  - change (Join (e :: e' :: rest) sep) with (e +:+ sep +:+ Join (e' :: rest) sep).
    rewrite !placeholders_app, Hsep, IH. simpl. lia.
Qed.

Lemma placeholders_drop_star (s : string) :
  HasPrefix s "*" = true -> placeholders (drop_bytes 1 s) = placeholders s.
Proof.
  destruct s as [|c s]; [discriminate|]. cbn [HasPrefix drop_bytes placeholders].
  destruct (Ascii.eqb_spec c "*") as [->|_]; [|discriminate]. reflexivity.
Qed.

Lemma placeholders_Replace1 (s new : string) :
  placeholders new = 0%nat -> placeholders (Replace1 s "*" new) = placeholders s.
Proof.
  intros Hnew. induction s as [|c s IH].
  - reflexivity.
  - cbn [Replace1]. destruct (HasPrefix (String c s) "*") eqn:Hp.
    + rewrite placeholders_app, Hnew.
      exact (placeholders_drop_star (String c s) Hp).
    + cbn [placeholders]. rewrite IH. reflexivity.
Qed.

Section Placeholders.

Variable O : Type.
Variable Code : O -> string.

Lemma placeholders_wherePart (f : FilterOption O) :
  placeholders (fo_Column O f) = 0%nat -> placeholders (Code (fo_Operator O f)) = 0%nat ->
  placeholders (fst (wherePart O Code f)) = length (snd (wherePart O Code f))
  /\ snd (wherePart O Code f) = fo_Values O f.
Proof.
  intros Hc Ho.
  assert (Hph : placeholders (wherePlaceholder O Code f) = 1%nat).
  { unfold wherePlaceholder. rewrite !placeholders_app, Hc, Ho. reflexivity. }
  unfold wherePart.
  assert (Hgen : forall vs : list string,
            placeholders ("(" +:+ Join (map (fun _ => wherePlaceholder O Code f) vs) " OR "
                          +:+ ")") = length vs).
  { intros vs. rewrite !placeholders_app, placeholders_Join by reflexivity.
    rewrite map_map. cbn [placeholders].
    change (Ascii.eqb "(" "?") with false. change (Ascii.eqb ")" "?") with false.
    cbv iota. rewrite Hph.
    induction vs as [|v vs IH]; simpl in *; lia. }
  destruct (fo_Values O f) as [|v [|w vs]]; cbn [fst snd].
  - split; [exact (Hgen [])|reflexivity].
  - split; [exact Hph|reflexivity].
  - split; [exact (Hgen (v :: w :: vs))|reflexivity].
Qed.

Lemma placeholders_addWhere (fs : list (FilterOption O)) (q : string) :
  Forall (fun f => placeholders (fo_Column O f) = 0%nat
                   /\ placeholders (Code (fo_Operator O f)) = 0%nat) fs ->
  placeholders (fst (addWhere O Code fs q))
  = (placeholders q + length (snd (addWhere O Code fs q)))%nat.
Proof.
  intros Hall.
  assert (Hsum : list_sum (map placeholders (map fst (map (wherePart O Code) fs)))
                 = length (concat (map snd (map (wherePart O Code) fs)))).
  { induction Hall as [|g gs [Hc Ho] _ IH]; [reflexivity|].
    rewrite !map_cons, list_sum_cons. cbn [concat]. rewrite length_app, <- IH.
    rewrite (proj1 (placeholders_wherePart g Hc Ho)). reflexivity. }
  destruct fs as [|f fs]; [simpl; lia|].
  unfold addWhere. cbv zeta. cbn [fst snd].
  rewrite !placeholders_app.
  assert (Hkw : placeholders (if Contains (ToUpper q) " WHERE " then " AND " else " WHERE ")
                = 0%nat) by (destruct (Contains _ _); reflexivity).
  rewrite Hkw, placeholders_Join by reflexivity.
  rewrite Hsum. cbn [placeholders].
  change (Ascii.eqb " " "?") with false. cbv iota. lia.
Qed.

Lemma placeholders_addOrderBy (ss : list SortOption) (q : string) :
  Forall (fun s => placeholders (so_Column s) = 0%nat) ss ->
  placeholders (addOrderBy ss q) = placeholders q.
Proof.
  intros Hall.
  assert (Hsum : list_sum (map placeholders (map orderByValue ss)) = 0%nat).
  { induction Hall as [|x xs Hx _ IH]; [reflexivity|].
    rewrite !map_cons, list_sum_cons, IH. unfold orderByValue.
    rewrite !placeholders_app, Hx. destruct (so_IsASC x); reflexivity. }
  destruct ss as [|s ss]; [reflexivity|].
  unfold addOrderBy. rewrite !placeholders_app, placeholders_Join by reflexivity.
  rewrite Hsum. simpl. lia.
Qed.

Lemma placeholders_selectedFields (fos : list FieldsOption) :
  Forall (fun fd => placeholders (fd_Resource fd) = 0%nat
                    /\ Forall (fun field => placeholders field = 0%nat) (fd_Fields fd)) fos ->
  placeholders (Join (selectedFields fos) ", ") = 0%nat.
Proof.
  intros Hall. rewrite placeholders_Join by reflexivity.
  unfold selectedFields.
  induction Hall as [|fd fds [Hr Hf] _ IH]; [reflexivity|].
  rewrite map_cons. cbn [concat]. rewrite map_app, list_sum_app, IH, Nat.add_0_r.
  induction Hf as [|x xs Hx _ IHf]; [reflexivity|].
  rewrite !map_cons, list_sum_cons. rewrite IHf, !placeholders_app, Hr, Hx. reflexivity.
Qed.

Lemma placeholders_ReplaceStarSelect (fos : list FieldsOption) (q : string) :
  Forall (fun fd => placeholders (fd_Resource fd) = 0%nat
                    /\ Forall (fun field => placeholders field = 0%nat) (fd_Fields fd)) fos ->
  placeholders (ReplaceStarSelect fos q) = placeholders q.
Proof.
  intros Hall. unfold ReplaceStarSelect.
  destruct (negb _); [reflexivity|].
  destruct fos as [|fd fds]; [reflexivity|].
  apply placeholders_Replace1. exact (placeholders_selectedFields (fd :: fds) Hall).
Qed.

(** X19. The translation adds one placeholder per bind.  When the column
    names, operator codes, resources and fields of the options hold no
    [?], the query [ConvertListOptionsToQuery] returns has as many [?]
    more than the query it was given as it returns binds, and the binds
    are the filter values in order; [AppendOptionsToQuery] returns the
    binds it was given followed by those, and a query with one [?] per
    bind when it was given such a query. *)
Theorem placeholders_match_binds (lo : ListOptions O) (q : string)
  (inParams : list string) :
  plainNames Code lo ->
  (let '(qOut, params) := ConvertListOptionsToQuery O Code lo q in
   placeholders qOut = (placeholders q + length params)%nat
   /\ params = concat (map (fo_Values O) (lo_Filters O lo)))
  /\ (let '(qOut, outParams) := AppendOptionsToQuery O Code lo q inParams in
      outParams = inParams ++ concat (map (fo_Values O) (lo_Filters O lo))
      /\ (placeholders q = length inParams -> placeholders qOut = length outParams)).
Proof.
  intros (Hf & Hs & Hfd).
  pose proof (placeholders_addWhere (lo_Filters O lo) q Hf) as Hw.
  pose proof (addWhere_params Code (lo_Filters O lo) q) as Hp.
  unfold ConvertListOptionsToQuery, AppendOptionsToQuery.
  destruct (addWhere O Code (lo_Filters O lo) q) as [qW params]. cbn [fst snd] in *.
  rewrite !placeholders_ReplaceStarSelect, !placeholders_addOrderBy by assumption.
  subst params. split; [split; [exact Hw|reflexivity]|].
  split; [reflexivity|]. intros Hq. rewrite length_app. lia.
Qed.

End Placeholders.

Lemma placeholders_match_binds_witness :
  let '(qOut, outParams) :=
    AppendOptionsToQuery TestOperator TestOperatorCode appendTestOptions
      "SELECT * FROM measurements as metrics WHERE client_id = ?" ["123"] in
  outParams = ["123"; "val1"; "value2"] /\ placeholders qOut = length outParams.
Proof.
  pose proof (proj2 (placeholders_match_binds TestOperator TestOperatorCode
                       appendTestOptions
                       "SELECT * FROM measurements as metrics WHERE client_id = ?"
                       ["123"]
                       ltac:(repeat constructor))) as H.
  destruct H as [Hp Hc]. split; [exact Hp | exact (Hc eq_refl)].
Defined.

Lemma upper_byte_star (c : ascii) : Ascii.eqb (upper_byte c) "*" = Ascii.eqb c "*".
Proof.
  destruct c as [[] [] [] [] [] [] [] []]; vm_compute; reflexivity.
Qed.

Lemma ContainsRune_ToUpper_star (s : string) :
  ContainsRune (ToUpper s) "*" = ContainsRune s "*".
Proof.
  induction s as [|c s IH]; [reflexivity|].
  cbn [ToUpper ContainsRune]. rewrite upper_byte_star, IH. reflexivity.
Qed.

Lemma ToUpper_app (a b : string) : ToUpper (a +:+ b) = ToUpper a +:+ ToUpper b.
Proof.
  induction a as [|c a IH]; [reflexivity|].
  rewrite q_append_cons. cbn [ToUpper]. rewrite IH. reflexivity.
Qed.

Lemma HasPrefix_app (a b : string) : HasPrefix (a +:+ b) a = true.
Proof.
  induction a as [|c a IH]; [destruct b; reflexivity|].
  rewrite q_append_cons. cbn [HasPrefix]. rewrite Ascii.eqb_refl. exact IH.
Qed.

Lemma HasPrefix_nil (s : string) : HasPrefix s "" = true.
Proof. destruct s; reflexivity. Qed.

Lemma Replace1_first_star (a b new : string) :
  ContainsRune a "*" = false ->
  Replace1 (a +:+ String "*" b) "*" new = a +:+ new +:+ b.
Proof.
  induction a as [|c a IH]; intros Ha.
  - change ("" +:+ String "*" b) with (String "*" b).
    change ("" +:+ new +:+ b) with (new +:+ b).
    cbn [Replace1 HasPrefix]. change (Ascii.eqb "*" "*") with true. cbv iota.
    rewrite HasPrefix_nil. reflexivity.
  - cbn [ContainsRune] in Ha. destruct (Ascii.eqb c "*") eqn:Hc; [discriminate|].
    rewrite !q_append_cons. cbn [Replace1 HasPrefix]. rewrite Hc.
    rewrite (IH Ha). reflexivity.
Qed.

(** X20. [ReplaceStarSelect] on a query that starts with SELECT, in any
    letter case, a blank, a star and a blank: with at least one field
    option, the star is replaced by the fields, each after its resource and
    a dot, separated by a comma and a blank (by nothing, when the options
    list no field), and the rest of the query, later stars included, is
    kept. *)
Theorem replace_star_select (fieldOptions : list FieldsOption) (kw rest : string) :
  ToUpper kw = "SELECT " ->
  fieldOptions <> [] ->
  ReplaceStarSelect fieldOptions (kw +:+ "* " +:+ rest)
  = kw +:+ Join (selectedFields fieldOptions) ", " +:+ " " +:+ rest.
Proof.
  intros Hkw Hne. unfold ReplaceStarSelect.
  assert (Hprefix : HasPrefix (ToUpper (kw +:+ "* " +:+ rest)) "SELECT * " = true).
  { rewrite ToUpper_app, Hkw.
    change ("SELECT " +:+ ToUpper ("* " +:+ rest)) with ("SELECT * " +:+ ToUpper rest).
    apply HasPrefix_app. }
  rewrite Hprefix. cbn [negb].
  destruct fieldOptions as [|fo fos]; [congruence|].
  change ("* " +:+ rest) with (String "*" (" " +:+ rest)).
  apply Replace1_first_star.
  rewrite <- ContainsRune_ToUpper_star, Hkw. reflexivity.
Qed.

Lemma replace_star_select_witness :
  ReplaceStarSelect [mkFieldsOption "res1" ["field1"; "field2"]]
                    ("select " +:+ "* " +:+ "from res1 where a*b > ?")
  = "select " +:+ Join (selectedFields [mkFieldsOption "res1" ["field1"; "field2"]]) ", "
    +:+ " " +:+ "from res1 where a*b > ?".
Proof.
  apply replace_star_select; [reflexivity | discriminate].
Defined.

End Query.

(* ===================================================================== *)
(** * share/security/banlist.go *)
(* ===================================================================== *)

Module Banlist.

(** Instants ([time.Time]) and durations ([time.Duration]) are integers of
    nanoseconds; [time.Now()] is an argument of each operation that reads
    the clock.  [t.Add(d)] is [t + d] and [t.After(u)] is [u < t]. *)
Definition Time := Z.
Definition Duration := Z.

Import GoInt.

(** ** The expiry list *)

Record BanList := mkBanList {
  bl_banDuration : Duration;
  bl_visitors : gmap string Time
}.

Definition NewBanList (banDuration : Duration) : BanList :=
  {| bl_banDuration := banDuration; bl_visitors := ∅ |}.

Definition Add (now : Time) (l : BanList) (visitorKey : string) : BanList :=
  {| bl_banDuration := bl_banDuration l;
     bl_visitors := <[visitorKey := now + bl_banDuration l]> (bl_visitors l) |}.

Definition BanList_IsBanned (now : Time) (l : BanList) (visitorKey : string) : bool :=
  match bl_visitors l !! visitorKey with
  | Some banExpiry => now <? banExpiry
  | None => false
  end.

(** ** The max-bad-attempts list *)

Record visitor := mkVisitor {
  badAttempts : Z;
  banTime : option Time
}.

Record MaxBadAttemptsBanList := mkMaxBadAttemptsBanList {
  banDuration : Duration;
  maxBadAttempts : Z;
  visitors : gmap string visitor
}.

Definition NewMaxBadAttemptsBanList (maxBadAttempts : Z) (banDuration : Duration)
  : MaxBadAttemptsBanList :=
  {| banDuration := banDuration; maxBadAttempts := maxBadAttempts; visitors := ∅ |}.

Definition set_visitor (l : MaxBadAttemptsBanList) (key : string) (v : visitor)
  : MaxBadAttemptsBanList :=
  {| banDuration := banDuration l;
     maxBadAttempts := maxBadAttempts l;
     visitors := <[key := v]> (visitors l) |}.

(** [AddBadAttempt]: the visitor is created with a zero counter when it is
    not there, the counter is incremented, and when it equals the threshold
    the ban stamp is set and the counter reset. *)
Definition AddBadAttempt (now : Time) (l : MaxBadAttemptsBanList) (visitorKey : string)
  : MaxBadAttemptsBanList :=
  let v := match visitors l !! visitorKey with
           | Some v => v
           | None => {| badAttempts := 0; banTime := None |}
           end in
  let n := wrap_int (badAttempts v + 1) in
  if n =? maxBadAttempts l
  then set_visitor l visitorKey
         {| badAttempts := 0; banTime := Some (now + banDuration l) |}
  else set_visitor l visitorKey {| badAttempts := n; banTime := banTime v |}.

Definition AddSuccessAttempt (l : MaxBadAttemptsBanList) (visitorKey : string)
  : MaxBadAttemptsBanList :=
  match visitors l !! visitorKey with
  | Some _ => set_visitor l visitorKey {| badAttempts := 0; banTime := None |}
  | None => l
  end.

Definition IsBanned (now : Time) (l : MaxBadAttemptsBanList) (visitorKey : string) : bool :=
  match visitors l !! visitorKey with
  | Some v => match banTime v with
              | Some t => now <? t
              | None => false
              end
  | None => false
  end.

(** Consecutive bad attempts of one visitor, one per clock reading of
    [times]. *)
Definition addBadAttempts (times : list Time) (l : MaxBadAttemptsBanList)
  (visitorKey : string) : MaxBadAttemptsBanList :=
  fold_left (fun l now => AddBadAttempt now l visitorKey) times l.

(** What the list holds for a visitor: its counter and its ban stamp, a
    visitor that is not there counting as one with a zero counter and no
    stamp (the value [AddBadAttempt] creates it with). *)
Definition record_of (l : MaxBadAttemptsBanList) (visitorKey : string) : Z * option Time :=
  match visitors l !! visitorKey with
  | Some v => (badAttempts v, banTime v)
  | None => (0, None)
  end.

(** A visitor with no bad attempt counted and no ban: one the list has not
    seen, or one whose last attempt was a success. *)
Definition clean (l : MaxBadAttemptsBanList) (visitorKey : string) : Prop :=
  record_of l visitorKey = (0, None).

(** The list of the package's own scenario: three attempts allowed, a ban of
    ten minutes, on a fresh list. *)
Definition exampleList : MaxBadAttemptsBanList :=
  NewMaxBadAttemptsBanList 3 600000000000.

(** The calls of [Add] a list receives, oldest first: the clock reading of
    each and the visitor it is for. *)
Definition addAll (calls : list (Time * string)) (l : BanList) : BanList :=
  fold_left (fun l c => Add (fst c) l (snd c)) calls l.

(** The clock reading of the last call for a visitor, if there is one. *)
Fixpoint lastAdd (calls : list (Time * string)) (visitorKey : string) : option Time :=
  match calls with
  | [] => None
  | c :: rest =>
      match lastAdd rest visitorKey with
      | Some t => Some t
      | None => if String.eqb (snd c) visitorKey then Some (fst c) else None
      end
  end.

(** The attempts a max-bad-attempts list is told of: a bad one, with the
    clock reading of the call, or a successful one. *)
Inductive Attempt :=
| BadAttempt (now : Time) (visitorKey : string)
| SuccessAttempt (visitorKey : string).

Definition attemptKey (a : Attempt) : string :=
  match a with
  | BadAttempt _ visitorKey => visitorKey
  | SuccessAttempt visitorKey => visitorKey
  end.

Definition addAttempt (l : MaxBadAttemptsBanList) (a : Attempt) : MaxBadAttemptsBanList :=
  match a with
  | BadAttempt now visitorKey => AddBadAttempt now l visitorKey
  | SuccessAttempt visitorKey => AddSuccessAttempt l visitorKey
  end.

Definition addAttempts (attempts : list Attempt) (l : MaxBadAttemptsBanList)
  : MaxBadAttemptsBanList :=
  fold_left addAttempt attempts l.

(** ** Properties *)

Lemma config_AddBadAttempt now l k :
  banDuration (AddBadAttempt now l k) = banDuration l /\
  maxBadAttempts (AddBadAttempt now l k) = maxBadAttempts l.
Proof.
  unfold AddBadAttempt.
  destruct (wrap_int _ =? maxBadAttempts l); split; reflexivity.
Qed.

Lemma record_AddBadAttempt now l k :
  record_of (AddBadAttempt now l k) k =
    let '(c, b) := record_of l k in
    if wrap_int (c + 1) =? maxBadAttempts l
    then (0, Some (now + banDuration l))
    else (wrap_int (c + 1), b).
Proof.
  unfold record_of, AddBadAttempt.
  destruct (visitors l !! k) as [[c b]|] eqn:Hk;
    cbv beta iota zeta; cbn [badAttempts banTime];
    destruct (wrap_int _ =? maxBadAttempts l);
    cbn [visitors set_visitor]; rewrite lookup_insert_eq; reflexivity.
Qed.

(** Attempts of a visitor leave the records of the others alone. *)
Lemma record_AddBadAttempt_other now l k k' :
  k <> k' -> record_of (AddBadAttempt now l k) k' = record_of l k'.
Proof.
  intros Hne. unfold record_of, AddBadAttempt.
  destruct (wrap_int _ =? maxBadAttempts l);
    cbn [visitors set_visitor]; rewrite lookup_insert_ne by assumption; reflexivity.
Qed.

Lemma IsBanned_record now l k :
  IsBanned now l k = match snd (record_of l k) with
                     | Some t => now <? t
                     | None => false
                     end.
Proof.
  unfold IsBanned, record_of.
  destruct (visitors l !! k) as [[c b]|]; reflexivity.
Qed.

(** Below the threshold the counter counts and no ban is recorded. *)
Lemma record_addBadAttempts_below (times : list Time) :
  forall l k c,
    0 <= c ->
    c + Z.of_nat (length times) < maxBadAttempts l ->
    maxBadAttempts l < 2 ^ 63 ->
    record_of l k = (c, None) ->
    record_of (addBadAttempts times l k) k = (c + Z.of_nat (length times), None)
    /\ maxBadAttempts (addBadAttempts times l k) = maxBadAttempts l
    /\ banDuration (addBadAttempts times l k) = banDuration l.
Proof.
  induction times as [|t times IH]; intros l k c Hc Hlt Hmax Hrec.
  - simpl. rewrite Z.add_0_r. auto.
  - simpl length in *. rewrite Nat2Z.inj_succ in *.
    unfold addBadAttempts; simpl. fold (addBadAttempts times (AddBadAttempt t l k) k).
    destruct (config_AddBadAttempt t l k) as [HD HT].
    assert (Hstep : record_of (AddBadAttempt t l k) k = (c + 1, None)).
    { rewrite record_AddBadAttempt, Hrec.
      rewrite wrap_int_small by lia.
      destruct (Z.eqb_spec (c + 1) (maxBadAttempts l)); [lia | reflexivity]. }
    destruct (IH (AddBadAttempt t l k) k (c + 1)) as (H1 & H2 & H3);
      try rewrite HT; try lia; try assumption.
    repeat split.
    + rewrite H1. f_equal. lia.
    + rewrite H2. exact HT.
    + rewrite H3. exact HD.
Qed.

(** C5. In a max-bad-attempts list with threshold T (a positive Go int) and
    a positive ban duration, for a visitor k with no attempt counted and no
    ban: after any n < T consecutive bad attempts (at any clock readings)
    k is not banned, whenever it is asked; after the T-th bad attempt, made
    at instant t, k is banned at t and at every instant before the ban
    expires, and its counter is back to zero; and after a success attempt,
    from any state of the list, k is not banned. *)
Theorem max_bad_attempts_ban (l : MaxBadAttemptsBanList) (k : string) :
  0 < maxBadAttempts l < 2 ^ 63 ->
  0 < banDuration l ->
  clean l k ->
  (forall (times : list Time) (now : Time),
      Z.of_nat (length times) < maxBadAttempts l ->
      IsBanned now (addBadAttempts times l k) k = false)
  /\ (forall (times : list Time) (t now : Time),
      Z.of_nat (length times) + 1 = maxBadAttempts l ->
      let l' := addBadAttempts (times ++ [t]) l k in
      IsBanned t l' k = true
      /\ (now < t + banDuration l -> IsBanned now l' k = true)
      /\ fst (record_of l' k) = 0)
  /\ (forall (l1 : MaxBadAttemptsBanList) (now : Time),
      IsBanned now (AddSuccessAttempt l1 k) k = false).
Proof.
  intros HT HD Hclean. unfold clean in Hclean.
  split; [|split].
  - intros times now Hn.
    destruct (record_addBadAttempts_below times l k 0) as (Hrec & _); try lia; [assumption|].
    rewrite IsBanned_record, Hrec. reflexivity.
  - intros times t now Hn l'. subst l'.
    unfold addBadAttempts. rewrite fold_left_app. simpl.
    fold (addBadAttempts times l k).
    destruct (record_addBadAttempts_below times l k 0) as (Hrec & HT' & HD');
      try lia; [assumption|].
    assert (Hlast : record_of (AddBadAttempt t (addBadAttempts times l k) k) k
                    = (0, Some (t + banDuration l))).
    { rewrite record_AddBadAttempt, Hrec, HT', HD'.
      rewrite wrap_int_small by lia.
      destruct (Z.eqb_spec (0 + Z.of_nat (length times) + 1) (maxBadAttempts l));
        [reflexivity | lia]. }
    rewrite !IsBanned_record, Hlast. simpl.
    repeat split.
    + apply Z.ltb_lt. lia.
    + intros Hnow. apply Z.ltb_lt. exact Hnow.
  - intros l1 now. unfold IsBanned, AddSuccessAttempt.
    destruct (visitors l1 !! k) as [v|] eqn:Hk.
    + simpl. rewrite lookup_insert_eq. reflexivity.
    + rewrite Hk. reflexivity.
Qed.

Lemma max_bad_attempts_ban_witness :
  IsBanned 25 (addBadAttempts [10; 20] exampleList "alice") "alice" = false
  /\ IsBanned 30 (addBadAttempts ([10; 20] ++ [30]) exampleList "alice") "alice" = true
  /\ IsBanned 40 (AddSuccessAttempt
                    (addBadAttempts [10; 20; 30] exampleList "alice") "alice")
              "alice" = false.
Proof.
  pose proof (max_bad_attempts_ban exampleList "alice"
                ltac:(vm_compute; split; reflexivity) ltac:(vm_compute; reflexivity)
                eq_refl) as (H1 & H2 & H3).
  split; [|split].
  - apply H1. vm_compute. reflexivity.
  - exact (proj1 (H2 [10; 20] 30 30 eq_refl)).
  - apply H3.
Defined.

Lemma addAll_duration calls : forall l, bl_banDuration (addAll calls l) = bl_banDuration l.
Proof.
  induction calls as [|c calls IH]; intros l; [reflexivity|].
  unfold addAll in *. simpl. rewrite IH. reflexivity.
Qed.

(** X1. In the expiry list, whether a visitor is banned depends on the
    last [Add] for it only: after any sequence of calls, the visitor is
    banned exactly until the ban duration after the clock reading of its
    last [Add]; a visitor no call was for is as it was before. *)
Theorem ban_list_last_add (calls : list (Time * string)) (l : BanList)
  (visitorKey : string) (now : Time) :
  BanList_IsBanned now (addAll calls l) visitorKey
  = match lastAdd calls visitorKey with
    | Some t => now <? t + bl_banDuration l
    | None => BanList_IsBanned now l visitorKey
    end.
Proof.
  revert l. induction calls as [|[t k] calls IH]; intros l; [reflexivity|].
  unfold addAll in *. simpl fold_left. rewrite IH. simpl lastAdd.
  destruct (lastAdd calls visitorKey) as [t'|]; [reflexivity|].
  unfold BanList_IsBanned, Add. simpl.
  destruct (String.eqb_spec k visitorKey) as [->|Hne].
  - rewrite lookup_insert_eq. reflexivity.
  - rewrite lookup_insert_ne by assumption. reflexivity.
Qed.

(** A run of bad attempts that does not reach the threshold counts, and
    leaves the ban stamp as it is. *)
Lemma record_addBadAttempts_keep (times : list Time) :
  forall l k c b,
    0 <= c ->
    c + Z.of_nat (length times) < 2 ^ 63 ->
    (maxBadAttempts l <= c \/ c + Z.of_nat (length times) < maxBadAttempts l) ->
    record_of l k = (c, b) ->
    record_of (addBadAttempts times l k) k = (c + Z.of_nat (length times), b)
    /\ maxBadAttempts (addBadAttempts times l k) = maxBadAttempts l
    /\ banDuration (addBadAttempts times l k) = banDuration l.
Proof.
  induction times as [|t times IH]; intros l k c b Hc Hlt Hmax Hrec.
  - simpl. rewrite Z.add_0_r. auto.
  - simpl length in *. rewrite Nat2Z.inj_succ in *.
    unfold addBadAttempts; simpl. fold (addBadAttempts times (AddBadAttempt t l k) k).
    destruct (config_AddBadAttempt t l k) as [HD HT].
    assert (Hstep : record_of (AddBadAttempt t l k) k = (c + 1, b)).
    { rewrite record_AddBadAttempt, Hrec.
      rewrite wrap_int_small by lia.
      destruct (Z.eqb_spec (c + 1) (maxBadAttempts l)); [lia | reflexivity]. }
    destruct (IH (AddBadAttempt t l k) k (c + 1) b) as (H1 & H2 & H3);
      try rewrite HT; try lia; try assumption.
    repeat split.
    + rewrite H1. f_equal. lia.
    + rewrite H2. exact HT.
    + rewrite H3. exact HD.
Qed.

(** X2. A ban lasts for the ban duration and no longer: after the bad
    attempt that reaches the threshold, made at instant t, and any further
    bad attempts fewer than the threshold, the visitor is banned at the
    instants before t plus the ban duration and at no later one. *)
Theorem ban_lasts_for_duration (l : MaxBadAttemptsBanList) (k : string)
  (times more : list Time) (t now : Time) :
  0 < maxBadAttempts l < 2 ^ 63 ->
  clean l k ->
  Z.of_nat (length times) + 1 = maxBadAttempts l ->
  Z.of_nat (length more) < maxBadAttempts l ->
  IsBanned now (addBadAttempts (times ++ t :: more) l k) k
  = (now <? t + banDuration l).
Proof.
  intros HT Hclean Hn Hm. unfold clean in Hclean.
  unfold addBadAttempts. rewrite fold_left_app. simpl.
  fold (addBadAttempts times l k).
  destruct (record_addBadAttempts_keep times l k 0 None) as (Hrec & HT' & HD');
    try lia; [assumption|].
  set (l1 := addBadAttempts times l k) in *.
  assert (Hlast : record_of (AddBadAttempt t l1 k) k = (0, Some (t + banDuration l))).
  { rewrite record_AddBadAttempt, Hrec, HT', HD'.
    rewrite wrap_int_small by lia.
    destruct (Z.eqb_spec (0 + Z.of_nat (length times) + 1) (maxBadAttempts l));
      [reflexivity | lia]. }
  destruct (config_AddBadAttempt t l1 k) as [HD2 HT2].
  fold (addBadAttempts more (AddBadAttempt t l1 k) k).
  destruct (record_addBadAttempts_keep more (AddBadAttempt t l1 k) k 0
              (Some (t + banDuration l))) as (Hrec2 & _);
    try rewrite HT2, HT'; try lia; [assumption|].
  rewrite IsBanned_record, Hrec2. reflexivity.
Qed.

Lemma ban_lasts_for_duration_witness :
  IsBanned 600000000039 (addBadAttempts ([10; 20] ++ 40 :: [50; 60]) exampleList "alice")
           "alice" = (600000000039 <? 40 + banDuration exampleList)
  /\ IsBanned 600000000040 (addBadAttempts ([10; 20] ++ 40 :: [50; 60]) exampleList "alice")
              "alice" = (600000000040 <? 40 + banDuration exampleList).
Proof.
  split; apply ban_lasts_for_duration; vm_compute; try reflexivity; split; reflexivity.
Defined.

Lemma visitors_AddSuccessAttempt_other l k k' :
  k <> k' -> visitors (AddSuccessAttempt l k) !! k' = visitors l !! k'.
Proof.
  intros Hne. unfold AddSuccessAttempt.
  destruct (visitors l !! k); [|reflexivity].
  cbn [visitors set_visitor]. rewrite lookup_insert_ne by assumption. reflexivity.
Qed.

Lemma visitors_AddBadAttempt_other now l k k' :
  k <> k' -> visitors (AddBadAttempt now l k) !! k' = visitors l !! k'.
Proof.
  intros Hne. unfold AddBadAttempt.
  destruct (wrap_int _ =? maxBadAttempts l);
    cbn [visitors set_visitor]; rewrite lookup_insert_ne by assumption; reflexivity.
Qed.

(** X3. Visitors do not affect one another: bad and successful attempts
    of other visitors leave the record of a visitor, and whether it is
    banned, as they were. *)
Theorem visitors_isolated (attempts : list Attempt) (l : MaxBadAttemptsBanList)
  (k : string) (now : Time) :
  Forall (fun a => attemptKey a <> k) attempts ->
  visitors (addAttempts attempts l) !! k = visitors l !! k
  /\ IsBanned now (addAttempts attempts l) k = IsBanned now l k.
Proof.
  intros Hall.
  assert (H : visitors (addAttempts attempts l) !! k = visitors l !! k).
  { revert l. induction Hall as [|a attempts Ha _ IH]; intros l; [reflexivity|].
    unfold addAttempts in *. simpl. rewrite IH.
    destruct a as [t k'|k']; simpl in *.
    - apply visitors_AddBadAttempt_other. exact Ha.
    - apply visitors_AddSuccessAttempt_other. exact Ha. }
  split; [exact H|]. unfold IsBanned. rewrite H. reflexivity.
Qed.

Lemma visitors_isolated_witness :
  IsBanned 35 (addAttempts [BadAttempt 31 "bob"; BadAttempt 32 "bob"; BadAttempt 33 "bob";
                            SuccessAttempt "carol"]
                           (addBadAttempts [10; 20; 30] exampleList "alice")) "alice"
  = IsBanned 35 (addBadAttempts [10; 20; 30] exampleList "alice") "alice".
Proof.
  apply (visitors_isolated
           [BadAttempt 31 "bob"; BadAttempt 32 "bob"; BadAttempt 33 "bob";
            SuccessAttempt "carol"]).
  repeat constructor; simpl; discriminate.
Defined.

(** With a threshold that is not positive, every counter stays away from it. *)
Definition countedBelow (n : Z) (l : MaxBadAttemptsBanList) : Prop :=
  forall k v, visitors l !! k = Some v -> banTime v = None /\ 0 <= badAttempts v <= n.

Lemma addAttempt_countedBelow n l a :
  maxBadAttempts l <= 0 -> 0 <= n -> n + 1 < 2 ^ 63 ->
  countedBelow n l ->
  countedBelow (n + 1) (addAttempt l a) /\ maxBadAttempts (addAttempt l a) = maxBadAttempts l.
Proof.
  intros HT Hn Hlt Hinv. destruct a as [t k|k]; simpl.
  - split; [|apply config_AddBadAttempt].
    intros k' v'. unfold AddBadAttempt.
    set (v := match visitors l !! k with Some v => v | None => _ end).
    assert (Hv : banTime v = None /\ 0 <= badAttempts v <= n).
    { subst v. destruct (visitors l !! k) as [v|] eqn:Hk; [exact (Hinv k v Hk)|].
      simpl. split; [reflexivity|lia]. }
    destruct Hv as [Hb Hc].
    rewrite wrap_int_small by lia.
    destruct (Z.eqb_spec (badAttempts v + 1) (maxBadAttempts l)); [lia|].
    cbn [visitors set_visitor].
    destruct (decide (k = k')) as [->|Hne].
    + rewrite lookup_insert_eq. intros [= <-]. simpl. split; [exact Hb|lia].
    + rewrite lookup_insert_ne by assumption. intros Hk'.
      destruct (Hinv k' v' Hk'). split; [assumption|lia].
  - split.
    2:{ unfold AddSuccessAttempt. destruct (visitors l !! k); reflexivity. }
    intros k' v'. unfold AddSuccessAttempt.
    destruct (visitors l !! k) as [v|] eqn:Hk.
    + cbn [visitors set_visitor].
      destruct (decide (k = k')) as [->|Hne].
      * rewrite lookup_insert_eq. intros [= <-]. simpl. split; [reflexivity|lia].
      * rewrite lookup_insert_ne by assumption. intros Hk'.
        destruct (Hinv k' v' Hk'). split; [assumption|lia].
    + intros Hk'. destruct (Hinv k' v' Hk'). split; [assumption|lia].
Qed.

Lemma addAttempts_countedBelow attempts :
  forall n l,
    maxBadAttempts l <= 0 -> 0 <= n -> n + Z.of_nat (length attempts) < 2 ^ 63 ->
    countedBelow n l ->
    countedBelow (n + Z.of_nat (length attempts)) (addAttempts attempts l).
Proof.
  induction attempts as [|a attempts IH]; intros n l HT Hn Hlt Hinv.
  - simpl. rewrite Z.add_0_r. exact Hinv.
  - simpl length in *. rewrite Nat2Z.inj_succ in *.
    unfold addAttempts in *. simpl.
    destruct (addAttempt_countedBelow n l a) as [Hinv' HT']; try lia; [assumption|].
    replace (n + Z.succ (Z.of_nat (length attempts)))
      with ((n + 1) + Z.of_nat (length attempts)) by lia.
    apply IH; [rewrite HT'; exact HT | lia | lia | exact Hinv'].
Qed.

(** X4. A list created with a threshold of zero or less never bans: the
    counter of a visitor, which starts at one with its first bad attempt,
    does not meet the threshold in fewer than 2^63 attempts. *)
Theorem nonpositive_threshold_never_bans (maxBad : Z) (duration : Duration)
  (attempts : list Attempt) (k : string) (now : Time) :
  maxBad <= 0 ->
  Z.of_nat (length attempts) < 2 ^ 63 ->
  IsBanned now (addAttempts attempts (NewMaxBadAttemptsBanList maxBad duration)) k = false.
Proof.
  intros HT Hlen.
  assert (Hinv : countedBelow (0 + Z.of_nat (length attempts))
                   (addAttempts attempts (NewMaxBadAttemptsBanList maxBad duration))).
  { apply addAttempts_countedBelow; simpl; try lia.
    intros k' v'. simpl. rewrite lookup_empty. discriminate. }
  unfold IsBanned.
  destruct (visitors _ !! k) as [v|] eqn:Hk; [|reflexivity].
  destruct (Hinv k v Hk) as [Hb _]. rewrite Hb. reflexivity.
Qed.

Lemma nonpositive_threshold_never_bans_witness :
  IsBanned 5 (addAttempts [BadAttempt 1 "alice"; BadAttempt 2 "alice"; BadAttempt 3 "alice"]
                          (NewMaxBadAttemptsBanList 0 600000000000)) "alice" = false.
Proof.
  apply nonpositive_threshold_never_bans; vm_compute; [discriminate | reflexivity].
Defined.

(** X5. A successful attempt starts the count over: from any state of the
    list, banned or not, after a successful attempt of the visitor fewer
    bad attempts than the threshold do not ban it. *)
Theorem success_attempt_starts_over (l : MaxBadAttemptsBanList) (k : string)
  (times : list Time) (now : Time) :
  0 < maxBadAttempts l < 2 ^ 63 ->
  Z.of_nat (length times) < maxBadAttempts l ->
  IsBanned now (addBadAttempts times (AddSuccessAttempt l k) k) k = false.
Proof.
  intros HT Hn.
  assert (Hclean : record_of (AddSuccessAttempt l k) k = (0, None)).
  { unfold record_of, AddSuccessAttempt.
    destruct (visitors l !! k) as [v|] eqn:Hk.
    - cbn [visitors set_visitor]. rewrite lookup_insert_eq. reflexivity.
    - rewrite Hk. reflexivity. }
  assert (HT' : maxBadAttempts (AddSuccessAttempt l k) = maxBadAttempts l).
  { unfold AddSuccessAttempt. destruct (visitors l !! k); reflexivity. }
  destruct (record_addBadAttempts_keep times (AddSuccessAttempt l k) k 0 None)
    as (Hrec & _); try rewrite HT'; try lia; [assumption|].
  rewrite IsBanned_record, Hrec. reflexivity.
Qed.

Lemma success_attempt_starts_over_witness :
  IsBanned 70 (addBadAttempts [50; 60]
                 (AddSuccessAttempt (addBadAttempts [10; 20; 30] exampleList "alice") "alice")
                 "alice") "alice" = false.
Proof.
  apply success_attempt_starts_over; vm_compute; try reflexivity. split; reflexivity.
Defined.

End Banlist.

(* ===================================================================== *)
(** * Counting bad credentials by address (server/api_middleware.go) *)
(* ===================================================================== *)

Module BannedIPs.
Import GoInt Banlist.

(** A request as [handleBannedIPs] sees it: the clock reading of the call,
    the remote address and whether the credentials were accepted. *)
Record AuthRequest := mkAuthRequest {
  ar_now : Time;
  ar_RemoteAddr : string;
  ar_authorized : bool
}.

(** The readings of the clock one login can make: by [bannedUsers.IsBanned],
    by [bannedIPs.AddBadAttempt] and by [bannedUsers.Add]. *)
Record LoginClock := mkLoginClock {
  lc_IsBanned : Time;
  lc_AddBadAttempt : Time;
  lc_Add : Time
}.

(** The two ban lists of the API listener. *)
Record LoginState := mkLoginState {
  al_bannedUsers : BanList;
  al_bannedIPs : option MaxBadAttemptsBanList
}.

(** What [handleLogin] answers: 429, 401 for a missing username, the error
    of [validateCredentials], the 500 of [handleBannedIPs], 401 for bad
    credentials, or the rest of the login (the two-factor token or the
    JWT). *)
Inductive LoginAnswer :=
| AnswerTooManyRequests
| AnswerUsernameRequired
| AnswerCredentialsError (err : string)
| AnswerSplitError (text : string)
| AnswerUnauthorized
| AnswerAuthorized.

(** A splitter for the examples: the addresses of the host 10.0.0.7 are
    split, the others refused. *)
Definition exampleSplitHostPort (hostport : string) : string + (string * string) :=
  if GoStrings.HasPrefix hostport "10.0.0.7:"
  then inr ("10.0.0.7", GoStrings.drop_bytes 9 hostport)
  else inl "missing port in address".

(** Three requests with bad credentials from three ports of the host, and
    one with good credentials. *)
Definition exampleBadRequests : list AuthRequest :=
  [ mkAuthRequest 10 "10.0.0.7:5001" false; mkAuthRequest 20 "10.0.0.7:5002" false ].

Definition exampleLastBadRequest : AuthRequest := mkAuthRequest 30 "10.0.0.7:5003" false.

Definition exampleGoodRequest : AuthRequest := mkAuthRequest 40 "10.0.0.7:5004" true.

(** Credentials for the examples, and a listener that bans a user for 600
    units of time. *)
Definition exampleValidateCredentials (username pwd : string) : string + bool :=
  inr (String.eqb username "admin" && String.eqb pwd "secret").

Definition exampleLoginState : LoginState :=
  {| al_bannedUsers := NewBanList 600; al_bannedIPs := Some exampleList |}.

Section HandleBannedIPs.

(** [net.SplitHostPort] and the [%q] verb are not among the sources. *)
Variable SplitHostPort : string -> string + (string * string).
Variable quoted : string -> string.

(** [validateCredentials] is not among the sources either: the error, or
    whether the credentials are accepted. *)
Variable validateCredentials : string -> string -> string + bool.

(** [handleBannedIPs]: whether the request goes on, the text of the error
    answered with the status 500 when it does not, and the ban list
    afterwards.  [bannedIPs] is nil when banning by address is off. *)
Definition handleBannedIPs (bannedIPs : option MaxBadAttemptsBanList) (r : AuthRequest)
  : bool * option string * option MaxBadAttemptsBanList :=
  match bannedIPs with
  | None => (true, None, None)
  | Some l =>
      match SplitHostPort (ar_RemoteAddr r) with
      | inl err =>
          (false,
           Some ("failed to split host port for " +:+ quoted (ar_RemoteAddr r)
                 +:+ ": " +:+ err),
           Some l)
      | inr (ip, _) =>
          (true, None,
           Some (if ar_authorized r then AddSuccessAttempt l ip
                 else AddBadAttempt (ar_now r) l ip))
      end
  end.

(** The ban list after a sequence of requests, oldest first. *)
Definition afterRequests (requests : list AuthRequest)
  (bannedIPs : option MaxBadAttemptsBanList) : option MaxBadAttemptsBanList :=
  fold_left (fun b r => snd (handleBannedIPs b r)) requests bannedIPs.

(** A request that comes from the host [ip], from whatever port. *)
Definition fromHost (ip : string) (r : AuthRequest) : Prop :=
  exists port, SplitHostPort (ar_RemoteAddr r) = inr (ip, port).

(** [handleLogin], up to the point where the credentials are accepted. *)
Definition handleLogin (clock : LoginClock) (s : LoginState)
  (username pwd RemoteAddr : string) : LoginAnswer * LoginState :=
  if BanList_IsBanned (lc_IsBanned clock) (al_bannedUsers s) username
  then (AnswerTooManyRequests, s)
  else if String.eqb username ""
  then (AnswerUsernameRequired, s)
  else
    match validateCredentials username pwd with
    | inl err => (AnswerCredentialsError err, s)
    | inr authorized =>
        match handleBannedIPs (al_bannedIPs s)
                (mkAuthRequest (lc_AddBadAttempt clock) RemoteAddr authorized) with
        | (false, text, ips) =>
            (AnswerSplitError (default "" text),
             {| al_bannedUsers := al_bannedUsers s; al_bannedIPs := ips |})
        | (true, _, ips) =>
            if negb authorized
            then (AnswerUnauthorized,
                  {| al_bannedUsers := Add (lc_Add clock) (al_bannedUsers s) username;
                     al_bannedIPs := ips |})
            else (AnswerAuthorized,
                  {| al_bannedUsers := al_bannedUsers s; al_bannedIPs := ips |})
        end
    end.

(** ** Properties *)

Lemma afterRequests_bad (requests : list AuthRequest) (ip : string) :
  forall l,
    Forall (fun r => fromHost ip r /\ ar_authorized r = false) requests ->
    afterRequests requests (Some l) = Some (addBadAttempts (map ar_now requests) l ip).
Proof.
  induction requests as [|r requests IH]; intros l Hall; [reflexivity|].
  inversion Hall as [|? ? [[port Hr] Hu] Hrest]; subst.
  unfold afterRequests in *. cbn [fold_left map]. unfold handleBannedIPs at 2.
  rewrite Hr, Hu. cbn [snd]. rewrite (IH _ Hrest). reflexivity.
Qed.

(** X26. [handleBannedIPs] counts bad credentials by host, whatever the
    port of the remote address: with a threshold T, after T - 1 requests
    with bad credentials from a host that had none counted the host is not
    banned; after the T-th, made at instant t, it is banned exactly until
    the ban duration after t; after a request with good credentials from
    the host it is not banned any more.  The handler itself lets every
    request go on, a banned host's too, unless the remote address cannot
    be split. *)
Theorem bad_requests_ban_host (l : MaxBadAttemptsBanList) (ip : string)
  (requests : list AuthRequest) (last good : AuthRequest) (now : Time) :
  0 < maxBadAttempts l < 2 ^ 63 ->
  clean l ip ->
  Forall (fun r => fromHost ip r /\ ar_authorized r = false) (requests ++ [last]) ->
  Z.of_nat (length requests) + 1 = maxBadAttempts l ->
  fromHost ip good -> ar_authorized good = true ->
  (forall l1, afterRequests requests (Some l) = Some l1 -> IsBanned now l1 ip = false)
  /\ (forall l2, afterRequests (requests ++ [last]) (Some l) = Some l2 ->
        IsBanned now l2 ip = (now <? ar_now last + banDuration l))
  /\ (forall l3, afterRequests (requests ++ [last; good]) (Some l) = Some l3 ->
        IsBanned now l3 ip = false)
  /\ forall r b, fst (fst (handleBannedIPs b r)) = true
                 \/ exists err, SplitHostPort (ar_RemoteAddr r) = inl err.
Proof.
  intros HT Hclean Hall Hn [gport Hgood] Hauth.
  pose proof Hall as Hall'. apply Forall_app in Hall' as [Hreq _].
  split; [|split; [|split]].
  - intros l1. rewrite (afterRequests_bad requests ip l Hreq). intros [= <-].
    destruct (record_addBadAttempts_keep (map ar_now requests) l ip 0 None) as (Hrec & _);
      rewrite ?length_map; try lia; [exact Hclean|].
    rewrite IsBanned_record, Hrec. reflexivity.
  - intros l2. rewrite (afterRequests_bad (requests ++ [last]) ip l Hall). intros [= <-].
    rewrite map_app. cbn [map]. unfold addBadAttempts. rewrite fold_left_app.
    cbn [fold_left]. fold (addBadAttempts (map ar_now requests) l ip).
    destruct (record_addBadAttempts_keep (map ar_now requests) l ip 0 None)
      as (Hrec & HT' & HD'); rewrite ?length_map; try lia; [exact Hclean|].
    rewrite length_map in Hrec.
    rewrite IsBanned_record, record_AddBadAttempt, Hrec, HT', HD'.
    rewrite wrap_int_small by lia.
    destruct (Z.eqb_spec (0 + Z.of_nat (length requests) + 1) (maxBadAttempts l));
      [reflexivity | lia].
  - intros l3.
    replace (requests ++ [last; good]) with ((requests ++ [last]) ++ [good])
      by (rewrite <- app_assoc; reflexivity).
    unfold afterRequests. rewrite fold_left_app.
    fold (afterRequests (requests ++ [last]) (Some l)).
    rewrite (afterRequests_bad (requests ++ [last]) ip l Hall).
    cbn [fold_left]. unfold handleBannedIPs. rewrite Hgood, Hauth. cbn [snd].
    intros [= <-]. generalize (addBadAttempts (map ar_now (requests ++ [last])) l ip).
    intros l1. unfold IsBanned, AddSuccessAttempt.
    destruct (visitors l1 !! ip) as [v|] eqn:Hv.
    + cbn [visitors set_visitor]. rewrite lookup_insert_eq. reflexivity.
    + rewrite Hv. reflexivity.
  - intros r b. unfold handleBannedIPs. destruct b as [l0|]; [|left; reflexivity].
    destruct (SplitHostPort (ar_RemoteAddr r)) as [err|[h p]]; [right; eauto | left; reflexivity].
Qed.

(** X28. A login answered 401 for bad credentials bans the username: every
    login with that username whose check of the ban list comes before the
    ban duration after the failed one is answered 429 and changes nothing,
    whatever the password and the remote address, the right password
    included; from that instant on the answer is no longer 429.  The
    other usernames are banned exactly as before. *)
Theorem failed_login_locks_user (clock : LoginClock) (s s' : LoginState)
  (username pwd RemoteAddr : string) :
  handleLogin clock s username pwd RemoteAddr = (AnswerUnauthorized, s') ->
  validateCredentials username pwd = inr false
  /\ (forall clock' pwd' RemoteAddr',
        lc_IsBanned clock' < lc_Add clock + bl_banDuration (al_bannedUsers s) ->
        handleLogin clock' s' username pwd' RemoteAddr' = (AnswerTooManyRequests, s'))
  /\ (forall clock' pwd' RemoteAddr',
        lc_Add clock + bl_banDuration (al_bannedUsers s) <= lc_IsBanned clock' ->
        fst (handleLogin clock' s' username pwd' RemoteAddr') <> AnswerTooManyRequests)
  /\ (forall now other, other <> username ->
        BanList_IsBanned now (al_bannedUsers s') other
        = BanList_IsBanned now (al_bannedUsers s) other).
Proof.
  unfold handleLogin at 1.
  destruct (BanList_IsBanned (lc_IsBanned clock) (al_bannedUsers s) username); [discriminate|].
  destruct (String.eqb username _) eqn:Hu; [discriminate|].
  destruct (validateCredentials username pwd) as [err|authorized]; [discriminate|].
  destruct (handleBannedIPs _ _) as [[[|] text] ips]; [|discriminate].
  destruct authorized; cbn [negb]; [discriminate|].
  intros [= <-].
  assert (Hb : forall now, BanList_IsBanned now
                 (Add (lc_Add clock) (al_bannedUsers s) username) username
               = (now <? lc_Add clock + bl_banDuration (al_bannedUsers s))%Z).
  { intros now. unfold BanList_IsBanned, Add. cbn [bl_visitors].
    rewrite lookup_insert_eq. reflexivity. }
  split; [reflexivity|]. split; [|split].
  - intros clock' pwd' addr' Hlt. unfold handleLogin. cbn [al_bannedUsers].
    rewrite Hb. destruct (Z.ltb_spec (lc_IsBanned clock')
      (lc_Add clock + bl_banDuration (al_bannedUsers s))); [reflexivity | lia].
  - intros clock' pwd' addr' Hge. unfold handleLogin. cbn [al_bannedUsers].
    rewrite Hb. destruct (Z.ltb_spec (lc_IsBanned clock')
      (lc_Add clock + bl_banDuration (al_bannedUsers s))); [lia|].
    rewrite Hu. destruct (validateCredentials username pwd') as [e|a]; [discriminate|].
    destruct (handleBannedIPs _ _) as [[[|] t] i]; [|discriminate].
    destruct (negb a); discriminate.
  - intros now other Hne. unfold BanList_IsBanned, Add. cbn [al_bannedUsers bl_visitors].
    rewrite lookup_insert_ne by congruence. reflexivity.
Qed.

End HandleBannedIPs.

Lemma bad_requests_ban_host_witness :
  let l2 := addBadAttempts [10; 20; 30] exampleList "10.0.0.7" in
  afterRequests exampleSplitHostPort (fun s => s)
                (exampleBadRequests ++ [exampleLastBadRequest]) (Some exampleList)
  = Some l2
  /\ IsBanned 35 l2 "10.0.0.7" = (35 <? 30 + banDuration exampleList).
Proof.
  intros l2.
  assert (H2 : afterRequests exampleSplitHostPort (fun s => s)
                 (exampleBadRequests ++ [exampleLastBadRequest]) (Some exampleList)
               = Some l2) by reflexivity.
  split; [exact H2|].
  refine (proj1 (proj2 (bad_requests_ban_host exampleSplitHostPort (fun s => s)
                          exampleList "10.0.0.7" exampleBadRequests exampleLastBadRequest
                          exampleGoodRequest 35 _ _ _ _ _ _)) l2 H2).
  - vm_compute. split; reflexivity.
  - reflexivity.
  - repeat constructor; eexists; reflexivity.
  - reflexivity.
  - eexists; reflexivity.
  - reflexivity.
Defined.

Lemma failed_login_locks_user_witness :
  let s' := {| al_bannedUsers := Add 110 (NewBanList 600) "admin";
               al_bannedIPs := Some (AddBadAttempt 105 exampleList "10.0.0.7") |} in
  handleLogin exampleSplitHostPort (fun s => s) exampleValidateCredentials
    (mkLoginClock 100 105 110) exampleLoginState "admin" "guess" "10.0.0.7:5001"
  = (AnswerUnauthorized, s')
  /\ handleLogin exampleSplitHostPort (fun s => s) exampleValidateCredentials
       (mkLoginClock 200 205 210) s' "admin" "secret" "10.0.0.7:5002"
     = (AnswerTooManyRequests, s').
Proof.
  intros s'.
  assert (H : handleLogin exampleSplitHostPort (fun s => s) exampleValidateCredentials
                (mkLoginClock 100 105 110) exampleLoginState "admin" "guess" "10.0.0.7:5001"
              = (AnswerUnauthorized, s')) by reflexivity.
  split; [exact H|].
  apply (proj1 (proj2 (failed_login_locks_user exampleSplitHostPort (fun s => s)
           exampleValidateCredentials _ _ _ _ _ _ H))).
  vm_compute. reflexivity.
Defined.

End BannedIPs.

(* ===================================================================== *)
(** * server/ports/port_distributor.go *)
(* ===================================================================== *)

Module Ports.

(** Modelled from the spec: the protocol names of package models
    ([ProtocolTCP], [ProtocolUDP], [ProtocolTCPUDP]), which is not among the
    sources; the specification writes them "tcp", "udp" and "tcp+udp". *)
Definition ProtocolTCP : string := "tcp".
Definition ProtocolUDP : string := "udp".
Definition ProtocolTCPUDP : string := "tcp+udp".

(** A set of ports ([mapset.Set] holding [int]s). *)
Abbreviation PortSet := (gset Z).

(** [portsPools] maps a protocol to its pool; a protocol with no entry (or a
    nil set) has no pool yet. *)
Record PortDistributor := mkPortDistributor {
  allowedPorts : PortSet;
  portsPools : gmap string PortSet
}.

Inductive PortError :=
| NoPortsAvailable              (* "no ports available" *)
| ProbeError (msg : string)     (* the error of the probe of the OS *)
| NilPool.                      (* a method called on a nil pool: a panic *)

(** A row of [net.Connections]. *)
Record ConnectionStat := mkConnectionStat {
  cs_Status : string;
  cs_LaddrPort : Z
}.

Definition NewPortDistributor (allowedPorts : PortSet) : PortDistributor :=
  {| allowedPorts := allowedPorts; portsPools := ∅ |}.

Definition NewPortDistributorForTests (allowedPorts tcpPortsPool udpPortsPool : PortSet)
  : PortDistributor :=
  {| allowedPorts := allowedPorts;
     portsPools := <[ProtocolTCP := tcpPortsPool]> (<[ProtocolUDP := udpPortsPool]> ∅) |}.

Definition GetPortsPool (d : PortDistributor) (p : string) : option PortSet :=
  portsPools d !! p.

Definition SetPortsPool (d : PortDistributor) (p : string) (m : PortSet)
  : PortDistributor :=
  {| allowedPorts := allowedPorts d; portsPools := <[p := m]> (portsPools d) |}.

(** [getPool]: the pool of the protocol, the intersection of the two
    sub-pools (a new set) for "tcp+udp". *)
Definition getPool (d : PortDistributor) (protocol : string) : option PortSet :=
  if String.eqb protocol ProtocolTCPUDP
  then match GetPortsPool d ProtocolTCP, GetPortsPool d ProtocolUDP with
       | Some t, Some u => Some (t ∩ u)
       | _, _ => None
       end
  else GetPortsPool d protocol.

Definition IsPortAllowed (d : PortDistributor) (port : Z) : bool :=
  bool_decide (port ∈ allowedPorts d).

Definition IsPortBusy (d : PortDistributor) (protocol : string) (port : Z)
  : PortError + bool :=
  match getPool d protocol with
  | Some pool => inr (negb (bool_decide (port ∈ pool)))
  | None => inl NilPool
  end.

Section Probe.

(** The state of the operating system as [net.Connections] reports it, for
    one call of an operation of the distributor. *)
Variable Connections : string -> PortError + list ConnectionStat.

Definition isActive (c : ConnectionStat) : bool :=
  String.eqb (cs_Status c) "LISTEN" || String.eqb (cs_Status c) "NONE"
  || String.eqb (cs_Status c) "".

Definition ListBusyPorts (protocol : string) : PortError + PortSet :=
  match Connections protocol with
  | inl err => inl err
  | inr connections =>
      inr (list_to_set
             (map cs_LaddrPort
                  (List.filter (fun c => isActive c && negb (cs_LaddrPort c =? 0))
                               connections)))
  end.

Definition refresh (d : PortDistributor) (protocol : string)
  : option PortError * PortDistributor :=
  match ListBusyPorts protocol with
  | inl err => (Some err, d)
  | inr busyPorts => (None, SetPortsPool d protocol (allowedPorts d ∖ busyPorts))
  end.

Definition Refresh (d : PortDistributor) : option PortError * PortDistributor :=
  match refresh d ProtocolTCP with
  | (Some err, dA) => (Some err, dA)
  | (None, dA) => refresh dA ProtocolUDP
  end.

Definition subProtocolsOf (protocol : string) : list string :=
  if String.eqb protocol ProtocolTCPUDP then [ProtocolTCP; ProtocolUDP]
  else [protocol].

(** The first loop of [GetRandomPort]: a sub-protocol with no pool gets one
    by [refresh]; the first error ends the call. *)
Fixpoint ensurePools (d : PortDistributor) (subProtocols : list string)
  : option PortError * PortDistributor :=
  match subProtocols with
  | [] => (None, d)
  | p :: rest =>
      match GetPortsPool d p with
      | Some _ => ensurePools d rest
      | None =>
          match refresh d p with
          | (Some err, dA) => (Some err, dA)
          | (None, dA) => ensurePools dA rest
          end
      end
  end.

(** [d.GetPortsPool(p).Remove(port)]. *)
Definition removePort (port : Z) (d : PortDistributor) (p : string)
  : PortDistributor :=
  match GetPortsPool d p with
  | Some pool => SetPortsPool d p (pool ∖ {[port]})
  | None => d
  end.

(** [GetRandomPort].  [pick] is the element [Pop] takes from a set (the
    first of Go's map iteration), nothing for the empty set.  For a plain
    protocol [getPool] returns the stored set itself, so [Pop] removes the
    port from it; for "tcp+udp" it pops from the intersection, a set of its
    own, and the last loop removes the port from the two stored pools. *)
Definition GetRandomPort (pick : PortSet -> option Z) (d : PortDistributor)
  (protocol : string) : (PortError + Z) * PortDistributor :=
  let subProtocols := subProtocolsOf protocol in
  match ensurePools d subProtocols with
  | (Some err, dA) => (inl err, dA)
  | (None, dA) =>
      match getPool dA protocol with
      | None => (inl NilPool, dA)
      | Some pool =>
          match pick pool with
          | None => (inl NoPortsAvailable, dA)
          | Some port =>
              let dB := if String.eqb protocol ProtocolTCPUDP then dA
                        else SetPortsPool dA protocol (pool ∖ {[port]}) in
              (inr port, fold_left (removePort port) subProtocols dB)
          end
      end
  end.

End Probe.

(** What [Pop] may return: an element of the set, and nothing exactly when
    the set is empty. *)
Definition pop_ok (pick : PortSet -> option Z) : Prop :=
  forall s : PortSet,
    match pick s with
    | Some x => x ∈ s
    | None => s = ∅
    end.

(** One possible [Pop]: the first element of the set's enumeration. *)
Definition pick_first (s : PortSet) : option Z := head (elements s).

(** A probe that finds no connection at all. *)
Definition quietProbe (protocol : string) : PortError + list ConnectionStat := inr [].

(** The distributor of the package's test: allowed ports and "tcp" pool
    {45, 46}, empty "udp" pool. *)
Definition testDistributor : PortDistributor :=
  NewPortDistributorForTests {[45; 46]} {[45; 46]} ∅.

(** A distributor with pools for both protocols, and the two allocations
    the property is read at. *)
Definition twoPools : PortDistributor :=
  NewPortDistributorForTests {[45; 46; 47]} {[45; 46]} {[46; 47]}.

Definition afterTCP : (PortError + Z) * PortDistributor :=
  GetRandomPort quietProbe pick_first twoPools ProtocolTCP.

Definition afterUDP : (PortError + Z) * PortDistributor :=
  GetRandomPort quietProbe pick_first twoPools ProtocolUDP.

(** A call of one of the two operations that change the pools, with what
    the operating system and [Pop] answer during the call. *)
Inductive PortCall :=
| CallRefresh (conns : string -> PortError + list ConnectionStat)
| CallGetRandomPort (conns : string -> PortError + list ConnectionStat)
                    (pick : PortSet -> option Z) (protocol : string).

(** The calls of a distributor, oldest first: the ports the calls of
    [GetRandomPort] return, each with the protocol asked for, and the
    distributor afterwards. *)
Fixpoint callPorts (calls : list PortCall) (d : PortDistributor)
  : list (string * Z) * PortDistributor :=
  match calls with
  | [] => ([], d)
  | CallRefresh conns :: rest => callPorts rest (snd (Refresh conns d))
  | CallGetRandomPort conns pick protocol :: rest =>
      match GetRandomPort conns pick d protocol with
      | (inr port, dA) =>
          let '(ports, dB) := callPorts rest dA in ((protocol, port) :: ports, dB)
      | (inl _, dA) => callPorts rest dA
      end
  end.

Definition callPicksOk (c : PortCall) : Prop :=
  match c with
  | CallRefresh _ => True
  | CallGetRandomPort _ pick _ => pop_ok pick
  end.

Definition isGetRandomPort (c : PortCall) : Prop :=
  match c with
  | CallRefresh _ => False
  | CallGetRandomPort _ _ _ => True
  end.

(** A call of [GetRandomPort] for the protocol. *)
Definition asksFor (protocol : string) (c : PortCall) : Prop :=
  match c with
  | CallRefresh _ => False
  | CallGetRandomPort _ _ p => p = protocol
  end.

(** Every pool holds allowed ports only. *)
Definition poolsWithinAllowed (d : PortDistributor) : Prop :=
  forall p (s : PortSet), GetPortsPool d p = Some s -> s ⊆ allowedPorts d.

(** Two protocols that share a sub-protocol: "tcp+udp" with "tcp", with
    "udp" and with itself, and every protocol with itself. *)
Definition shareSubProtocol (a b : string) : Prop :=
  exists p, p ∈ subProtocolsOf a /\ p ∈ subProtocolsOf b.

(** ** Properties *)

Lemma pick_first_ok : pop_ok pick_first.
Proof.
  intros s. unfold pick_first.
  destruct (elements s) as [|x xs] eqn:He; simpl.
  - apply leibniz_equiv. apply elements_empty_iff. rewrite He. reflexivity.
  - apply elem_of_elements. rewrite He. left.
Qed.

Lemma pop_ok_empty pick : pop_ok pick -> pick ∅ = None.
Proof.
  intros H. specialize (H ∅).
  destruct (pick ∅) as [x|]; [|reflexivity].
  exfalso. exact (not_elem_of_empty x H).
Qed.

Lemma pop_ok_nonempty pick (s : PortSet) :
  pop_ok pick -> s <> ∅ -> exists x, pick s = Some x /\ x ∈ s.
Proof.
  intros H Hs. specialize (H s). destruct (pick s) as [x|]; [eauto | contradiction].
Qed.

(** When the pools the call needs are there, nothing is probed. *)
Lemma ensurePools_present conns d ps :
  Forall (fun p => is_Some (GetPortsPool d p)) ps ->
  ensurePools conns d ps = (None, d).
Proof.
  induction 1 as [|p ps [s Hs] _ IH]; simpl; [reflexivity|].
  rewrite Hs. exact IH.
Qed.

(** The first loop changes no pool that is there, and leaves the allowed
    ports alone. *)
Lemma ensurePools_frame conns ps :
  forall d err dA,
    ensurePools conns d ps = (err, dA) ->
    allowedPorts dA = allowedPorts d
    /\ (forall p, p ∉ ps -> portsPools dA !! p = portsPools d !! p)
    /\ (forall p s, portsPools d !! p = Some s -> portsPools dA !! p = Some s)
    /\ (err = None -> forall p, p ∈ ps -> is_Some (portsPools dA !! p)).
Proof.
  induction ps as [|p ps IH]; intros d err dA H; simpl in H.
  - inversion H; subst. repeat split; auto. intros _ p Hp. inversion Hp.
  - unfold GetPortsPool in H. destruct (portsPools d !! p) as [s|] eqn:Hp.
    + destruct (IH _ _ _ H) as (Ha & Hf & Hk & He).
      repeat split; auto.
      * intros q Hq. apply Hf. intros Hin. apply Hq. right. exact Hin.
      * intros -> q Hq. apply elem_of_cons in Hq as [->|Hq]; [|auto].
        rewrite (Hk _ _ Hp). eauto.
    + unfold refresh in H. destruct (ListBusyPorts conns p) as [e|busy].
      * inversion H; subst. repeat split; auto. discriminate.
      * destruct (IH _ _ _ H) as (Ha & Hf & Hk & He). simpl in *.
        repeat split; auto.
        -- intros q Hq. rewrite Hf by (intros Hin; apply Hq; right; exact Hin).
           apply lookup_insert_ne. intros ->. apply Hq. left.
        -- intros q s Hq. apply Hk. rewrite lookup_insert_ne; [assumption|].
           intros ->. congruence.
        -- intros -> q Hq. apply elem_of_cons in Hq as [->|Hq]; [|auto].
           rewrite (Hk p (allowedPorts d ∖ busy)); [eauto|].
           apply lookup_insert_eq.
Qed.

Lemma SetPortsPool_twice d p (a b : PortSet) :
  SetPortsPool (SetPortsPool d p a) p b = SetPortsPool d p b.
Proof.
  unfold SetPortsPool; simpl. f_equal. apply insert_insert_eq.
Qed.

Lemma difference_twice (s : PortSet) (x : Z) : s ∖ {[x]} ∖ {[x]} = s ∖ {[x]}.
Proof. apply leibniz_equiv. intros y. rewrite !elem_of_difference. tauto. Qed.

(** [GetRandomPort] for a plain protocol whose pool is there: [Pop] decides,
    and the port it takes leaves the pool. *)
Lemma GetRandomPort_plain conns pick d protocol (s : PortSet) :
  protocol <> ProtocolTCPUDP ->
  GetPortsPool d protocol = Some s ->
  GetRandomPort conns pick d protocol =
    match pick s with
    | None => (inl NoPortsAvailable, d)
    | Some port => (inr port, SetPortsPool d protocol (s ∖ {[port]}))
    end.
Proof.
  intros Hne Hs. unfold GetRandomPort, subProtocolsOf, getPool.
  apply String.eqb_neq in Hne. rewrite Hne.
  rewrite ensurePools_present by (repeat constructor; rewrite Hs; eauto).
  rewrite Hs. destruct (pick s) as [port|]; [|reflexivity].
  simpl. unfold removePort, GetPortsPool; simpl.
  rewrite lookup_insert_eq, SetPortsPool_twice, difference_twice. reflexivity.
Qed.

(** [GetRandomPort] for a plain protocol with no pool yet: the pool is
    built from the allowed ports and the busy ports the probe reports, and
    the call goes on as with that pool. *)
Lemma GetRandomPort_plain_refresh conns pick d protocol (busy : PortSet) :
  protocol <> ProtocolTCPUDP ->
  GetPortsPool d protocol = None ->
  ListBusyPorts conns protocol = inr busy ->
  GetRandomPort conns pick d protocol =
    match pick (allowedPorts d ∖ busy) with
    | None => (inl NoPortsAvailable, SetPortsPool d protocol (allowedPorts d ∖ busy))
    | Some port =>
        (inr port, SetPortsPool d protocol ((allowedPorts d ∖ busy) ∖ {[port]}))
    end.
Proof.
  intros Hne Hnone Hbusy. unfold GetRandomPort, subProtocolsOf, getPool.
  apply String.eqb_neq in Hne. rewrite Hne.
  cbn [ensurePools]. rewrite Hnone. unfold refresh. rewrite Hbusy.
  unfold GetPortsPool at 1. cbn [portsPools SetPortsPool]. rewrite lookup_insert_eq.
  destruct (pick (allowedPorts d ∖ busy)) as [port|]; [|reflexivity].
  cbn [fold_left]. unfold removePort, GetPortsPool. cbn [portsPools SetPortsPool].
  rewrite lookup_insert_eq, !SetPortsPool_twice, difference_twice. reflexivity.
Qed.

(** [GetRandomPort] for "tcp+udp" when both sub-pools are there: the port
    comes from their intersection and leaves both. *)
Lemma GetRandomPort_tcpudp conns pick d (t u : PortSet) :
  GetPortsPool d ProtocolTCP = Some t ->
  GetPortsPool d ProtocolUDP = Some u ->
  GetRandomPort conns pick d ProtocolTCPUDP =
    match pick (t ∩ u) with
    | None => (inl NoPortsAvailable, d)
    | Some port =>
        (inr port,
         SetPortsPool (SetPortsPool d ProtocolTCP (t ∖ {[port]}))
                      ProtocolUDP (u ∖ {[port]}))
    end.
Proof.
  intros Ht Hu. unfold GetRandomPort, subProtocolsOf, getPool.
  change (String.eqb ProtocolTCPUDP ProtocolTCPUDP) with true. cbv iota.
  rewrite ensurePools_present by (repeat constructor; [rewrite Ht | rewrite Hu]; eauto).
  rewrite Ht, Hu. destruct (pick (t ∩ u)) as [port|]; [|reflexivity].
  simpl. unfold removePort at 2. rewrite Ht.
  unfold removePort, GetPortsPool; simpl.
  rewrite lookup_insert_ne by discriminate.
  unfold GetPortsPool in Hu. rewrite Hu. reflexivity.
Qed.

(** C7. For a distributor whose "tcp" pool is {45, 46}, whatever elements
    [Pop] takes: two successive calls for "tcp" return 45 and 46 in some
    order, and a third returns the no-ports error.  In general, for a
    protocol whose pool is there, the call returns the no-ports error
    exactly when the pool is empty, and a port it returns was in the pool
    and is removed from it; for "tcp+udp" the pool is the intersection of the
    two sub-pools and the returned port is removed from both. *)
Theorem get_random_port_pops :
  (forall conns1 conns2 conns3 pick1 pick2 pick3 d,
      pop_ok pick1 -> pop_ok pick2 -> pop_ok pick3 ->
      GetPortsPool d ProtocolTCP = Some {[45; 46]} ->
      exists p1 p2 dA dB,
        GetRandomPort conns1 pick1 d ProtocolTCP = (inr p1, dA)
        /\ GetRandomPort conns2 pick2 dA ProtocolTCP = (inr p2, dB)
        /\ GetRandomPort conns3 pick3 dB ProtocolTCP = (inl NoPortsAvailable, dB)
        /\ ((p1 = 45 /\ p2 = 46) \/ (p1 = 46 /\ p2 = 45)))
  /\ (forall conns pick d protocol (s : PortSet),
      pop_ok pick ->
      protocol <> ProtocolTCPUDP ->
      GetPortsPool d protocol = Some s ->
      (fst (GetRandomPort conns pick d protocol) = inl NoPortsAvailable <-> s = ∅)
      /\ (forall port d',
             GetRandomPort conns pick d protocol = (inr port, d') ->
             port ∈ s /\ GetPortsPool d' protocol = Some (s ∖ {[port]})))
  /\ (forall conns pick d (t u : PortSet),
      pop_ok pick ->
      GetPortsPool d ProtocolTCP = Some t ->
      GetPortsPool d ProtocolUDP = Some u ->
      (fst (GetRandomPort conns pick d ProtocolTCPUDP) = inl NoPortsAvailable
       <-> t ∩ u = ∅)
      /\ (forall port d',
             GetRandomPort conns pick d ProtocolTCPUDP = (inr port, d') ->
             port ∈ t ∩ u
             /\ GetPortsPool d' ProtocolTCP = Some (t ∖ {[port]})
             /\ GetPortsPool d' ProtocolUDP = Some (u ∖ {[port]})
             /\ getPool d' ProtocolTCPUDP = Some ((t ∩ u) ∖ {[port]}))).
Proof.
  assert (Hplain : forall conns pick d protocol (s : PortSet),
      pop_ok pick -> protocol <> ProtocolTCPUDP ->
      GetPortsPool d protocol = Some s ->
      (fst (GetRandomPort conns pick d protocol) = inl NoPortsAvailable <-> s = ∅)
      /\ (forall port d',
             GetRandomPort conns pick d protocol = (inr port, d') ->
             port ∈ s /\ GetPortsPool d' protocol = Some (s ∖ {[port]}))).
  { intros conns pick d protocol s Hpick Hne Hs.
    rewrite (GetRandomPort_plain conns pick d protocol s Hne Hs).
    pose proof (Hpick s) as Hp. destruct (pick s) as [port|] eqn:Hps.
    - split.
      + split; [discriminate|]. intros ->. exfalso. exact (not_elem_of_empty _ Hp).
      + intros port' d' Heq. inversion Heq; subst. split; [assumption|].
        unfold GetPortsPool, SetPortsPool; simpl. apply lookup_insert_eq.
    - split; [split; auto | discriminate]. }
  split; [|split; [exact Hplain|]].
  - intros conns1 conns2 conns3 pick1 pick2 pick3 d Hk1 Hk2 Hk3 Hpool.
    assert (Hne : ProtocolTCP <> ProtocolTCPUDP) by discriminate.
    pose proof (GetRandomPort_plain conns1 pick1 d _ _ Hne Hpool) as E1.
    destruct (pop_ok_nonempty pick1 {[45; 46]} Hk1) as (p1 & Hp1 & Hin1).
    { intros He. assert (H45 : 45 ∈ ({[45; 46]} : PortSet)) by set_solver.
      rewrite He in H45. exact (not_elem_of_empty _ H45). }
    rewrite Hp1 in E1.
    set (dA := SetPortsPool d ProtocolTCP ({[45; 46]} ∖ {[p1]})) in *.
    assert (HpoolA : GetPortsPool dA ProtocolTCP = Some ({[45; 46]} ∖ {[p1]})).
    { unfold dA, GetPortsPool; simpl. apply lookup_insert_eq. }
    pose proof (GetRandomPort_plain conns2 pick2 dA _ _ Hne HpoolA) as E2.
    destruct (pop_ok_nonempty pick2 ({[45; 46]} ∖ {[p1]}) Hk2) as (p2 & Hp2 & Hin2).
    { intros He.
      assert (Hp : p1 = 45 \/ p1 = 46) by set_solver.
      destruct Hp as [-> | ->].
      - assert (H46 : 46 ∈ ({[45; 46]} ∖ {[45]} : PortSet)) by set_solver.
        rewrite He in H46. exact (not_elem_of_empty _ H46).
      - assert (H45 : 45 ∈ ({[45; 46]} ∖ {[46]} : PortSet)) by set_solver.
        rewrite He in H45. exact (not_elem_of_empty _ H45). }
    rewrite Hp2 in E2.
    set (dB := SetPortsPool dA ProtocolTCP ({[45; 46]} ∖ {[p1]} ∖ {[p2]})) in *.
    assert (HpoolB : GetPortsPool dB ProtocolTCP = Some ∅).
    { unfold dB, GetPortsPool; simpl. rewrite lookup_insert_eq. f_equal.
      apply leibniz_equiv. set_solver. }
    pose proof (GetRandomPort_plain conns3 pick3 dB _ _ Hne HpoolB) as E3.
    rewrite (pop_ok_empty pick3 Hk3) in E3.
    exists p1, p2, dA, dB.
    split; [exact E1 | split; [exact E2 | split; [exact E3|]]].
    clear -Hin1 Hin2. set_solver.
  - intros conns pick d t u Hpick Ht Hu.
    rewrite (GetRandomPort_tcpudp conns pick d t u Ht Hu).
    pose proof (Hpick (t ∩ u)) as Hp. destruct (pick (t ∩ u)) as [port|] eqn:Hps.
    + split.
      * split; [discriminate|]. intros He. exfalso. rewrite He in Hp.
        exact (not_elem_of_empty _ Hp).
      * intros port' d' Heq. inversion Heq; subst. split; [assumption|].
        assert (HT : GetPortsPool
                       (SetPortsPool (SetPortsPool d ProtocolTCP (t ∖ {[port']}))
                                     ProtocolUDP (u ∖ {[port']})) ProtocolTCP
                     = Some (t ∖ {[port']})).
        { unfold GetPortsPool, SetPortsPool; simpl.
          rewrite lookup_insert_ne by discriminate. apply lookup_insert_eq. }
        assert (HU : GetPortsPool
                       (SetPortsPool (SetPortsPool d ProtocolTCP (t ∖ {[port']}))
                                     ProtocolUDP (u ∖ {[port']})) ProtocolUDP
                     = Some (u ∖ {[port']})).
        { unfold GetPortsPool, SetPortsPool; simpl. apply lookup_insert_eq. }
        split; [exact HT | split; [exact HU|]].
        unfold getPool. change (String.eqb ProtocolTCPUDP ProtocolTCPUDP) with true.
        cbv iota. rewrite HT, HU. f_equal. apply leibniz_equiv. set_solver.
    + split; [split; auto | discriminate].
Qed.

Lemma get_random_port_pops_witness :
  exists p1 p2 dA dB,
    GetRandomPort quietProbe pick_first testDistributor ProtocolTCP = (inr p1, dA)
    /\ GetRandomPort quietProbe pick_first dA ProtocolTCP = (inr p2, dB)
    /\ GetRandomPort quietProbe pick_first dB ProtocolTCP = (inl NoPortsAvailable, dB)
    /\ ((p1 = 45 /\ p2 = 46) \/ (p1 = 46 /\ p2 = 45)).
Proof.
  apply (proj1 get_random_port_pops quietProbe quietProbe quietProbe
           pick_first pick_first pick_first testDistributor
           pick_first_ok pick_first_ok pick_first_ok).
  reflexivity.
Defined.

(** A distributor created over the allowed ports {45, 46}, on a system with
    no busy port: the first call builds the pool {45, 46} and takes a port
    from it. *)
Example fresh_distributor_first_call pick :
  pop_ok pick ->
  exists port,
    (port = 45 \/ port = 46)
    /\ GetRandomPort quietProbe pick (NewPortDistributor {[45; 46]}) ProtocolTCP
       = (inr port,
          SetPortsPool (NewPortDistributor {[45; 46]}) ProtocolTCP
                       ({[45; 46]} ∖ {[port]})).
Proof.
  intros Hpick.
  rewrite (GetRandomPort_plain_refresh quietProbe pick _ ProtocolTCP ∅)
    by (discriminate || reflexivity).
  cbn [allowedPorts NewPortDistributor].
  assert (Hpool : ({[45; 46]} ∖ ∅ : PortSet) = {[45; 46]})
    by (apply leibniz_equiv; set_solver).
  rewrite Hpool.
  destruct (pop_ok_nonempty pick {[45; 46]} Hpick) as (port & Hp & Hin).
  { intros He. assert (H45 : 45 ∈ ({[45; 46]} : PortSet)) by set_solver.
    rewrite He in H45. exact (not_elem_of_empty _ H45). }
  rewrite Hp. exists port. split; [set_solver | reflexivity].
Qed.

(** An allocation for a plain protocol touches the pool of that protocol
    only. *)
Lemma GetRandomPort_plain_frame conns pick d protocol res d' :
  protocol <> ProtocolTCPUDP ->
  GetRandomPort conns pick d protocol = (res, d') ->
  allowedPorts d' = allowedPorts d
  /\ (forall p, p <> protocol -> GetPortsPool d' p = GetPortsPool d p)
  /\ (forall port, res = inr port ->
       exists s : PortSet,
         GetPortsPool d' protocol = Some (s ∖ {[port]})
         /\ match GetPortsPool d protocol with
            | Some s0 => s = s0
            | None => exists busy, ListBusyPorts conns protocol = inr busy
                                   /\ s = allowedPorts d ∖ busy
            end).
Proof.
  intros Hne H. unfold GetRandomPort, subProtocolsOf, getPool in H.
  apply String.eqb_neq in Hne. rewrite Hne in H.
  assert (Hne' : protocol <> ProtocolTCPUDP) by (apply String.eqb_neq; exact Hne).
  simpl in H. destruct (GetPortsPool d protocol) as [s0|] eqn:Hs0.
  - rewrite Hs0 in H. destruct (pick s0) as [port|].
    + simpl in H. unfold removePort, GetPortsPool in H; simpl in H.
      rewrite lookup_insert_eq, SetPortsPool_twice, difference_twice in H.
      inversion H; subst. split; [reflexivity|]. split.
      * intros p Hp. unfold GetPortsPool; simpl. apply lookup_insert_ne. congruence.
      * intros port' Hport. inversion Hport; subst. exists s0. split; [|reflexivity].
        unfold GetPortsPool; simpl. apply lookup_insert_eq.
    + inversion H; subst. repeat split; auto. discriminate.
  - unfold refresh in H. destruct (ListBusyPorts conns protocol) as [e|busy] eqn:Hb.
    + inversion H; subst. repeat split; auto. discriminate.
    + unfold GetPortsPool at 1 in H. simpl in H. rewrite lookup_insert_eq in H.
      destruct (pick (allowedPorts d ∖ busy)) as [port|].
      * simpl in H. unfold removePort, GetPortsPool in H; simpl in H.
        rewrite lookup_insert_eq, !SetPortsPool_twice, difference_twice in H.
        inversion H; subst. split; [reflexivity|]. split.
        -- intros p Hp. unfold GetPortsPool; simpl. apply lookup_insert_ne. congruence.
        -- intros port' Hport. inversion Hport; subst.
           exists (allowedPorts d ∖ busy). split; [|eauto].
           unfold GetPortsPool; simpl. apply lookup_insert_eq.
      * inversion H; subst. split; [reflexivity|]. split; [|discriminate].
        intros p Hp. unfold GetPortsPool; simpl. apply lookup_insert_ne. congruence.
Qed.

(** C10. A call of [GetRandomPort] for the plain protocol "tcp" that returns
    a port leaves the allowed ports, the "udp" pool and every other entry of
    the pool map as they were, and the "tcp" pool is the pool the call found
    (or built, when there was none) without the returned port;
    symmetrically a "udp" allocation leaves the "tcp" pool and all other
    entries unchanged. *)
Theorem get_random_port_frame conns pick d port d' :
  (GetRandomPort conns pick d ProtocolTCP = (inr port, d') ->
   allowedPorts d' = allowedPorts d
   /\ GetPortsPool d' ProtocolUDP = GetPortsPool d ProtocolUDP
   /\ (forall p, p <> ProtocolTCP -> GetPortsPool d' p = GetPortsPool d p)
   /\ exists s : PortSet,
        GetPortsPool d' ProtocolTCP = Some (s ∖ {[port]})
        /\ match GetPortsPool d ProtocolTCP with
           | Some s0 => s = s0
           | None => exists busy, ListBusyPorts conns ProtocolTCP = inr busy
                                  /\ s = allowedPorts d ∖ busy
           end)
  /\ (GetRandomPort conns pick d ProtocolUDP = (inr port, d') ->
      allowedPorts d' = allowedPorts d
      /\ GetPortsPool d' ProtocolTCP = GetPortsPool d ProtocolTCP
      /\ (forall p, p <> ProtocolUDP -> GetPortsPool d' p = GetPortsPool d p)
      /\ exists s : PortSet,
           GetPortsPool d' ProtocolUDP = Some (s ∖ {[port]})
           /\ match GetPortsPool d ProtocolUDP with
              | Some s0 => s = s0
              | None => exists busy, ListBusyPorts conns ProtocolUDP = inr busy
                                     /\ s = allowedPorts d ∖ busy
              end).
Proof.
  split; intros H.
  - destruct (GetRandomPort_plain_frame conns pick d ProtocolTCP _ _
                ltac:(discriminate) H) as (Ha & Hf & Hp).
    split; [exact Ha|]. split; [apply Hf; discriminate|]. split; [exact Hf|].
    apply Hp. reflexivity.
  - destruct (GetRandomPort_plain_frame conns pick d ProtocolUDP _ _
                ltac:(discriminate) H) as (Ha & Hf & Hp).
    split; [exact Ha|]. split; [apply Hf; discriminate|]. split; [exact Hf|].
    apply Hp. reflexivity.
Qed.

Lemma afterTCP_returns : exists port, fst afterTCP = inr port.
Proof.
  unfold afterTCP.
  rewrite (GetRandomPort_plain quietProbe pick_first twoPools ProtocolTCP {[45; 46]})
    by (discriminate || reflexivity).
  destruct (pop_ok_nonempty pick_first {[45; 46]} pick_first_ok) as (x & Hx & _).
  { intros He. assert (H45 : 45 ∈ ({[45; 46]} : PortSet)) by set_solver.
    rewrite He in H45. exact (not_elem_of_empty _ H45). }
  rewrite Hx. eauto.
Qed.

Lemma afterUDP_returns : exists port, fst afterUDP = inr port.
Proof.
  unfold afterUDP.
  rewrite (GetRandomPort_plain quietProbe pick_first twoPools ProtocolUDP {[46; 47]})
    by (discriminate || reflexivity).
  destruct (pop_ok_nonempty pick_first {[46; 47]} pick_first_ok) as (x & Hx & _).
  { intros He. assert (H46 : 46 ∈ ({[46; 47]} : PortSet)) by set_solver.
    rewrite He in H46. exact (not_elem_of_empty _ H46). }
  rewrite Hx. eauto.
Qed.

Lemma get_random_port_frame_witness :
  (exists port, fst afterTCP = inr port)
  /\ allowedPorts (snd afterTCP) = allowedPorts twoPools
  /\ GetPortsPool (snd afterTCP) ProtocolUDP = Some {[46; 47]}
  /\ (exists port, fst afterUDP = inr port)
  /\ allowedPorts (snd afterUDP) = allowedPorts twoPools
  /\ GetPortsPool (snd afterUDP) ProtocolTCP = Some {[45; 46]}.
Proof.
  destruct afterTCP_returns as (pt & Ht), afterUDP_returns as (pu & Hu).
  assert (Et : GetRandomPort quietProbe pick_first twoPools ProtocolTCP
               = (inr pt, snd afterTCP)).
  { fold afterTCP. rewrite <- Ht. apply surjective_pairing. }
  assert (Eu : GetRandomPort quietProbe pick_first twoPools ProtocolUDP
               = (inr pu, snd afterUDP)).
  { fold afterUDP. rewrite <- Hu. apply surjective_pairing. }
  destruct (proj1 (get_random_port_frame quietProbe pick_first twoPools pt
                     (snd afterTCP)) Et) as (Ha & Hudp & _).
  destruct (proj2 (get_random_port_frame quietProbe pick_first twoPools pu
                     (snd afterUDP)) Eu) as (Hb & Htcp & _).
  split; [eauto|]. split; [exact Ha|]. split; [rewrite Hudp; reflexivity|].
  split; [eauto|]. split; [exact Hb|]. rewrite Htcp. reflexivity.
Defined.

Lemma refresh_spec conns d p :
  match ListBusyPorts conns p with
  | inl err => refresh conns d p = (Some err, d)
  | inr busy => refresh conns d p = (None, SetPortsPool d p (allowedPorts d ∖ busy))
  end.
Proof. unfold refresh. destruct (ListBusyPorts conns p); reflexivity. Qed.

Lemma poolsWithinAllowed_set d p (s : PortSet) :
  poolsWithinAllowed d -> s ⊆ allowedPorts d -> poolsWithinAllowed (SetPortsPool d p s).
Proof.
  intros Hd Hs q t. unfold GetPortsPool, SetPortsPool. cbn [portsPools allowedPorts].
  destruct (decide (p = q)) as [->|Hne].
  - rewrite lookup_insert_eq. intros [= <-]. exact Hs.
  - rewrite lookup_insert_ne by assumption. apply Hd.
Qed.

Lemma refresh_within conns d p err dA :
  refresh conns d p = (err, dA) -> poolsWithinAllowed d -> poolsWithinAllowed dA.
Proof.
  unfold refresh. destruct (ListBusyPorts conns p) as [e|busy]; intros [= <- <-] Hd.
  - exact Hd.
  - apply poolsWithinAllowed_set; [exact Hd|]. cbn [allowedPorts]. set_solver.
Qed.

Lemma Refresh_within conns d :
  poolsWithinAllowed d -> poolsWithinAllowed (snd (Refresh conns d))
  /\ allowedPorts (snd (Refresh conns d)) = allowedPorts d.
Proof.
  intros Hd. unfold Refresh.
  destruct (refresh conns d ProtocolTCP) as [[e|] dA] eqn:HA.
  - simpl. pose proof (refresh_within _ _ _ _ _ HA Hd).
    split; [assumption|]. unfold refresh in HA.
    destruct (ListBusyPorts conns ProtocolTCP); inversion HA; reflexivity.
  - pose proof (refresh_within _ _ _ _ _ HA Hd) as HdA.
    assert (Ha : allowedPorts dA = allowedPorts d).
    { unfold refresh in HA. destruct (ListBusyPorts conns ProtocolTCP); inversion HA; reflexivity. }
    destruct (refresh conns dA ProtocolUDP) as [e dB] eqn:HB. simpl.
    split; [exact (refresh_within _ _ _ _ _ HB HdA)|].
    unfold refresh in HB. destruct (ListBusyPorts conns ProtocolUDP); inversion HB; subst;
      simpl; exact Ha.
Qed.

Lemma ensurePools_within conns ps :
  forall d err dA,
    ensurePools conns d ps = (err, dA) -> poolsWithinAllowed d -> poolsWithinAllowed dA.
Proof.
  induction ps as [|p ps IH]; intros d err dA H Hd; simpl in H.
  - inversion H; subst. exact Hd.
  - destruct (GetPortsPool d p) as [s|]; [exact (IH _ _ _ H Hd)|].
    destruct (refresh conns d p) as [[e|] d1] eqn:Hr.
    + inversion H; subst. exact (refresh_within _ _ _ _ _ Hr Hd).
    + exact (IH _ _ _ H (refresh_within _ _ _ _ _ Hr Hd)).
Qed.

Lemma removePorts_tcpudp port d (t u : PortSet) :
  GetPortsPool d ProtocolTCP = Some t ->
  GetPortsPool d ProtocolUDP = Some u ->
  fold_left (removePort port) [ProtocolTCP; ProtocolUDP] d
  = SetPortsPool (SetPortsPool d ProtocolTCP (t ∖ {[port]})) ProtocolUDP (u ∖ {[port]}).
Proof.
  intros Ht Hu. cbn [fold_left]. unfold removePort at 2. rewrite Ht.
  unfold removePort, GetPortsPool. cbn [portsPools SetPortsPool].
  rewrite lookup_insert_ne by discriminate.
  unfold GetPortsPool in Hu. rewrite Hu. reflexivity.
Qed.

Lemma removePorts_plain port d protocol (s : PortSet) :
  fold_left (removePort port) [protocol] (SetPortsPool d protocol (s ∖ {[port]}))
  = SetPortsPool d protocol (s ∖ {[port]}).
Proof.
  cbn [fold_left]. unfold removePort, GetPortsPool. cbn [portsPools SetPortsPool].
  rewrite lookup_insert_eq, SetPortsPool_twice, difference_twice. reflexivity.
Qed.

(** What a call of [GetRandomPort] does to the pools, in one statement:
    the first loop [ensurePools] leaves a distributor [dA]; an error or an
    empty pool ends the call there; a port popped from the pool of the
    protocol leaves the pools of all its sub-protocols. *)
Lemma GetRandomPort_cases conns pick d protocol res d' :
  GetRandomPort conns pick d protocol = (res, d') ->
  exists err dA,
    ensurePools conns d (subProtocolsOf protocol) = (err, dA)
    /\ allowedPorts d' = allowedPorts dA
    /\ match res with
       | inl _ => d' = dA
       | inr port =>
           err = None
           /\ (exists pool, getPool dA protocol = Some pool /\ pick pool = Some port)
           /\ forall p,
               GetPortsPool d' p
               = if bool_decide (p ∈ subProtocolsOf protocol)
                 then (fun s : PortSet => s ∖ {[port]}) <$> GetPortsPool dA p
                 else GetPortsPool dA p
       end.
Proof.
  unfold GetRandomPort. intros H.
  destruct (ensurePools conns d (subProtocolsOf protocol)) as [[e|] dA] eqn:He.
  - inversion H; subst. exists (Some e), d'. auto.
  - exists None, dA. split; [reflexivity|].
    destruct (getPool dA protocol) as [pool|] eqn:Hpool.
    2:{ inversion H; subst. auto. }
    destruct (pick pool) as [port|] eqn:Hpick.
    2:{ inversion H; subst. auto. }
    inversion H; subst res d'; clear H.
    unfold subProtocolsOf in *. unfold getPool in Hpool.
    destruct (String.eqb protocol ProtocolTCPUDP) eqn:Hp.
    + destruct (GetPortsPool dA ProtocolTCP) as [t|] eqn:Ht; [|discriminate].
      destruct (GetPortsPool dA ProtocolUDP) as [u|] eqn:Hu; [|discriminate].
      rewrite (removePorts_tcpudp port dA t u Ht Hu).
      split; [reflexivity|]. split; [reflexivity|]. split; [eauto|].
      intros p. unfold GetPortsPool in *. cbn [portsPools SetPortsPool].
      destruct (decide (p = ProtocolUDP)) as [->|HneU].
      * rewrite lookup_insert_eq, bool_decide_eq_true_2
          by (apply list_elem_of_In; right; left; reflexivity).
        rewrite Hu. reflexivity.
      * rewrite lookup_insert_ne by congruence.
        destruct (decide (p = ProtocolTCP)) as [->|HneT].
        -- rewrite lookup_insert_eq, bool_decide_eq_true_2
             by (apply list_elem_of_In; left; reflexivity).
           rewrite Ht. reflexivity.
        -- rewrite lookup_insert_ne by congruence.
           rewrite bool_decide_eq_false_2; [reflexivity|].
           intros Hin; apply list_elem_of_In in Hin as [Hin|[Hin|[]]]; congruence.
    + rewrite removePorts_plain.
      split; [reflexivity|]. split; [reflexivity|]. split; [eauto|].
      intros p. unfold GetPortsPool in *. cbn [portsPools SetPortsPool].
      destruct (decide (p = protocol)) as [->|Hne].
      * rewrite lookup_insert_eq, bool_decide_eq_true_2
          by (apply list_elem_of_In; left; reflexivity).
        rewrite Hpool. reflexivity.
      * rewrite lookup_insert_ne by congruence.
        rewrite bool_decide_eq_false_2; [reflexivity|].
        intros Hin; apply list_elem_of_In in Hin as [Hin|[]]; congruence.
Qed.

Lemma getPool_sub d protocol (pool : PortSet) :
  getPool d protocol = Some pool ->
  forall p, p ∈ subProtocolsOf protocol ->
    exists s : PortSet, GetPortsPool d p = Some s /\ pool ⊆ s.
Proof.
  unfold getPool, subProtocolsOf.
  destruct (String.eqb protocol ProtocolTCPUDP).
  - destruct (GetPortsPool d ProtocolTCP) as [t|] eqn:Ht; [|discriminate].
    destruct (GetPortsPool d ProtocolUDP) as [u|] eqn:Hu; [|discriminate].
    intros [= <-] p Hin; apply list_elem_of_In in Hin as [<-|[<-|[]]].
    + exists t. split; [exact Ht|set_solver].
    + exists u. split; [exact Hu|set_solver].
  - intros Hp p Hin; apply list_elem_of_In in Hin as [<-|[]]. exists pool. split; [exact Hp|set_solver].
Qed.

(** A call of [GetRandomPort] keeps the allowed ports, keeps the pools
    within them, and takes ports out of the pools that are there, never
    putting one in. *)
Lemma GetRandomPort_shrinks conns pick d protocol res d' :
  GetRandomPort conns pick d protocol = (res, d') ->
  allowedPorts d' = allowedPorts d
  /\ (poolsWithinAllowed d -> poolsWithinAllowed d')
  /\ (forall p (s : PortSet), GetPortsPool d p = Some s ->
        exists s' : PortSet, GetPortsPool d' p = Some s' /\ s' ⊆ s).
Proof.
  intros H. destruct (GetRandomPort_cases _ _ _ _ _ _ H) as (err & dA & He & Ha & Hres).
  destruct (ensurePools_frame conns _ _ _ _ He) as (HaA & _ & Hkeep & _).
  pose proof (ensurePools_within conns _ _ _ _ He) as HwA.
  destruct res as [e|port].
  - subst d'. split; [exact HaA|]. split; [exact HwA|].
    intros p s Hs. exists s. split; [apply Hkeep; exact Hs|reflexivity].
  - destruct Hres as (_ & _ & Hpools).
    split; [congruence|]. split.
    + intros Hd p s. rewrite Hpools, Ha.
      destruct (bool_decide _); [|apply HwA; exact Hd].
      destruct (GetPortsPool dA p) as [s0|] eqn:Hp; [|discriminate].
      intros [= <-]. pose proof (HwA Hd p s0 Hp). set_solver.
    + intros p s Hs. rewrite Hpools.
      assert (HsA : GetPortsPool dA p = Some s) by (apply Hkeep; exact Hs).
      rewrite HsA.
      destruct (bool_decide _); simpl; eexists; split; try reflexivity. set_solver.
Qed.

(** A port a call of [GetRandomPort] returns was in the pool of every
    sub-protocol of the protocol that had one, is an element of the pool
    [ensurePools] built for the others, and is in none of them afterwards. *)
Lemma GetRandomPort_returned conns pick d protocol port d' :
  pop_ok pick ->
  GetRandomPort conns pick d protocol = (inr port, d') ->
  forall p, p ∈ subProtocolsOf protocol ->
    (exists s' : PortSet, GetPortsPool d' p = Some s' /\ port ∉ s')
    /\ (forall s : PortSet, GetPortsPool d p = Some s -> port ∈ s)
    /\ (poolsWithinAllowed d -> port ∈ allowedPorts d).
Proof.
  intros Hpick H p Hp.
  destruct (GetRandomPort_cases _ _ _ _ _ _ H)
    as (err & dA & He & Ha & -> & (pool & Hpool & Hport) & Hpools).
  destruct (ensurePools_frame conns _ _ _ _ He) as (HaA & _ & Hkeep & _).
  destruct (getPool_sub _ _ _ Hpool p Hp) as (s0 & Hs0 & Hsub).
  pose proof (Hpick pool) as Hin. rewrite Hport in Hin.
  split; [|split].
  - rewrite Hpools, bool_decide_eq_true_2, Hs0 by exact Hp. simpl.
    eexists. split; [reflexivity|set_solver].
  - intros s Hs. apply Hkeep in Hs. unfold GetPortsPool in Hs0. rewrite Hs in Hs0.
    inversion Hs0; subst. set_solver.
  - intros Hd. rewrite <- HaA.
    pose proof (ensurePools_within conns _ _ _ _ He Hd p s0 Hs0). set_solver.
Qed.

Lemma callPorts_within calls :
  forall d ports d',
    callPorts calls d = (ports, d') ->
    Forall callPicksOk calls ->
    poolsWithinAllowed d ->
    poolsWithinAllowed d' /\ allowedPorts d' = allowedPorts d
    /\ Forall (fun r => snd r ∈ allowedPorts d) ports.
Proof.
  induction calls as [|c calls IH]; intros d ports d' H Hok Hd; simpl in H.
  - inversion H; subst. auto.
  - inversion Hok as [|? ? Hc Hrest]; subst.
    destruct c as [conns|conns pick protocol].
    + destruct (Refresh_within conns d Hd) as [Hw Ha].
      destruct (IH _ _ _ H Hrest Hw) as (H1 & H2 & H3).
      rewrite Ha in *. auto.
    + destruct (GetRandomPort conns pick d protocol) as [[e|port] dA] eqn:Hg.
      * destruct (GetRandomPort_shrinks _ _ _ _ _ _ Hg) as (Ha & Hw & _).
        destruct (IH _ _ _ H Hrest (Hw Hd)) as (H1 & H2 & H3).
        rewrite Ha in *. auto.
      * destruct (GetRandomPort_shrinks _ _ _ _ _ _ Hg) as (Ha & Hw & _).
        destruct (callPorts calls dA) as [ps dB] eqn:Hrec.
        inversion H; subst ports d'; clear H.
        destruct (IH _ _ _ Hrec Hrest (Hw Hd)) as (H1 & H2 & H3).
        rewrite Ha in *. split; [exact H1|]. split; [exact H2|].
        constructor; [|exact H3]. simpl.
        assert (Hsub : hd protocol (subProtocolsOf protocol) ∈ subProtocolsOf protocol).
        { unfold subProtocolsOf. destruct (String.eqb _ _); left. }
        exact (proj2 (proj2 (GetRandomPort_returned _ _ _ _ _ _ Hc Hg _ Hsub)) Hd).
Qed.

(** X6. Along any sequence of calls of [Refresh] and [GetRandomPort] on a
    distributor created by [NewPortDistributor], whatever the operating
    system reports and whatever [Pop] takes: every port [GetRandomPort]
    returned is an allowed port, every port [IsPortBusy] reports free is an
    allowed port, and the allowed ports are the ones the distributor was
    created with. *)
Theorem pools_within_allowed (allowed : PortSet) (calls : list PortCall) :
  Forall callPicksOk calls ->
  let '(ports, d) := callPorts calls (NewPortDistributor allowed) in
  Forall (fun r => IsPortAllowed d (snd r) = true) ports
  /\ (forall protocol port,
        IsPortBusy d protocol port = inr false -> IsPortAllowed d port = true)
  /\ allowedPorts d = allowed.
Proof.
  intros Hok.
  destruct (callPorts calls (NewPortDistributor allowed)) as [ports d] eqn:H.
  destruct (callPorts_within calls _ _ _ H Hok) as (Hw & Ha & Hports).
  { intros p s. unfold GetPortsPool. simpl. rewrite lookup_empty. discriminate. }
  simpl in Ha. split; [|split; [|exact Ha]].
  - eapply Forall_impl; [exact Hports|]. intros r Hr. unfold IsPortAllowed.
    apply bool_decide_eq_true_2. rewrite Ha. exact Hr.
  - intros protocol port. unfold IsPortBusy, IsPortAllowed.
    destruct (getPool d protocol) as [pool|] eqn:Hpool; [|discriminate].
    intros [= Hb]. apply negb_false_iff, bool_decide_eq_true_1 in Hb.
    apply bool_decide_eq_true_2.
    assert (Hsub : hd protocol (subProtocolsOf protocol) ∈ subProtocolsOf protocol).
    { unfold subProtocolsOf. destruct (String.eqb _ _); left. }
    destruct (getPool_sub _ _ _ Hpool _ Hsub) as (s & Hs & Hsubset).
    pose proof (Hw _ _ Hs). set_solver.
Qed.

Lemma pools_within_allowed_witness :
  let '(ports, d) :=
    callPorts [CallGetRandomPort quietProbe pick_first ProtocolTCPUDP;
               CallRefresh quietProbe;
               CallGetRandomPort quietProbe pick_first ProtocolTCP]
              (NewPortDistributor {[45; 46]}) in
  Forall (fun r => IsPortAllowed d (snd r) = true) ports
  /\ (forall protocol port,
        IsPortBusy d protocol port = inr false -> IsPortAllowed d port = true)
  /\ allowedPorts d = {[45; 46]}.
Proof.
  apply (pools_within_allowed {[45; 46]}
           [CallGetRandomPort quietProbe pick_first ProtocolTCPUDP;
            CallRefresh quietProbe;
            CallGetRandomPort quietProbe pick_first ProtocolTCP]).
  repeat constructor; exact pick_first_ok.
Defined.

(** X7. [ListBusyPorts] passes the error of the probe on; otherwise a port
    is busy exactly when it is not 0 and is the local port of a connection
    whose status is LISTEN, NONE or empty.  The port 0 is never busy, and a
    connection in another state (an established one, say) does not make
    its port busy. *)
Theorem list_busy_ports (conns : string -> PortError + list ConnectionStat)
  (protocol : string) :
  (forall err, conns protocol = inl err -> ListBusyPorts conns protocol = inl err)
  /\ (forall connections, conns protocol = inr connections ->
        exists busy : PortSet,
          ListBusyPorts conns protocol = inr busy
          /\ (0 ∉ busy)
          /\ forall port,
               port ∈ busy <->
               port <> 0
               /\ exists c, In c connections /\ cs_LaddrPort c = port
                            /\ (cs_Status c = "LISTEN" \/ cs_Status c = "NONE"
                                \/ cs_Status c = "")).
Proof.
  split.
  - intros err H. unfold ListBusyPorts. rewrite H. reflexivity.
  - intros connections H. unfold ListBusyPorts. rewrite H.
    eexists. split; [reflexivity|].
    assert (Hspec : forall port,
               port ∈ (list_to_set
                         (map cs_LaddrPort
                            (List.filter
                               (fun c => isActive c && negb (cs_LaddrPort c =? 0))
                               connections)) : PortSet) <->
               port <> 0
               /\ exists c, In c connections /\ cs_LaddrPort c = port
                            /\ (cs_Status c = "LISTEN" \/ cs_Status c = "NONE"
                                \/ cs_Status c = "")).
    { intros port. rewrite elem_of_list_to_set, list_elem_of_In, in_map_iff. split.
      - intros (c & Hc & Hin). apply filter_In in Hin as [Hin Hact].
        apply andb_true_iff in Hact as [Hact Hnz].
        apply negb_true_iff, Z.eqb_neq in Hnz. split; [congruence|].
        exists c. split; [exact Hin|]. split; [exact Hc|].
        unfold isActive in Hact.
        apply orb_true_iff in Hact as [Hact|Hact];
          [apply orb_true_iff in Hact as [Hact|Hact]|];
          apply String.eqb_eq in Hact; auto.
      - intros (Hnz & c & Hin & Hc & Hst). exists c. split; [exact Hc|].
        apply filter_In. split; [exact Hin|].
        apply andb_true_iff. split.
        + unfold isActive. destruct Hst as [-> | [-> | ->]]; reflexivity.
        + apply negb_true_iff, Z.eqb_neq. congruence. }
    split; [|exact Hspec].
    intros H0. apply Hspec in H0 as [H0 _]. congruence.
Qed.

Lemma list_busy_ports_witness :
  exists busy : PortSet,
    ListBusyPorts (fun _ => inr [mkConnectionStat "LISTEN" 22;
                                 mkConnectionStat "ESTABLISHED" 443;
                                 mkConnectionStat "" 0]) ProtocolTCP = inr busy
    /\ (22 ∈ busy) /\ (443 ∉ busy) /\ (0 ∉ busy).
Proof.
  destruct (proj2 (list_busy_ports
                     (fun _ => inr [mkConnectionStat "LISTEN" 22;
                                    mkConnectionStat "ESTABLISHED" 443;
                                    mkConnectionStat "" 0]) ProtocolTCP)
              _ eq_refl) as (busy & Hb & H0 & Hspec).
  exists busy. split; [exact Hb|]. split; [|split; [|exact H0]].
  - apply Hspec. split; [discriminate|].
    exists (mkConnectionStat "LISTEN" 22). simpl. auto.
  - intros H. apply Hspec in H as (_ & c & Hin & Hport & Hst).
    simpl in Hin. destruct Hin as [<-|[<-|[<-|[]]]]; simpl in *;
      try discriminate Hport.
    destruct Hst as [Hst|[Hst|Hst]]; discriminate Hst.
Defined.

Lemma Refresh_ok conns d (bt bu : PortSet) :
  ListBusyPorts conns ProtocolTCP = inr bt ->
  ListBusyPorts conns ProtocolUDP = inr bu ->
  Refresh conns d
  = (None, SetPortsPool (SetPortsPool d ProtocolTCP (allowedPorts d ∖ bt))
                        ProtocolUDP (allowedPorts d ∖ bu)).
Proof.
  intros Ht Hu. unfold Refresh, refresh. rewrite Ht, Hu. reflexivity.
Qed.

(** X8. When both probes succeed, [Refresh] returns no error, keeps the
    allowed ports and the pools of other protocols, and afterwards
    [IsPortBusy] answers for "tcp", for "udp" and for "tcp+udp" without a
    nil pool: a port is free for "tcp" (for "udp") exactly when it is
    allowed and not busy for that protocol, and free for "tcp+udp" exactly
    when it is allowed and busy for neither. *)
Theorem refresh_rebuilds_pools conns d (bt bu : PortSet) :
  ListBusyPorts conns ProtocolTCP = inr bt ->
  ListBusyPorts conns ProtocolUDP = inr bu ->
  exists d',
    Refresh conns d = (None, d')
    /\ allowedPorts d' = allowedPorts d
    /\ (forall p, p <> ProtocolTCP -> p <> ProtocolUDP ->
          GetPortsPool d' p = GetPortsPool d p)
    /\ forall port,
         IsPortBusy d' ProtocolTCP port
         = inr (negb (bool_decide (port ∈ allowedPorts d ∖ bt)))
         /\ IsPortBusy d' ProtocolUDP port
            = inr (negb (bool_decide (port ∈ allowedPorts d ∖ bu)))
         /\ IsPortBusy d' ProtocolTCPUDP port
            = inr (negb (bool_decide (port ∈ allowedPorts d ∖ (bt ∪ bu)))).
Proof.
  intros Ht Hu. eexists. split; [exact (Refresh_ok conns d bt bu Ht Hu)|].
  split; [reflexivity|]. split.
  - intros p HpT HpU. unfold GetPortsPool, SetPortsPool. cbn [portsPools].
    rewrite !lookup_insert_ne by congruence. reflexivity.
  - intros port. unfold IsPortBusy, getPool, GetPortsPool, SetPortsPool.
    cbn [portsPools allowedPorts].
    change (String.eqb ProtocolTCP ProtocolTCPUDP) with false.
    change (String.eqb ProtocolUDP ProtocolTCPUDP) with false.
    change (String.eqb ProtocolTCPUDP ProtocolTCPUDP) with true.
    cbv iota.
    rewrite lookup_insert_eq, lookup_insert_ne, lookup_insert_eq by discriminate.
    split; [reflexivity|]. split; [reflexivity|].
    do 2 f_equal. apply bool_decide_ext. set_solver.
Qed.

Lemma refresh_rebuilds_pools_witness :
  exists d',
    Refresh quietProbe (snd afterTCP) = (None, d')
    /\ allowedPorts d' = allowedPorts (snd afterTCP)
    /\ IsPortBusy d' ProtocolTCP 45 = inr false.
Proof.
  destruct (refresh_rebuilds_pools quietProbe (snd afterTCP) ∅ ∅ eq_refl eq_refl)
    as (d' & HR & Ha & _ & Hbusy).
  exists d'. split; [exact HR|]. split; [exact Ha|].
  rewrite (proj1 (Hbusy 45)). vm_compute. reflexivity.
Defined.

(** X9. [Refresh] is not all-or-nothing.  When the probe of "tcp" fails,
    its error is returned and the distributor is as it was; when the probe
    of "tcp" succeeds and the probe of "udp" fails, the error of the latter
    is returned, the "tcp" pool has been rebuilt and the "udp" pool is as
    it was. *)
Theorem refresh_error conns d :
  (forall err, conns ProtocolTCP = inl err -> Refresh conns d = (Some err, d))
  /\ (forall err (bt : PortSet),
        ListBusyPorts conns ProtocolTCP = inr bt ->
        conns ProtocolUDP = inl err ->
        exists d',
          Refresh conns d = (Some err, d')
          /\ GetPortsPool d' ProtocolTCP = Some (allowedPorts d ∖ bt)
          /\ GetPortsPool d' ProtocolUDP = GetPortsPool d ProtocolUDP).
Proof.
  split.
  - intros err H. unfold Refresh, refresh, ListBusyPorts. rewrite H. reflexivity.
  - intros err bt Ht Hu. unfold Refresh, refresh. rewrite Ht.
    unfold ListBusyPorts at 1. rewrite Hu.
    eexists. split; [reflexivity|].
    unfold GetPortsPool, SetPortsPool. cbn [portsPools].
    rewrite lookup_insert_eq, lookup_insert_ne by discriminate. auto.
Qed.

(** The ports later calls of [GetRandomPort] return for a protocol with the
    sub-protocol [p] come from the pool of [p], when it is there. *)
Lemma callPorts_from_pool calls :
  forall d p (s : PortSet),
    Forall callPicksOk calls -> Forall isGetRandomPort calls ->
    GetPortsPool d p = Some s ->
    Forall (fun r => p ∈ subProtocolsOf (fst r) -> snd r ∈ s) (fst (callPorts calls d)).
Proof.
  induction calls as [|c calls IH]; intros d p s Hok Hget Hs; simpl; [constructor|].
  inversion Hok as [|? ? Hc Hrest]; subst. inversion Hget as [|? ? Hg Hgrest]; subst.
  destruct c as [conns|conns pick protocol]; [destruct Hg|].
  destruct (GetRandomPort conns pick d protocol) as [[e|port] dA] eqn:HG.
  - destruct (GetRandomPort_shrinks _ _ _ _ _ _ HG) as (_ & _ & Hshr).
    destruct (Hshr p s Hs) as (s' & Hs' & Hsub).
    eapply Forall_impl; [exact (IH dA p s' Hrest Hgrest Hs')|].
    intros r Hr Hin. specialize (Hr Hin). set_solver.
  - destruct (GetRandomPort_shrinks _ _ _ _ _ _ HG) as (_ & _ & Hshr).
    destruct (Hshr p s Hs) as (s' & Hs' & Hsub).
    pose proof (IH dA p s' Hrest Hgrest Hs') as Hlater.
    destruct (callPorts calls dA) as [ps dB]. simpl in *.
    constructor.
    + simpl. intros Hin.
      exact (proj1 (proj2 (GetRandomPort_returned _ _ _ _ _ _ Hc HG p Hin)) s Hs).
    + eapply Forall_impl; [exact Hlater|].
      intros r Hr Hin. specialize (Hr Hin). set_solver.
Qed.

(** X10. Between refreshes no port is handed out twice to protocols that
    share a sub-protocol: along any sequence of calls of [GetRandomPort],
    from any distributor, two returned ports are different whenever the
    protocols asked for are the same, or one of them is "tcp+udp" and the
    other "tcp", "udp" or "tcp+udp". *)
Theorem no_port_twice (calls : list PortCall) (d : PortDistributor) :
  Forall callPicksOk calls -> Forall isGetRandomPort calls ->
  ForallOrdPairs (fun a b => shareSubProtocol (fst a) (fst b) -> snd a <> snd b)
                 (fst (callPorts calls d)).
Proof.
  revert d. induction calls as [|c calls IH]; intros d Hok Hget; simpl; [constructor|].
  inversion Hok as [|? ? Hc Hrest]; subst. inversion Hget as [|? ? Hg Hgrest]; subst.
  destruct c as [conns|conns pick protocol]; [destruct Hg|].
  destruct (GetRandomPort conns pick d protocol) as [[e|port] dA] eqn:HG.
  - apply IH; assumption.
  - pose proof (IH dA Hrest Hgrest) as Hlater.
    assert (Hfresh : Forall (fun r => shareSubProtocol protocol (fst r) -> port <> snd r)
                            (fst (callPorts calls dA))).
    { apply List.Forall_forall. intros r Hr (p & Hp1 & Hp2).
      destruct (proj1 (GetRandomPort_returned _ _ _ _ _ _ Hc HG p Hp1)) as (s' & Hs' & Hnot).
      pose proof (callPorts_from_pool calls dA p s' Hrest Hgrest Hs') as Hall.
      rewrite List.Forall_forall in Hall. specialize (Hall r Hr Hp2).
      intros ->. exact (Hnot Hall). }
    destruct (callPorts calls dA) as [ps dB]. simpl in *.
    constructor; assumption.
Qed.

Lemma no_port_twice_witness :
  ForallOrdPairs (fun a b => shareSubProtocol (fst a) (fst b) -> snd a <> snd b)
    (fst (callPorts [CallGetRandomPort quietProbe pick_first ProtocolTCP;
                     CallGetRandomPort quietProbe pick_first ProtocolTCPUDP;
                     CallGetRandomPort quietProbe pick_first ProtocolUDP]
                    twoPools)).
Proof.
  apply no_port_twice; repeat constructor; exact pick_first_ok.
Defined.

(** X11. The pools do not remember what was handed out.  A port returned
    by [GetRandomPort] for "tcp", "udp" or "tcp+udp" is busy for that
    protocol right after the call; after a [Refresh] during which the
    operating system does not list the port for "tcp" nor for "udp", it is
    free again. *)
Theorem refresh_forgets_allocations conns pick d protocol port dA conns'
  (bt bu : PortSet) :
  pop_ok pick ->
  poolsWithinAllowed d ->
  protocol = ProtocolTCP \/ protocol = ProtocolUDP \/ protocol = ProtocolTCPUDP ->
  GetRandomPort conns pick d protocol = (inr port, dA) ->
  ListBusyPorts conns' ProtocolTCP = inr bt ->
  ListBusyPorts conns' ProtocolUDP = inr bu ->
  port ∉ bt -> port ∉ bu ->
  IsPortBusy dA protocol port = inr true
  /\ IsPortBusy (snd (Refresh conns' dA)) protocol port = inr false.
Proof.
  intros Hpick Hd Hproto HG Ht Hu Hnt Hnu.
  assert (Hsub : hd protocol (subProtocolsOf protocol) ∈ subProtocolsOf protocol).
  { unfold subProtocolsOf. destruct (String.eqb _ _); left. }
  pose proof (proj2 (proj2 (GetRandomPort_returned _ _ _ _ _ _ Hpick HG _ Hsub)) Hd)
    as Hallowed.
  destruct (GetRandomPort_shrinks _ _ _ _ _ _ HG) as (Ha & _ & _).
  split.
  - unfold IsPortBusy, getPool.
    destruct Hproto as [-> | [-> | ->]].
    + change (String.eqb ProtocolTCP ProtocolTCPUDP) with false. cbv iota.
      destruct (proj1 (GetRandomPort_returned _ _ _ _ _ _ Hpick HG ProtocolTCP
                         ltac:(left))) as (s' & Hs' & Hnot).
      rewrite Hs'. rewrite bool_decide_eq_false_2 by exact Hnot. reflexivity.
    + change (String.eqb ProtocolUDP ProtocolTCPUDP) with false. cbv iota.
      destruct (proj1 (GetRandomPort_returned _ _ _ _ _ _ Hpick HG ProtocolUDP
                         ltac:(left))) as (s' & Hs' & Hnot).
      rewrite Hs'. rewrite bool_decide_eq_false_2 by exact Hnot. reflexivity.
    + change (String.eqb ProtocolTCPUDP ProtocolTCPUDP) with true. cbv iota.
      destruct (proj1 (GetRandomPort_returned _ _ _ _ _ _ Hpick HG ProtocolTCP
                         ltac:(left))) as (t' & Ht' & Hnot).
      destruct (proj1 (GetRandomPort_returned _ _ _ _ _ _ Hpick HG ProtocolUDP
                         ltac:(right; left))) as (u' & Hu' & _).
      rewrite Ht', Hu'. rewrite bool_decide_eq_false_2 by set_solver. reflexivity.
  - rewrite (Refresh_ok conns' dA bt bu Ht Hu). cbn [snd].
    unfold IsPortBusy, getPool, GetPortsPool, SetPortsPool. cbn [portsPools].
    rewrite Ha.
    destruct Hproto as [-> | [-> | ->]].
    + change (String.eqb ProtocolTCP ProtocolTCPUDP) with false. cbv iota.
      rewrite lookup_insert_ne, lookup_insert_eq by discriminate.
      rewrite bool_decide_eq_true_2 by set_solver. reflexivity.
    + change (String.eqb ProtocolUDP ProtocolTCPUDP) with false. cbv iota.
      rewrite lookup_insert_eq.
      rewrite bool_decide_eq_true_2 by set_solver. reflexivity.
    + change (String.eqb ProtocolTCPUDP ProtocolTCPUDP) with true. cbv iota.
      rewrite lookup_insert_eq, lookup_insert_ne, lookup_insert_eq by discriminate.
      rewrite bool_decide_eq_true_2 by set_solver. reflexivity.
Qed.

Lemma twoPools_within : poolsWithinAllowed twoPools.
Proof.
  intros p s. unfold GetPortsPool, twoPools, NewPortDistributorForTests.
  cbn [portsPools allowedPorts].
  destruct (decide (p = ProtocolTCP)) as [->|HneT].
  - rewrite lookup_insert_eq. intros [= <-]. set_solver.
  - rewrite lookup_insert_ne by congruence.
    destruct (decide (p = ProtocolUDP)) as [->|HneU].
    + rewrite lookup_insert_eq. intros [= <-]. set_solver.
    + rewrite lookup_insert_ne by congruence. rewrite lookup_empty. discriminate.
Qed.

Lemma refresh_forgets_allocations_witness :
  exists port,
    fst afterTCP = inr port
    /\ IsPortBusy (snd afterTCP) ProtocolTCP port = inr true
    /\ IsPortBusy (snd (Refresh quietProbe (snd afterTCP))) ProtocolTCP port = inr false.
Proof.
  destruct afterTCP_returns as (port & Hport). exists port. split; [exact Hport|].
  apply (refresh_forgets_allocations quietProbe pick_first twoPools ProtocolTCP port
           (snd afterTCP) quietProbe ∅ ∅).
  - exact pick_first_ok.
  - exact twoPools_within.
  - left; reflexivity.
  - fold afterTCP. rewrite <- Hport. apply surjective_pairing.
  - reflexivity.
  - reflexivity.
  - apply not_elem_of_empty.
  - apply not_elem_of_empty.
Defined.

(** [GetRandomPort] for a protocol whose pool is there, [getPool] being the
    intersection for "tcp+udp": [Pop] decides, and the port it takes is
    out of the pool of the protocol afterwards. *)
Lemma GetRandomPort_present conns pick d protocol (pool : PortSet) :
  getPool d protocol = Some pool ->
  match pick pool with
  | None => GetRandomPort conns pick d protocol = (inl NoPortsAvailable, d)
  | Some port =>
      exists d', GetRandomPort conns pick d protocol = (inr port, d')
                 /\ getPool d' protocol = Some (pool ∖ {[port]})
  end.
Proof.
  unfold getPool. destruct (String.eqb protocol ProtocolTCPUDP) eqn:Hp.
  - apply String.eqb_eq in Hp. subst protocol.
    destruct (GetPortsPool d ProtocolTCP) as [t|] eqn:Ht; [|discriminate].
    destruct (GetPortsPool d ProtocolUDP) as [u|] eqn:Hu; [|discriminate].
    intros [= <-]. rewrite (GetRandomPort_tcpudp conns pick d t u Ht Hu).
    destruct (pick (t ∩ u)) as [port|]; [|reflexivity].
    eexists. split; [reflexivity|].
    unfold GetPortsPool, SetPortsPool. cbn [portsPools].
    rewrite lookup_insert_ne by discriminate. rewrite !lookup_insert_eq.
    f_equal. apply leibniz_equiv. intros x.
    rewrite !elem_of_intersection, !elem_of_difference, elem_of_intersection. tauto.
  - intros Hs. apply String.eqb_neq in Hp.
    rewrite (GetRandomPort_plain conns pick d protocol pool Hp Hs).
    destruct (pick pool) as [port|]; [|reflexivity].
    eexists. split; [reflexivity|].
    unfold GetPortsPool, SetPortsPool. cbn [portsPools].
    rewrite lookup_insert_eq. reflexivity.
Qed.

(** X29. A pool hands out each of its ports once and then runs dry.  Along
    calls of [GetRandomPort] for one protocol ("tcp+udp" included, its pool
    being the intersection), starting with the pool there and whatever
    element [Pop] takes: as many calls return a port as there are calls,
    up to the size of the pool; the ports returned are distinct elements of
    the pool and are the ones missing from it afterwards; with at least as
    many calls as ports, every port of the pool has been handed out. *)
Theorem pool_serves_each_port_once (protocol : string) (calls : list PortCall) :
  forall (d : PortDistributor) (pool : PortSet) ports d',
    Forall (fun c => asksFor protocol c /\ callPicksOk c) calls ->
    getPool d protocol = Some pool ->
    callPorts calls d = (ports, d') ->
    length ports = Nat.min (length calls) (size pool)
    /\ Forall (fun r => fst r = protocol /\ snd r ∈ pool) ports
    /\ NoDup (map snd ports)
    /\ getPool d' protocol = Some (pool ∖ list_to_set (map snd ports))
    /\ ((size pool <= length calls)%nat -> list_to_set (map snd ports) = pool).
Proof.
  induction calls as [|c calls IH]; intros d pool ports d' Hall Hpool Hrun.
  - cbn in Hrun. injection Hrun as <- <-. cbn.
    split; [reflexivity|]. split; [constructor|]. split; [constructor|].
    split; [rewrite Hpool; f_equal; set_solver|].
    intros Hz. symmetry. apply leibniz_equiv, size_empty_iff. cbn in Hz. lia.
  - inversion Hall as [|? ? [Hask Hok] Hrest]; subst.
    destruct c as [conns|conns pick p]; [destruct Hask|].
    cbn in Hask. subst p. cbn [callPicksOk] in Hok.
    cbn [callPorts] in Hrun.
    pose proof (GetRandomPort_present conns pick d protocol pool Hpool) as Hstep.
    pose proof (Hok pool) as Hpick.
    destruct (pick pool) as [port|].
    + destruct Hstep as (d1 & Hg & Hpool1). rewrite Hg in Hrun.
      destruct (callPorts calls d1) as [ports1 d2] eqn:Hrun1.
      injection Hrun as <- <-.
      destruct (IH d1 _ ports1 d2 Hrest Hpool1 Hrun1) as (Hlen & Hin & Hnd & Hp' & Hfull).
      assert (Hsize : size pool = S (size (pool ∖ {[port]}))).
      { rewrite size_difference by set_solver. rewrite size_singleton.
        assert (size pool <> 0)%nat; [|lia].
        intros Hz. apply size_empty_iff in Hz. set_solver. }
      cbn [length map fst snd]. split; [rewrite Hlen, Hsize; lia|].
      split.
      { constructor; [split; [reflexivity|exact Hpick]|].
        eapply List.Forall_impl; [|exact Hin]. cbn. intros r [? ?]. split; [assumption|set_solver]. }
      split.
      { constructor; [|exact Hnd]. intros Hport.
        apply list_elem_of_In, in_map_iff in Hport as (r & Hr & Hrin).
        rewrite List.Forall_forall in Hin.
        destruct (Hin r Hrin) as [_ Hr']. rewrite Hr in Hr'.
        apply elem_of_difference in Hr' as [_ Hr']. apply Hr', elem_of_singleton. reflexivity. }
      split.
      { rewrite Hp'. f_equal. cbn [list_to_set]. set_solver. }
      intros Hle. cbn [list_to_set]. rewrite Hfull by lia.
      apply leibniz_equiv. intros x. rewrite elem_of_union, elem_of_difference, elem_of_singleton.
      destruct (decide (x = port)) as [->|]; [tauto|]. tauto.
    + rewrite Hstep in Hrun. subst pool.
      destruct (IH d ∅ ports d' Hrest Hpool Hrun) as (Hlen & Hin & Hnd & Hp' & Hfull).
      rewrite size_empty in *. split; [rewrite Hlen; cbn [length]; lia|].
      split; [exact Hin|]. split; [exact Hnd|]. split; [exact Hp'|].
      intros _. apply Hfull. lia.
Qed.

Lemma pool_serves_each_port_once_witness :
  let calls := [CallGetRandomPort quietProbe pick_first ProtocolTCPUDP;
                CallGetRandomPort quietProbe pick_first ProtocolTCPUDP] in
  let pool : PortSet := {[45; 46]} ∩ {[46; 47]} in
  getPool twoPools ProtocolTCPUDP = Some pool
  /\ length (fst (callPorts calls twoPools)) = Nat.min (length calls) (size pool)
  /\ list_to_set (map snd (fst (callPorts calls twoPools))) = pool.
Proof.
  intros calls pool.
  assert (Hpool : getPool twoPools ProtocolTCPUDP = Some pool) by reflexivity.
  split; [exact Hpool|].
  destruct (callPorts calls twoPools) as [ports d'] eqn:Hrun.
  assert (Hcalls : Forall (fun c => asksFor ProtocolTCPUDP c /\ callPicksOk c) calls)
    by (repeat constructor; exact pick_first_ok).
  destruct (pool_serves_each_port_once ProtocolTCPUDP calls twoPools pool ports d'
              Hcalls Hpool Hrun) as (Hlen & _ & _ & _ & Hfull).
  split; [exact Hlen|]. apply Hfull. vm_compute. lia.
Defined.

End Ports.

(* ===================================================================== *)
(** * The client session and its tunnel ids (ClientSession) *)
(* ===================================================================== *)

Module Session.
Import GoInt.

Section ClientSession.

(** The remote of a tunnel, its ACL, and the comparison [Tunnel.Equals] are
    declared in files that are not among the sources. *)
Variable Remote : Type.
Variable ACL : Type.

Record Tunnel := mkTunnel {
  tun_ID : string;
  tun_Remote : Remote;
  tun_ACL : ACL
}.

Variable Equals : Tunnel -> Remote -> bool.

(** The fields of the session the tunnel operations read and write. *)
Record ClientSession := mkClientSession {
  Tunnels : list Tunnel;
  tunnelIDAutoIncrement : Z
}.

(** A session as the handshake creates it: no tunnel, the counter at Go's
    zero value. *)
Definition newSession : ClientSession :=
  {| Tunnels := []; tunnelIDAutoIncrement := 0 |}.

Definition findTunnelByRemote (c : ClientSession) (r : Remote) : option Tunnel :=
  List.find (fun curr => Equals curr r) (Tunnels c).

(** [atomic.AddInt64(&c.tunnelIDAutoIncrement, 1)]: the new value. *)
Definition generateNewTunnelID (c : ClientSession) : Z * ClientSession :=
  let n := wrap_int (tunnelIDAutoIncrement c + 1) in
  (n, {| Tunnels := Tunnels c; tunnelIDAutoIncrement := n |}).

Definition NewTunnel (id : string) (r : Remote) (acl : ACL) : Tunnel :=
  {| tun_ID := id; tun_Remote := r; tun_ACL := acl |}.

(** [StartTunnel].  [startErr] is the error of [t.Start], if any: the id is
    taken before the tunnel is started, and is spent when the start fails. *)
Definition StartTunnel (startErr : option string) (c : ClientSession)
  (r : Remote) (acl : ACL) : (string + Tunnel) * ClientSession :=
  match findTunnelByRemote c r with
  | Some t => (inr t, c)
  | None =>
      let '(n, cA) := generateNewTunnelID c in
      let t := NewTunnel (FormatInt n) r acl in
      match startErr with
      | Some err => (inl err, cA)
      | None => (inr t, {| Tunnels := Tunnels cA ++ [t];
                           tunnelIDAutoIncrement := tunnelIDAutoIncrement cA |})
      end
  end.

Definition removeTunnel (c : ClientSession) (t : Tunnel) : ClientSession :=
  {| Tunnels := List.filter (fun curr => negb (String.eqb (tun_ID curr) (tun_ID t)))
                            (Tunnels c);
     tunnelIDAutoIncrement := tunnelIDAutoIncrement c |}.

Definition TerminateTunnel (c : ClientSession) (t : Tunnel) : ClientSession :=
  removeTunnel c t.

Definition FindTunnel (c : ClientSession) (id : string) : option Tunnel :=
  List.find (fun curr => String.eqb (tun_ID curr) id) (Tunnels c).

(** The calls that change the tunnels of a session. *)
Inductive Call :=
| CallStartTunnel (r : Remote) (acl : ACL) (startErr : option string)
| CallTerminateTunnel (t : Tunnel).

(** The history of a session: the tunnels its calls created, oldest first,
    each with the number its id was formatted from. *)
Definition History := list (Z * Tunnel).

(** The tunnel a call of [StartTunnel] creates, with its number: none when
    the remote already has a tunnel or the start fails. *)
Definition created (startErr : option string) (c : ClientSession)
  (r : Remote) (acl : ACL) : History :=
  match findTunnelByRemote c r, startErr with
  | None, None =>
      let n := fst (generateNewTunnelID c) in [(n, NewTunnel (FormatInt n) r acl)]
  | _, _ => []
  end.

Definition step (st : History * ClientSession) (call : Call) : History * ClientSession :=
  let '(h, c) := st in
  match call with
  | CallStartTunnel r acl startErr =>
      (h ++ created startErr c r acl, snd (StartTunnel startErr c r acl))
  | CallTerminateTunnel t => (h, TerminateTunnel c t)
  end.

Definition run (calls : list Call) (st : History * ClientSession)
  : History * ClientSession :=
  fold_left step calls st.

(** What holds of a history and a session along every run. *)
Definition consistent (st : History * ClientSession) : Prop :=
  let '(h, c) := st in
  0 <= tunnelIDAutoIncrement c
  /\ StronglySorted Z.lt (map fst h)
  /\ Forall (fun e => 0 < fst e <= tunnelIDAutoIncrement c
                      /\ tun_ID (snd e) = FormatInt (fst e)) h
  /\ sublist (Tunnels c) (map snd h).

End ClientSession.

Arguments mkTunnel {Remote ACL} _ _ _.
Arguments tun_ID {Remote ACL} _.
Arguments tun_Remote {Remote ACL} _.
Arguments tun_ACL {Remote ACL} _.
Arguments mkClientSession {Remote ACL} _ _.
Arguments Tunnels {Remote ACL} _.
Arguments tunnelIDAutoIncrement {Remote ACL} _.
Arguments newSession {Remote ACL}.
Arguments findTunnelByRemote {Remote ACL} _ _ _.
Arguments generateNewTunnelID {Remote ACL} _.
Arguments NewTunnel {Remote ACL} _ _ _.
Arguments StartTunnel {Remote ACL} _ _ _ _ _.
Arguments removeTunnel {Remote ACL} _ _.
Arguments TerminateTunnel {Remote ACL} _ _.
Arguments FindTunnel {Remote ACL} _ _.
Arguments CallStartTunnel {Remote ACL} _ _ _.
Arguments CallTerminateTunnel {Remote ACL} _.
Arguments created {Remote ACL} _ _ _ _ _.
Arguments step {Remote ACL} _ _ _.
Arguments run {Remote ACL} _ _ _.
Arguments consistent {Remote ACL} _.

(** A run with remotes named by strings, two of which are started, the
    first terminated, and a third started afterwards. *)
Definition exampleCalls : list (Call string unit) :=
  [ CallStartTunnel "0.0.0.0:2222:127.0.0.1:22" tt None;
    CallStartTunnel "0.0.0.0:3390:127.0.0.1:3389" tt None;
    CallTerminateTunnel (mkTunnel "1" "0.0.0.0:2222:127.0.0.1:22" tt);
    CallStartTunnel "0.0.0.0:8080:127.0.0.1:80" tt (Some "listen failed");
    CallStartTunnel "0.0.0.0:2222:127.0.0.1:22" tt None ].

Definition exampleEquals (t : Tunnel string unit) (r : string) : bool :=
  String.eqb (tun_Remote t) r.

(** ** Properties *)

Section ClientSessionFacts.

Variable Remote : Type.
Variable ACL : Type.
Variable Equals : Tunnel Remote ACL -> Remote -> bool.

Lemma sorted_snoc (l : list Z) (x : Z) :
  StronglySorted Z.lt l -> Forall (fun y => y < x) l -> StronglySorted Z.lt (l ++ [x]).
Proof.
  induction 1 as [|y l Hs IH Hy]; intros Hall; simpl.
  - repeat constructor.
  - inversion Hall; subst. constructor; [auto|].
    apply Forall_app; split; [assumption | repeat constructor; assumption].
Qed.

Lemma filter_sublist {A} (f : A -> bool) (l : list A) : sublist (List.filter f l) l.
Proof.
  induction l as [|x l IH]; simpl; [constructor|].
  destruct (f x); [apply sublist_skip | apply sublist_cons]; exact IH.
Qed.

Lemma consistent_step (st : History Remote ACL * ClientSession Remote ACL) call :
  consistent st ->
  tunnelIDAutoIncrement (snd st) < 2 ^ 63 - 1 ->
  consistent (step Equals st call)
  /\ tunnelIDAutoIncrement (snd (step Equals st call))
     <= tunnelIDAutoIncrement (snd st) + 1.
Proof.
  destruct st as [h c]. intros (H0 & Hs & Hall & Hsub) Hlt. simpl in Hlt.
  destruct call as [r acl startErr | t]; simpl.
  - unfold created, StartTunnel.
    destruct (findTunnelByRemote Equals c r) as [t|]; simpl.
    { rewrite app_nil_r. split; [repeat split; assumption | lia]. }
    rewrite (wrap_int_small (tunnelIDAutoIncrement c + 1)) by lia.
    assert (Hall' : Forall (fun e => 0 < fst e <= tunnelIDAutoIncrement c + 1
                                     /\ tun_ID (snd e) = FormatInt (fst e)) h).
    { eapply Forall_impl; [exact Hall|]. simpl. intros e [He1 He2]. split; [lia|exact He2]. }
    destruct startErr as [err|]; simpl.
    + rewrite app_nil_r. split; [|lia]. repeat split; try assumption; lia.
    + split; [|lia]. split; [lia|]. split; [|split].
      * rewrite map_app. simpl. apply sorted_snoc; [assumption|].
        apply List.Forall_forall. intros y Hy. apply in_map_iff in Hy as (e & <- & He).
        rewrite List.Forall_forall in Hall. destruct (Hall e He) as [? _]. lia.
      * apply Forall_app; split; [assumption|].
        repeat constructor; simpl; lia.
      * rewrite map_app. simpl. apply sublist_app; [assumption | reflexivity].
  - split; [|lia]. repeat split; try assumption.
    etransitivity; [apply filter_sublist | exact Hsub].
Qed.

Lemma consistent_run calls :
  forall st : History Remote ACL * ClientSession Remote ACL,
    consistent st ->
    tunnelIDAutoIncrement (snd st) + Z.of_nat (length calls) < 2 ^ 63 ->
    consistent (run Equals calls st).
Proof.
  induction calls as [|call calls IH]; intros st Hc Hlen; simpl; [assumption|].
  simpl length in Hlen. rewrite Nat2Z.inj_succ in Hlen.
  destruct (consistent_step st call Hc ltac:(lia)) as [Hc' Hle].
  apply IH; [assumption | lia].
Qed.


End ClientSessionFacts.

Example exampleCalls_ids :
  map (fun e => tun_ID (snd e))
      (fst (run exampleEquals exampleCalls ([], newSession)))
  = ["1"; "2"; "4"]
  /\ map tun_ID (Tunnels (snd (run exampleEquals exampleCalls ([], newSession))))
     = ["2"; "4"].
Proof. split; vm_compute; reflexivity. Qed.


(** ** Finding, terminating and restarting tunnels *)

Section ClientSessionCalls.

Variable Remote : Type.
Variable ACL : Type.
Variable Equals : Tunnel Remote ACL -> Remote -> bool.

Lemma find_by_id_unique (l : list (Tunnel Remote ACL)) (t : Tunnel Remote ACL) :
  NoDup (map tun_ID l) -> In t l ->
  List.find (fun curr => String.eqb (tun_ID curr) (tun_ID t)) l = Some t.
Proof.
  induction l as [|x l IH]; intros Hnd Hin; [destruct Hin|].
  simpl in Hnd. inversion Hnd as [|? ? Hx Hnd']; subst. simpl.
  destruct Hin as [->|Hin]; [rewrite String.eqb_refl; reflexivity|].
  destruct (String.eqb_spec (tun_ID x) (tun_ID t)) as [E|_]; [|exact (IH Hnd' Hin)].
  exfalso. apply Hx. rewrite E. apply list_elem_of_In, in_map. exact Hin.
Qed.

Lemma run_consistent (calls : list (Call Remote ACL)) :
  Z.of_nat (length calls) < 2 ^ 63 ->
  consistent (run Equals calls ([], newSession)).
Proof.
  intros Hlen. apply consistent_run; [|simpl; lia].
  simpl. repeat split; try constructor; lia.
Qed.

(** In a consistent state the ids of the tunnels of the session are
    distinct, and each is the decimal form of a number from 1 to the
    counter. *)
Lemma consistent_ids (h : History Remote ACL) (c : ClientSession Remote ACL) :
  consistent (h, c) ->
  NoDup (map tun_ID (Tunnels c))
  /\ Forall (fun t => exists n, 0 < n <= tunnelIDAutoIncrement c
                                /\ tun_ID t = FormatInt n) (Tunnels c).
Proof.
  intros (H0 & Hs & Hall & Hsub).
  assert (Hids : NoDup (map (fun e => tun_ID (snd e)) h)).
  { clear Hsub. induction h as [|e h IH]; simpl; [constructor|].
    inversion Hs as [|? ? Hs' Hlt]; subst. inversion Hall as [|? ? [_ He] Hall']; subst.
    constructor; [|auto].
    intros Hin. apply list_elem_of_In, in_map_iff in Hin as (e' & Heq & He').
    rewrite List.Forall_forall in Hall'. destruct (Hall' e' He') as [_ He'id].
    rewrite He, He'id in Heq. apply FormatInt_inj in Heq.
    rewrite List.Forall_forall in Hlt. specialize (Hlt (fst e') (in_map fst _ _ He')). lia. }
  split.
  - apply (sublist_NoDup _ (map tun_ID (map snd h))).
    + rewrite map_map. exact Hids.
    + apply (fmap_sublist tun_ID). exact Hsub.
  - apply List.Forall_forall. intros t Ht.
    assert (Hin : In t (map snd h)).
    { apply list_elem_of_In. eapply elem_of_sublist; [|exact Hsub].
      apply list_elem_of_In. exact Ht. }
    apply in_map_iff in Hin as (e & <- & He).
    rewrite List.Forall_forall in Hall. destruct (Hall e He) as [Hn Hid].
    exists (fst e). split; assumption.
Qed.

(** X15. Along any sequence of fewer than 2^63 calls on a new session,
    [FindTunnel] finds a tunnel by its id exactly when the session has it:
    every tunnel of the session is the one found under its id, and a
    tunnel found under an id belongs to the session and has that id. *)
Theorem find_tunnel_by_id (calls : list (Call Remote ACL)) :
  Z.of_nat (length calls) < 2 ^ 63 ->
  let c := snd (run Equals calls ([], newSession)) in
  forall id t,
    FindTunnel c id = Some t <-> In t (Tunnels c) /\ tun_ID t = id.
Proof.
  intros Hlen c id t.
  pose proof (run_consistent calls Hlen) as Hc.
  destruct (run Equals calls ([], newSession)) as [h c0] eqn:Hrun.
  subst c. cbn [snd].
  destruct (consistent_ids h c0 Hc) as [Hnd _].
  unfold FindTunnel. split.
  - intros Hfind. apply find_some in Hfind as [Hin Hid].
    apply String.eqb_eq in Hid. auto.
  - intros [Hin <-]. apply find_by_id_unique; assumption.
Qed.

(** X16. After [TerminateTunnel], in any session, no tunnel is found
    under the id of the terminated one; what is found under every other id
    is as before, the tunnels that are left are in their old order, and the
    id counter is not touched. *)
Theorem terminate_tunnel_removes (c : ClientSession Remote ACL) (t : Tunnel Remote ACL) :
  FindTunnel (TerminateTunnel c t) (tun_ID t) = None
  /\ (forall id, id <> tun_ID t -> FindTunnel (TerminateTunnel c t) id = FindTunnel c id)
  /\ tunnelIDAutoIncrement (TerminateTunnel c t) = tunnelIDAutoIncrement c
  /\ sublist (Tunnels (TerminateTunnel c t)) (Tunnels c).
Proof.
  unfold FindTunnel, TerminateTunnel, removeTunnel. cbn [Tunnels tunnelIDAutoIncrement].
  split; [|split; [|split; [reflexivity|apply filter_sublist]]].
  - induction (Tunnels c) as [|x l IH]; simpl; [reflexivity|].
    destruct (String.eqb_spec (tun_ID x) (tun_ID t)) as [E|E]; simpl; [exact IH|].
    destruct (String.eqb_spec (tun_ID x) (tun_ID t)); [contradiction|exact IH].
  - intros id Hne. induction (Tunnels c) as [|x l IH]; simpl; [reflexivity|].
    destruct (String.eqb_spec (tun_ID x) (tun_ID t)) as [E|E]; simpl.
    + destruct (String.eqb_spec (tun_ID x) id) as [E'|_]; [congruence|exact IH].
    + destruct (String.eqb (tun_ID x) id); [reflexivity|exact IH].
Qed.

Lemma run_counter (calls : list (Call Remote ACL)) :
  forall st : History Remote ACL * ClientSession Remote ACL,
    tunnelIDAutoIncrement (snd st) + Z.of_nat (length calls) < 2 ^ 63 ->
    consistent st ->
    tunnelIDAutoIncrement (snd (run Equals calls st))
    <= tunnelIDAutoIncrement (snd st) + Z.of_nat (length calls).
Proof.
  induction calls as [|call calls IH]; intros st Hlen Hst; simpl; [lia|].
  simpl length in Hlen. rewrite Nat2Z.inj_succ in *.
  destruct (consistent_step Remote ACL Equals st call Hst ltac:(lia)) as [Hst' Hle].
  set (st' := step Equals st call) in *.
  assert (Hlen' : tunnelIDAutoIncrement (snd st') + Z.of_nat (length calls) < 2 ^ 63) by lia.
  specialize (IH st' Hlen' Hst'). fold (run Equals calls st'). lia.
Qed.

(** X17. Starting a tunnel and terminating it gives the tunnels back but
    not the id: after any sequence of fewer than 2^63 - 1 calls on a new
    session, when a remote that has no tunnel is started and the tunnel
    terminated again, the tunnels of the session are what they were, the
    counter is one more, and the id the tunnel had is the decimal form of
    that counter. *)
Theorem start_then_terminate (calls : list (Call Remote ACL)) (r : Remote) (acl : ACL)
  (t : Tunnel Remote ACL) :
  Z.of_nat (length calls) + 1 < 2 ^ 63 ->
  let c := snd (run Equals calls ([], newSession)) in
  findTunnelByRemote Equals c r = None ->
  fst (StartTunnel Equals None c r acl) = inr t ->
  let c' := TerminateTunnel (snd (StartTunnel Equals None c r acl)) t in
  Tunnels c' = Tunnels c
  /\ tunnelIDAutoIncrement c' = tunnelIDAutoIncrement c + 1
  /\ tun_ID t = FormatInt (tunnelIDAutoIncrement c + 1).
Proof.
  intros Hlen c Hnone Hstart c'.
  assert (Hc : consistent (run Equals calls ([], newSession))
               /\ tunnelIDAutoIncrement c <= Z.of_nat (length calls)).
  { split; [apply run_consistent; lia|].
    subst c. apply (run_counter calls ([], newSession)); [simpl; lia|].
    simpl. repeat split; try constructor; lia. }
  destruct Hc as [Hc Hle].
  destruct (run Equals calls ([], newSession)) as [h c0] eqn:Hrun.
  subst c. cbn [snd] in *.
  destruct (consistent_ids h c0 Hc) as [_ Hids].
  destruct Hc as (H0 & _).
  subst c'. unfold StartTunnel in *. rewrite Hnone in *.
  cbn [generateNewTunnelID fst snd] in *.
  rewrite (wrap_int_small (tunnelIDAutoIncrement c0 + 1)) in * by lia.
  cbn [fst snd] in Hstart. inversion Hstart; subst t; clear Hstart.
  unfold TerminateTunnel, removeTunnel. cbn [Tunnels tunnelIDAutoIncrement tun_ID NewTunnel].
  split; [|split; reflexivity].
  rewrite List.filter_app. cbn [List.filter tun_ID NewTunnel]. rewrite String.eqb_refl. cbn [negb].
  rewrite app_nil_r.
  induction Hids as [|x l (n & Hn & Hx) _ IH]; simpl; [reflexivity|].
  destruct (String.eqb_spec (tun_ID x) (FormatInt (tunnelIDAutoIncrement c0 + 1)))
    as [E|_]; simpl.
  - rewrite Hx in E. apply FormatInt_inj in E. lia.
  - f_equal. exact IH.
Qed.

(** X18. [StartTunnel] does not start a second tunnel to a remote: when
    the comparison [Equals] recognises a tunnel made for a remote, a call
    for that remote that returned a tunnel is followed by calls that return
    the same tunnel and leave the session as it is, whatever ACL they pass
    and whether or not a start would fail. *)
Theorem start_tunnel_reuses (c : ClientSession Remote ACL) (r : Remote) (acl : ACL)
  (t : Tunnel Remote ACL) (c1 : ClientSession Remote ACL) :
  (forall id acl0, Equals (NewTunnel id r acl0) r = true) ->
  StartTunnel Equals None c r acl = (inr t, c1) ->
  forall (startErr : option string) (acl' : ACL),
    StartTunnel Equals startErr c1 r acl' = (inr t, c1).
Proof.
  intros Heq Hstart startErr acl'. unfold StartTunnel in *.
  destruct (findTunnelByRemote Equals c r) as [t0|] eqn:Hfind.
  - inversion Hstart; subst. rewrite Hfind. reflexivity.
  - cbn [generateNewTunnelID] in Hstart. inversion Hstart; subst; clear Hstart.
    unfold findTunnelByRemote in *. cbn [Tunnels].
    assert (Hfirst : forall l, List.find (fun curr => Equals curr r) l = None ->
              forall x, Equals x r = true ->
              List.find (fun curr => Equals curr r) (l ++ [x]) = Some x).
    { induction l as [|y l IH]; simpl; intros Hl x Hx; [rewrite Hx; reflexivity|].
      destruct (Equals y r); [discriminate|]. exact (IH Hl x Hx). }
    rewrite (Hfirst _ Hfind _ (Heq _ _)). reflexivity.
Qed.

End ClientSessionCalls.

Lemma find_tunnel_by_id_witness :
  FindTunnel (snd (run exampleEquals exampleCalls ([], newSession))) "4"
  = Some (mkTunnel "4" "0.0.0.0:2222:127.0.0.1:22" tt).
Proof.
  apply (find_tunnel_by_id string unit exampleEquals exampleCalls).
  - vm_compute. reflexivity.
  - split; [right; left; reflexivity | reflexivity].
Defined.

Lemma start_then_terminate_witness :
  let c := snd (run exampleEquals exampleCalls ([], newSession)) in
  let t := mkTunnel "5" "0.0.0.0:8080:127.0.0.1:80" tt in
  let c' := TerminateTunnel
              (snd (StartTunnel exampleEquals None c "0.0.0.0:8080:127.0.0.1:80" tt)) t in
  Tunnels c' = Tunnels c
  /\ tunnelIDAutoIncrement c' = tunnelIDAutoIncrement c + 1
  /\ tun_ID t = FormatInt (tunnelIDAutoIncrement c + 1).
Proof.
  apply (start_then_terminate string unit exampleEquals exampleCalls
           "0.0.0.0:8080:127.0.0.1:80" tt).
  - vm_compute. reflexivity.
  - vm_compute. reflexivity.
  - vm_compute. reflexivity.
Defined.

Lemma start_tunnel_reuses_witness :
  let c1 := snd (StartTunnel exampleEquals None newSession "0.0.0.0:2222:127.0.0.1:22" tt) in
  StartTunnel exampleEquals (Some "listen failed") c1 "0.0.0.0:2222:127.0.0.1:22" tt
  = (inr (mkTunnel "1" "0.0.0.0:2222:127.0.0.1:22" tt), c1).
Proof.
  apply (start_tunnel_reuses string unit exampleEquals newSession
           "0.0.0.0:2222:127.0.0.1:22" tt).
  - intros id acl0. apply String.eqb_refl.
  - vm_compute. reflexivity.
Defined.

End Session.

(* ===================================================================== *)
(** * The job records (package models) *)
(* ===================================================================== *)

Module Models.

(** Modelled from the spec: the job statuses of package models, which is
    not among the sources; the specification names them running,
    successful, failed and unknown, and the status of a Go job is a
    string. *)
Definition JobStatusRunning : string := "running".
Definition JobStatusSuccessful : string := "successful".
Definition JobStatusFailed : string := "failed".
Definition JobStatusUnknown : string := "unknown".

(** The result of a command. *)
Record JobResult := mkJobResult {
  StdOut : string;
  StdErr : string
}.

(** A job, with the fields the dispatcher sets and the store orders by.
    Instants are integers (seconds since the epoch); the fields that are
    pointers in Go are options. *)
Record Job := mkJob {
  JID : string;
  Status : string;
  FinishedAt : option Z;
  ClientID : string;
  ClientName : string;
  MultiJobID : option string;
  Command : string;
  Interpreter : string;
  Cwd : string;
  IsSudo : bool;
  IsScript : bool;
  HasShebang : bool;
  CreatedBy : string;
  TimeoutSec : Z;
  PID : option Z;
  StartedAt : Z;
  Error : string;
  Result : option JobResult
}.

Record MultiJob := mkMultiJob {
  mj_JID : string;
  mj_StartedAt : Z;
  mj_CreatedBy : string;
  mj_ClientIDs : list string;
  mj_GroupIDs : list string;
  mj_Command : string;
  mj_Interpreter : string;
  mj_Cwd : string;
  mj_IsSudo : bool;
  mj_IsScript : bool;
  mj_HasShebang : bool;
  mj_TimeoutSec : Z;
  mj_Concurrent : bool;
  mj_AbortOnErr : bool
}.

End Models.

(* ===================================================================== *)
(** * The job store behind the JobProvider interface *)
(* ===================================================================== *)

Module Jobs.
Import Models.

(** Modelled from the spec: the SQLite provider of the job store is not
    among the sources (its interface, JobProvider, and its tests are).  The
    store holds at most one row per jid. *)
Abbreviation JobStore := (gmap string Job).

(** Modelled from the spec: [save_job] creates or updates the row of the
    job's jid, and returns no error. *)
Definition SaveJob (st : JobStore) (job : Job) : option string * JobStore :=
  (None, <[JID job := job]> st).

(** Modelled from the spec: [create_job] creates the row when the store has
    none with the job's jid, leaves the stored row intact otherwise, and
    returns no error either way (the comment of JobProvider.CreateJob: "If
    already exist with a given JID - do nothing and return nil"). *)
Definition CreateJob (st : JobStore) (job : Job) : option string * JobStore :=
  match st !! JID job with
  | Some _ => (None, st)
  | None => (None, <[JID job := job]> st)
  end.

(** Modelled from the spec: [get_by_jid(client_id, jid)], the row with that
    jid of that client, if any. *)
Definition GetByJID (st : JobStore) (clientID jid : string) : option Job :=
  match st !! jid with
  | Some job => if String.eqb (ClientID job) clientID then Some job else None
  | None => None
  end.



(** The order of strings in a query: byte-wise. *)
Definition string_ltb (a b : string) : bool :=
  match String.compare a b with Lt => true | _ => false end.

(** The order of nullable instants in a query: NULL is below every value. *)
Definition time_opt_ltb (a b : option Z) : bool :=
  match a, b with
  | None, None => false
  | None, Some _ => true
  | Some _, None => false
  | Some x, Some y => x <? y
  end.

(** Modelled from the spec: the order it states for [get_by_multi_job_id],
    in its words: finished_at descending, then started_at ascending, then
    jid ascending.  [specOrder_leb a b] holds when [a] may stand before
    [b].  The specification does not place a job without finished_at; it
    is compared as NULL above, and the jobs 3333 and 1111 the properties
    turn on both have a finish time. *)
Definition specOrder_leb (a b : Job) : bool :=
  if time_opt_ltb (FinishedAt b) (FinishedAt a) then true
  else if time_opt_ltb (FinishedAt a) (FinishedAt b) then false
  else if StartedAt a <? StartedAt b then true
  else if StartedAt b <? StartedAt a then false
  else negb (string_ltb (JID b) (JID a)).

Definition specOrder (a b : Job) : Prop := Is_true (specOrder_leb a b).

#[local] Instance specOrder_dec : RelDecision specOrder.
Proof. intros a b. unfold specOrder. apply _. Defined.



(** *** The rows of TestGetByMultiJobID

    The test builds its jobs with a builder (package jb) that is not among
    the sources; [started] is the start time it gives a job by default,
    [finished] the finish time it gives one by default. *)
Definition builtJob (jid clientID : string) (mjid : option string)
  (status : string) (started : Z) (finished : option Z) : Job :=
  {| JID := jid; Status := status; FinishedAt := finished;
     ClientID := clientID; ClientName := "client"; MultiJobID := mjid;
     Command := "/bin/date"; Interpreter := ""; Cwd := ""; IsSudo := false;
     IsScript := false; HasShebang := false; CreatedBy := "admin";
     TimeoutSec := 60; PID := Some 1234; StartedAt := started; Error := "";
     Result := None |}.


Section TestRows.
Variable started : Z.
Variable finished : option Z.




End TestRows.

(** The two records of TestCreateJob: a successful job, and the same job
    with the status running. *)
Definition createdJob : Job :=
  builtJob "7777" "client-7" None JobStatusSuccessful 1597831000 None.
Definition updatedJob : Job :=
  builtJob "7777" "client-7" None JobStatusRunning 1597831000 None.

(** ** Properties *)

(** The byte-wise order of strings is a strict total order. *)
Definition string_lt (a b : string) : Prop := OrderedTypeEx.String_as_OT.lt a b.

Lemma string_ltb_lt a b : string_ltb a b = true <-> string_lt a b.
Proof.
  unfold string_ltb, string_lt.
  rewrite <- OrderedTypeEx.String_as_OT.cmp_lt. unfold OrderedTypeEx.String_as_OT.cmp.
  destruct (String.compare a b); split; congruence.
Qed.

Lemma string_lt_cases a b : string_lt a b \/ a = b \/ string_lt b a.
Proof.
  unfold string_lt.
  destruct (String.compare a b) eqn:Hc.
  - right; left. apply OrderedTypeEx.String_as_OT.cmp_eq. exact Hc.
  - left. apply OrderedTypeEx.String_as_OT.cmp_lt. exact Hc.
  - right; right. apply OrderedTypeEx.String_as_OT.cmp_lt.
    unfold OrderedTypeEx.String_as_OT.cmp.
    rewrite String.compare_antisym, Hc. reflexivity.
Qed.

Lemma string_lt_irrefl a : ~ string_lt a a.
Proof.
  intros H. exact (OrderedTypeEx.String_as_OT.lt_not_eq _ _ H eq_refl).
Qed.

Lemma string_lt_trans a b c : string_lt a b -> string_lt b c -> string_lt a c.
Proof. apply OrderedTypeEx.String_as_OT.lt_trans. Qed.

(** The order of the specification is a total preorder. *)
Lemma time_opt_ltb_cases (x y : option Z) :
  (time_opt_ltb x y = true /\ time_opt_ltb y x = false)
  \/ (x = y /\ time_opt_ltb x y = false /\ time_opt_ltb y x = false)
  \/ (time_opt_ltb y x = true /\ time_opt_ltb x y = false).
Proof.
  destruct x as [x|], y as [y|]; cbn [time_opt_ltb]; auto.
  destruct (Z.ltb_spec x y), (Z.ltb_spec y x); try lia; auto.
  right; left. split; [f_equal; lia | auto].
Qed.

Lemma time_opt_ltb_trans (x y z : option Z) :
  time_opt_ltb x y = true -> time_opt_ltb y z = true -> time_opt_ltb x z = true.
Proof.
  destruct x as [x|], y as [y|], z as [z|]; cbn [time_opt_ltb]; try discriminate; auto.
  rewrite !Z.ltb_lt. lia.
Qed.

Lemma specOrder_iff a b :
  specOrder a b <->
  time_opt_ltb (FinishedAt b) (FinishedAt a) = true
  \/ (FinishedAt a = FinishedAt b
      /\ (StartedAt a < StartedAt b
          \/ (StartedAt a = StartedAt b /\ ~ string_lt (JID b) (JID a)))).
Proof.
  unfold specOrder, specOrder_leb.
  destruct (time_opt_ltb_cases (FinishedAt b) (FinishedAt a))
    as [[H1 H2]|[(He & H1 & H2)|[H1 H2]]]; rewrite ?H1, ?H2.
  - split; [auto | constructor].
  - destruct (Z.ltb_spec (StartedAt a) (StartedAt b)).
    { split; [auto | constructor]. }
    destruct (Z.ltb_spec (StartedAt b) (StartedAt a)).
    { simpl. split; [contradiction|]. intros [?|[_ [?|[? _]]]]; [discriminate|lia|lia]. }
    rewrite <- string_ltb_lt.
    destruct (string_ltb (JID b) (JID a)); simpl; split.
    + contradiction.
    + intros [?|[_ [?|[_ Hn]]]]; [discriminate | lia | apply Hn; reflexivity].
    + intros _. right. split; [auto|]. right. split; [lia | discriminate].
    + constructor.
  - simpl. split; [contradiction|]. intros [?|[He _]]; [congruence|].
    rewrite He in H1. destruct (FinishedAt b) as [x|]; cbn in H1; [|discriminate].
    apply Z.ltb_lt in H1. lia.
Qed.

#[local] Instance specOrder_total : Total specOrder.
Proof.
  intros a b. rewrite !specOrder_iff.
  destruct (time_opt_ltb_cases (FinishedAt a) (FinishedAt b))
    as [[H1 _]|[(He & _ & _)|[H1 _]]]; auto.
  destruct (Z.lt_trichotomy (StartedAt a) (StartedAt b)) as [?|[Hs|?]]; auto.
  destruct (string_lt_cases (JID a) (JID b)) as [Hl|[Hl|Hl]].
  - left. right. split; [assumption|]. right. split; [assumption|]. intros Hl'.
    exact (string_lt_irrefl _ (string_lt_trans _ _ _ Hl Hl')).
  - left. right. split; [assumption|]. right. split; [assumption|].
    rewrite Hl. apply string_lt_irrefl.
  - right. right. split; [auto|]. right. split; [auto|]. intros Hl'.
    exact (string_lt_irrefl _ (string_lt_trans _ _ _ Hl Hl')).
Qed.

#[local] Instance specOrder_trans : Transitive specOrder.
Proof.
  intros a b c. rewrite !specOrder_iff.
  intros [Hab|[Hab Hsab]] [Hbc|[Hbc Hsbc]].
  - left. exact (time_opt_ltb_trans _ _ _ Hbc Hab).
  - left. rewrite <- Hbc. exact Hab.
  - left. rewrite Hab. exact Hbc.
  - right. split; [congruence|].
    destruct Hsab as [Hsab|[Hsab Hjab]], Hsbc as [Hsbc|[Hsbc Hjbc]];
      try (left; lia).
    right. split; [lia|]. intros Hca.
    destruct (string_lt_cases (JID a) (JID b)) as [Hl|[Hl|Hl]].
    + apply Hjbc. exact (string_lt_trans _ _ _ Hca Hl).
    + rewrite Hl in Hca. contradiction.
    + contradiction.
Qed.

(** The store keeps each job under its jid. *)
Definition keyed (st : JobStore) : Prop :=
  forall k job, st !! k = Some job -> JID job = k.

Lemma keyed_SaveJob st job : keyed st -> keyed (snd (SaveJob st job)).
Proof.
  intros Hk k j. simpl. destruct (decide (JID job = k)) as [<-|Hne].
  - rewrite lookup_insert_eq. congruence.
  - rewrite lookup_insert_ne by assumption. apply Hk.
Qed.

Lemma keyed_CreateJob st job : keyed st -> keyed (snd (CreateJob st job)).
Proof.
  intros Hk. unfold CreateJob. destruct (st !! JID job); [exact Hk|].
  apply (keyed_SaveJob st job Hk).
Qed.

(** C3. [create_job] after [save_job] of a job with the same jid, whatever
    else differs between the two records, returns no error and leaves the
    stored row as it was: [get_by_jid] returns the first job.  [save_job]
    of the second job overwrites the row instead; and [create_job] of a job
    whose jid the store does not have stores it. *)
Theorem create_job_idempotent (st : JobStore) (j1 j1' : Job) :
  JID j1 = JID j1' ->
  let '(e1, st1) := SaveJob st j1 in
  let '(e2, st2) := CreateJob st1 j1' in
  e1 = None /\ e2 = None /\ st2 = st1
  /\ GetByJID st2 (ClientID j1) (JID j1) = Some j1
  /\ GetByJID (snd (SaveJob st1 j1')) (ClientID j1') (JID j1) = Some j1'
  /\ (st !! JID j1 = None ->
      GetByJID (snd (CreateJob st j1)) (ClientID j1) (JID j1) = Some j1).
Proof.
  intros Hjid. unfold SaveJob, CreateJob. rewrite <- Hjid.
  rewrite lookup_insert_eq.
  split; [reflexivity|]. split; [reflexivity|]. split; [reflexivity|].
  unfold GetByJID; cbn [snd].
  rewrite !lookup_insert_eq, !String.eqb_refl.
  split; [reflexivity|]. split; [reflexivity|].
  intros Hnone. rewrite Hnone. cbn [snd].
  rewrite lookup_insert_eq, String.eqb_refl. reflexivity.
Qed.

Lemma create_job_idempotent_witness :
  let '(e1, st1) := SaveJob ∅ createdJob in
  let '(e2, st2) := CreateJob st1 updatedJob in
  e1 = None /\ e2 = None /\ st2 = st1
  /\ GetByJID st2 (ClientID createdJob) (JID createdJob) = Some createdJob
  /\ GetByJID (snd (SaveJob st1 updatedJob)) (ClientID updatedJob) (JID createdJob)
     = Some updatedJob
  /\ ((∅ : JobStore) !! JID createdJob = None ->
      GetByJID (snd (CreateJob ∅ createdJob)) (ClientID createdJob) (JID createdJob)
      = Some createdJob).
Proof.
  exact (create_job_idempotent ∅ createdJob updatedJob eq_refl).
Defined.









End Jobs.

(* ===================================================================== *)
(** * The dispatcher of multi-client jobs (server/api_middleware.go) *)
(* ===================================================================== *)

Module Dispatcher.
Import Models.

(** The fields of a client the dispatcher reads. *)
Record Client := mkClient {
  c_ID : string;
  c_Name : string;
  c_DisconnectedAt : option Z
}.

(** [errors2.APIError]: the message and the HTTP status. *)
Record APIError := mkAPIError {
  Message : string;
  HTTPStatus : Z
}.

Definition StatusBadRequest : Z := 400.
Definition StatusNotFound : Z := 404.
Definition StatusInternalServerError : Z := 500.

(** ** Target resolution *)

Section Targets.

(** The client groups, their provider and the client service are
    interfaces whose implementations are not among the sources.  A lookup
    returns an error ([inl]), nothing ([inr None]: a nil pointer) or a
    value.  [quoted] is the [%q] verb of [fmt.Sprintf]. *)
Variable ClientGroup : Type.
Variable groupGet : string -> string + option ClientGroup.
Variable GetActiveByGroups : list ClientGroup -> list Client.
Variable GetByID : string -> string + option Client.
Variable quoted : string -> string.

(** The first loop of [getOrderedClients]: the groups of the request, or
    the error of the first group that cannot be fetched or is unknown. *)
Fixpoint fetchGroups (groupIDs : list string) (groups : list ClientGroup)
  : APIError + list ClientGroup :=
  match groupIDs with
  | [] => inr groups
  | groupID :: rest =>
      match groupGet groupID with
      | inl _ =>
          inl {| Message := "Failed to get a client group with id=" +:+ quoted groupID +:+ ".";
                 HTTPStatus := StatusInternalServerError |}
      | inr None =>
          inl {| Message := "Unknown group with id=" +:+ quoted groupID +:+ ".";
                 HTTPStatus := StatusBadRequest |}
      | inr (Some group) => fetchGroups rest (groups ++ [group])
      end
  end.

(** The second loop: the clients of the explicit ids, in the order of the
    request, with the set of ids seen; the clients collected so far are
    returned with the error of the first id that fails. *)
Fixpoint explicitClients (clientIDs : list string) (orderedClients : list Client)
  (usedClientIDs : gset string) : list Client * (APIError + gset string) :=
  match clientIDs with
  | [] => (orderedClients, inr usedClientIDs)
  | cid :: rest =>
      match GetByID cid with
      | inl _ =>
          (orderedClients,
           inl {| Message := "Failed to find a client with id=" +:+ quoted cid +:+ ".";
                  HTTPStatus := StatusInternalServerError |})
      | inr None =>
          (orderedClients,
           inl {| Message := "Client with id=" +:+ quoted cid +:+ " not found.";
                  HTTPStatus := StatusNotFound |})
      | inr (Some client) =>
          match c_DisconnectedAt client with
          | Some _ =>
              (orderedClients,
               inl {| Message := "Client with id=" +:+ quoted cid +:+ " is not active.";
                      HTTPStatus := StatusBadRequest |})
          | None =>
              explicitClients rest (orderedClients ++ [client]) ({[cid]} ∪ usedClientIDs)
          end
      end
  end.

(** The third loop: the group clients whose id has not been used yet. *)
Fixpoint appendGroupClients (groupClients : list Client) (orderedClients : list Client)
  (usedClientIDs : gset string) : list Client :=
  match groupClients with
  | [] => orderedClients
  | groupClient :: rest =>
      if bool_decide (c_ID groupClient ∈ usedClientIDs)
      then appendGroupClients rest orderedClients usedClientIDs
      else appendGroupClients rest (orderedClients ++ [groupClient])
                              ({[c_ID groupClient]} ∪ usedClientIDs)
  end.

(** [getOrderedClients]: the ordered clients, the number of group clients
    found, and the error. *)
Definition getOrderedClients (clientIDs groupIDs : list string)
  : list Client * Z * option APIError :=
  match fetchGroups groupIDs [] with
  | inl err => ([], 0, Some err)
  | inr groups =>
      let groupClients := GetActiveByGroups groups in
      let groupClientsFoundCount := Z.of_nat (length groupClients) in
      match explicitClients clientIDs [] ∅ with
      | (orderedClients, inl err) => (orderedClients, 0, Some err)
      | (orderedClients, inr usedClientIDs) =>
          (appendGroupClients groupClients orderedClients usedClientIDs,
           groupClientsFoundCount, None)
      end
  end.

(** The group clients the third loop keeps, in words: in the order of the
    group clients, those whose id is not in [used] and does not occur
    earlier among the group clients. *)
Fixpoint freshGroupClients (groupClients : list Client) (used : gset string)
  : list Client :=
  match groupClients with
  | [] => []
  | gc :: rest =>
      if bool_decide (c_ID gc ∈ used) then freshGroupClients rest used
      else gc :: freshGroupClients rest ({[c_ID gc]} ∪ used)
  end.

(** A group id that resolves to a group, and a client id that resolves to
    an active client. *)
Definition knownGroup (groupID : string) (group : ClientGroup) : Prop :=
  groupGet groupID = inr (Some group).

Definition activeClient (cid : string) (client : Client) : Prop :=
  GetByID cid = inr (Some client) /\ c_DisconnectedAt client = None.

End Targets.

(** A registry for the examples: the clients c1 and c2 are connected, c3 is
    connected and known to the group g1 only, c9 is disconnected; the group
    g1 resolves to c2, c3 and c3 again. *)
Definition exampleClient (id : string) : Client :=
  {| c_ID := id; c_Name := "host-" +:+ id; c_DisconnectedAt := None |}.

Definition exampleGetByID (cid : string) : string + option Client :=
  if String.eqb cid "c1" || String.eqb cid "c2" || String.eqb cid "c3"
  then inr (Some (exampleClient cid))
  else if String.eqb cid "c9"
       then inr (Some {| c_ID := cid; c_Name := "host-c9";
                         c_DisconnectedAt := Some 1597831763 |})
       else inr None.

Definition exampleGroupGet (groupID : string) : string + option string :=
  if String.eqb groupID "g1" then inr (Some groupID) else inr None.

Definition exampleActiveByGroups (groups : list string) : list Client :=
  concat (map (fun _ => [exampleClient "c2"; exampleClient "c3"; exampleClient "c3"])
              groups).

Definition exampleResolve : list string -> list string -> list Client * Z * option APIError :=
  getOrderedClients string exampleGroupGet exampleActiveByGroups exampleGetByID
                    (fun s => s).

(** *** Properties of the target resolution *)

Section TargetsFacts.

Variable ClientGroup : Type.
Variable groupGet : string -> string + option ClientGroup.
Variable GetActiveByGroups : list ClientGroup -> list Client.
Variable GetByID : string -> string + option Client.
Variable quoted : string -> string.

Lemma fetchGroups_known groupIDs groups :
  Forall2 (knownGroup ClientGroup groupGet) groupIDs groups ->
  forall acc, fetchGroups ClientGroup groupGet quoted groupIDs acc = inr (acc ++ groups).
Proof.
  induction 1 as [|g grp ids grps Hg _ IH]; intros acc; simpl.
  - rewrite app_nil_r. reflexivity.
  - unfold knownGroup in Hg. rewrite Hg, IH, <- app_assoc. reflexivity.
Qed.

Lemma fetchGroups_stops pre groups groupID post acc :
  Forall2 (knownGroup ClientGroup groupGet) pre groups ->
  fetchGroups ClientGroup groupGet quoted (pre ++ groupID :: post) acc =
  fetchGroups ClientGroup groupGet quoted (groupID :: post) (acc ++ groups).
Proof.
  intros H. revert acc. induction H as [|g grp ids grps Hg _ IH]; intros acc.
  - rewrite app_nil_r. reflexivity.
  - simpl app. cbn [fetchGroups]. unfold knownGroup in Hg. rewrite Hg.
    rewrite IH, <- app_assoc. reflexivity.
Qed.

Lemma used_nil (used : gset string) :
  (list_to_set (@nil string) : gset string) ∪ used = used.
Proof. apply leibniz_equiv. set_solver. Qed.

Lemma used_cons (cid : string) (ids : list string) (used : gset string) :
  (list_to_set ids : gset string) ∪ ({[cid]} ∪ used)
  = (list_to_set (cid :: ids) : gset string) ∪ used.
Proof. apply leibniz_equiv. set_solver. Qed.

Lemma explicitClients_active clientIDs clients :
  Forall2 (activeClient GetByID) clientIDs clients ->
  forall acc used,
    explicitClients GetByID quoted clientIDs acc used
    = (acc ++ clients, inr (list_to_set clientIDs ∪ used)).
Proof.
  induction 1 as [|cid c ids cs [Hc Ha] _ IH]; intros acc used;
    cbn [explicitClients].
  - rewrite app_nil_r, used_nil. reflexivity.
  - rewrite Hc, Ha, IH, <- app_assoc, used_cons. reflexivity.
Qed.

Lemma explicitClients_stops pre clients cid post acc used :
  Forall2 (activeClient GetByID) pre clients ->
  explicitClients GetByID quoted (pre ++ cid :: post) acc used =
  explicitClients GetByID quoted (cid :: post) (acc ++ clients)
                  (list_to_set pre ∪ used).
Proof.
  intros H. revert acc used.
  induction H as [|c0 c ids cs [Hc Ha] _ IH]; intros acc used.
  - rewrite app_nil_r, used_nil. reflexivity.
  - simpl app. cbn [explicitClients].
    rewrite Hc, Ha, IH, <- app_assoc, used_cons. reflexivity.
Qed.

Lemma appendGroupClients_fresh groupClients :
  forall acc used,
    appendGroupClients groupClients acc used
    = acc ++ freshGroupClients groupClients used.
Proof.
  induction groupClients as [|gc rest IH]; intros acc used; simpl.
  - rewrite app_nil_r. reflexivity.
  - destruct (bool_decide (c_ID gc ∈ used)); rewrite IH; [reflexivity|].
    rewrite <- app_assoc. reflexivity.
Qed.

(** The group clients that are kept: in the order of the group clients,
    none with a used id, none twice, and none is left out whose id was not
    used. *)
Lemma freshGroupClients_spec groupClients :
  forall used,
    sublist (freshGroupClients groupClients used) groupClients
    /\ Forall (fun gc => c_ID gc ∉ used) (freshGroupClients groupClients used)
    /\ NoDup (map c_ID (freshGroupClients groupClients used))
    /\ Forall (fun gc => c_ID gc ∈ used
                         \/ In (c_ID gc) (map c_ID (freshGroupClients groupClients used)))
              groupClients.
Proof.
  induction groupClients as [|gc rest IH]; intros used; simpl.
  - repeat split; constructor.
  - destruct (bool_decide_reflect (c_ID gc ∈ used)) as [Hin|Hnin].
    + destruct (IH used) as (Hs & Hf & Hn & Hc).
      repeat split; try assumption.
      * apply sublist_cons. exact Hs.
      * constructor; [left; exact Hin | exact Hc].
    + destruct (IH ({[c_ID gc]} ∪ used)) as (Hs & Hf & Hn & Hc).
      repeat split.
      * apply sublist_skip. exact Hs.
      * constructor; [exact Hnin|].
        eapply Forall_impl; [exact Hf|]. simpl. intros x Hx. set_solver.
      * simpl. constructor; [|exact Hn].
        intros Hin. apply list_elem_of_In, in_map_iff in Hin as (x & Hx & Hxin).
        rewrite List.Forall_forall in Hf. specialize (Hf x Hxin). set_solver.
      * constructor; [right; left; reflexivity|].
        eapply Forall_impl; [exact Hc|]. simpl. intros x [Hx|Hx].
        -- apply elem_of_union in Hx as [Hx|Hx].
           ++ apply elem_of_singleton in Hx. right. left. congruence.
           ++ left. exact Hx.
        -- right. right. exact Hx.
Qed.

(** C2 (amended). Target resolution, when no lookup fails before the
    element that decides: an unknown group id gives a bad-request error;
    with all groups known, an explicit client id that does not exist gives a
    not-found error and one whose client is disconnected a bad-request
    error (the first such id decides); otherwise the result is the clients
    of the explicit ids, in request order and as often as they are listed,
    followed by the group-derived active clients in group-iteration order,
    without those whose id is among the explicit ids and without
    repetitions.  A lookup that fails gives an internal error. *)
Theorem get_ordered_clients (clientIDs groupIDs : list string) :
  let resolve := getOrderedClients ClientGroup groupGet GetActiveByGroups GetByID quoted in
  (forall pre groups groupID post,
      groupIDs = pre ++ groupID :: post ->
      Forall2 (knownGroup ClientGroup groupGet) pre groups ->
      (groupGet groupID = inr None ->
       exists msg, resolve clientIDs groupIDs
                   = ([], 0, Some {| Message := msg; HTTPStatus := StatusBadRequest |}))
      /\ (forall e, groupGet groupID = inl e ->
           exists msg, resolve clientIDs groupIDs
                       = ([], 0, Some {| Message := msg;
                                         HTTPStatus := StatusInternalServerError |})))
  /\ (forall groups pre clients cid post,
      Forall2 (knownGroup ClientGroup groupGet) groupIDs groups ->
      clientIDs = pre ++ cid :: post ->
      Forall2 (activeClient GetByID) pre clients ->
      (GetByID cid = inr None ->
       exists msg, resolve clientIDs groupIDs
                   = (clients, 0, Some {| Message := msg; HTTPStatus := StatusNotFound |}))
      /\ (forall client t,
           GetByID cid = inr (Some client) -> c_DisconnectedAt client = Some t ->
           exists msg, resolve clientIDs groupIDs
                       = (clients, 0, Some {| Message := msg;
                                              HTTPStatus := StatusBadRequest |}))
      /\ (forall e, GetByID cid = inl e ->
           exists msg, resolve clientIDs groupIDs
                       = (clients, 0, Some {| Message := msg;
                                              HTTPStatus := StatusInternalServerError |})))
  /\ (forall groups clients,
      Forall2 (knownGroup ClientGroup groupGet) groupIDs groups ->
      Forall2 (activeClient GetByID) clientIDs clients ->
      let groupClients := GetActiveByGroups groups in
      let kept := freshGroupClients groupClients (list_to_set clientIDs) in
      resolve clientIDs groupIDs
      = (clients ++ kept, Z.of_nat (length groupClients), None)
      /\ sublist kept groupClients
      /\ Forall (fun gc => ~ In (c_ID gc) clientIDs) kept
      /\ NoDup (map c_ID kept)
      /\ Forall (fun gc => In (c_ID gc) clientIDs \/ In (c_ID gc) (map c_ID kept))
                groupClients).
Proof.
  intros resolve. subst resolve. split; [|split].
  - intros pre groups groupID post -> Hpre. unfold getOrderedClients.
    rewrite (fetchGroups_stops pre groups groupID post [] Hpre). simpl.
    split.
    + intros Hg. rewrite Hg. eauto.
    + intros e Hg. rewrite Hg. eauto.
  - intros groups pre clients cid post Hgroups -> Hpre. unfold getOrderedClients.
    rewrite (fetchGroups_known groupIDs groups Hgroups). simpl.
    rewrite (explicitClients_stops pre clients cid post [] ∅ Hpre). simpl.
    split; [|split].
    + intros Hc. rewrite Hc. eauto.
    + intros client t Hc Ht. rewrite Hc, Ht. eauto.
    + intros e Hc. rewrite Hc. eauto.
  - intros groups clients Hgroups Hclients groupClients kept.
    unfold getOrderedClients.
    rewrite (fetchGroups_known groupIDs groups Hgroups). simpl.
    rewrite (explicitClients_active clientIDs clients Hclients). simpl.
    rewrite appendGroupClients_fresh.
    assert (Hused : (list_to_set clientIDs : gset string) ∪ ∅ = list_to_set clientIDs).
    { apply leibniz_equiv. set_solver. }
    rewrite Hused. fold groupClients. fold kept.
    destruct (freshGroupClients_spec groupClients (list_to_set clientIDs))
      as (Hs & Hf & Hn & Hc).
    split; [reflexivity|]. split; [exact Hs|]. split; [|split; [exact Hn|]].
    + eapply Forall_impl; [exact Hf|]. simpl. intros gc Hgc Hin.
      apply Hgc. apply elem_of_list_to_set, list_elem_of_In. exact Hin.
    + eapply Forall_impl; [exact Hc|]. simpl. intros gc [Hgc|Hgc]; [left|right; exact Hgc].
      apply list_elem_of_In. apply elem_of_list_to_set in Hgc. exact Hgc.
Qed.

End TargetsFacts.

Section DistinctTargets.

Variable ClientGroup : Type.
Variable groupGet : string -> string + option ClientGroup.
Variable GetActiveByGroups : list ClientGroup -> list Client.
Variable GetByID : string -> string + option Client.
Variable quoted : string -> string.

(** The registry answers a lookup with the client of that id. *)
Hypothesis GetByID_id :
  forall cid client, GetByID cid = inr (Some client) -> c_ID client = cid.

Lemma activeClients_ids clientIDs clients :
  Forall2 (activeClient GetByID) clientIDs clients -> map c_ID clients = clientIDs.
Proof.
  induction 1 as [|cid c ids cs [Hc _] _ IH]; [reflexivity|].
  cbn [map]. rewrite IH, (GetByID_id cid c Hc). reflexivity.
Qed.

(** X23. When the ids of a request are distinct and the registry answers
    a lookup with the client of that id, a resolution in which no lookup
    fails, every group is known and every listed client is connected
    yields targets with pairwise distinct ids: exactly the listed ids and
    the ids of the active clients of the groups, so at most as many targets
    as ids listed plus group clients found. *)
Theorem distinct_targets (clientIDs groupIDs : list string)
  (groups : list ClientGroup) (clients : list Client) :
  Forall2 (knownGroup ClientGroup groupGet) groupIDs groups ->
  Forall2 (activeClient GetByID) clientIDs clients ->
  NoDup clientIDs ->
  exists targets,
    getOrderedClients ClientGroup groupGet GetActiveByGroups GetByID quoted
                      clientIDs groupIDs
    = (targets, Z.of_nat (length (GetActiveByGroups groups)), None)
    /\ NoDup (map c_ID targets)
    /\ (forall cid, In cid (map c_ID targets)
                    <-> In cid clientIDs
                        \/ In cid (map c_ID (GetActiveByGroups groups)))
    /\ (length targets <= length clientIDs + length (GetActiveByGroups groups))%nat.
Proof.
  intros Hgroups Hclients Hnd.
  set (groupClients := GetActiveByGroups groups).
  set (kept := freshGroupClients groupClients (list_to_set clientIDs)).
  exists (clients ++ kept).
  unfold getOrderedClients.
  rewrite (fetchGroups_known ClientGroup groupGet quoted groupIDs groups Hgroups).
  cbn [app].
  rewrite (explicitClients_active ClientGroup groupGet GetByID quoted clientIDs clients
             Hclients).
  rewrite appendGroupClients_fresh.
  assert (Hused : (list_to_set clientIDs : gset string) ∪ ∅ = list_to_set clientIDs).
  { apply leibniz_equiv. set_solver. }
  rewrite Hused. fold groupClients. fold kept. cbn [app].
  destruct (freshGroupClients_spec groupClients (list_to_set clientIDs))
    as (Hs & Hf & Hn & Hc).
  fold kept in Hs, Hf, Hn, Hc.
  pose proof (activeClients_ids clientIDs clients Hclients) as Hids.
  split; [reflexivity|]. split; [|split].
  - rewrite map_app, Hids. apply NoDup_app. split; [exact Hnd|]. split; [|exact Hn].
    intros cid Hin Hin'. apply list_elem_of_In, in_map_iff in Hin' as (gc & <- & Hgc).
    rewrite List.Forall_forall in Hf. apply (Hf gc Hgc).
    apply elem_of_list_to_set. exact Hin.
  - intros cid. rewrite map_app, Hids, in_app_iff. split.
    + intros [Hin|Hin]; [left; exact Hin|]. right.
      apply in_map_iff in Hin as (gc & <- & Hgc). apply in_map.
      apply list_elem_of_In. eapply elem_of_sublist; [|exact Hs].
      apply list_elem_of_In. exact Hgc.
    + intros [Hin|Hin]; [left; exact Hin|].
      apply in_map_iff in Hin as (gc & <- & Hgc).
      rewrite List.Forall_forall in Hc. destruct (Hc gc Hgc) as [Hu|Hk].
      * left. apply list_elem_of_In. apply elem_of_list_to_set in Hu. exact Hu.
      * right. exact Hk.
  - rewrite length_app. apply Forall2_length in Hclients. rewrite <- Hclients.
    apply sublist_length in Hs. lia.
Qed.

End DistinctTargets.

(** The client id c1 listed twice in a request with no group: the client is
    returned twice, with no error. *)
Lemma explicit_duplicates_kept :
  exampleResolve ["c1"; "c1"] [] = ([exampleClient "c1"; exampleClient "c1"], 0, None).
Proof. vm_compute. reflexivity. Qed.

Lemma get_ordered_clients_witness :
  exampleResolve ["c1"; "c2"] ["g1"]
  = ([exampleClient "c1"; exampleClient "c2"; exampleClient "c3"], 3, None)
  /\ (exists msg, exampleResolve ["c1"] ["g1"; "nope"]
                  = ([], 0, Some {| Message := msg; HTTPStatus := StatusBadRequest |}))
  /\ (exists msg, exampleResolve ["c1"; "c7"; "c2"] ["g1"]
                  = ([exampleClient "c1"], 0,
                     Some {| Message := msg; HTTPStatus := StatusNotFound |}))
  /\ (exists msg, exampleResolve ["c1"; "c9"] []
                  = ([exampleClient "c1"], 0,
                     Some {| Message := msg; HTTPStatus := StatusBadRequest |})).
Proof.
  assert (Hg1 : Forall2 (knownGroup string exampleGroupGet) ["g1"] ["g1"])
    by (repeat constructor).
  assert (Hc1 : Forall2 (activeClient exampleGetByID) ["c1"] [exampleClient "c1"])
    by (repeat constructor).
  split; [|split; [|split]].
  - destruct (get_ordered_clients string exampleGroupGet exampleActiveByGroups
                exampleGetByID (fun s => s) ["c1"; "c2"] ["g1"]) as (_ & _ & H).
    destruct (H ["g1"] [exampleClient "c1"; exampleClient "c2"] Hg1
                ltac:(repeat constructor)) as (Heq & _).
    exact Heq.
  - destruct (get_ordered_clients string exampleGroupGet exampleActiveByGroups
                exampleGetByID (fun s => s) ["c1"] ["g1"; "nope"]) as (H & _ & _).
    exact (proj1 (H ["g1"] ["g1"] "nope" [] eq_refl Hg1) eq_refl).
  - destruct (get_ordered_clients string exampleGroupGet exampleActiveByGroups
                exampleGetByID (fun s => s) ["c1"; "c7"; "c2"] ["g1"]) as (_ & H & _).
    exact (proj1 (H ["g1"] ["c1"] [exampleClient "c1"] "c7" ["c2"] Hg1 eq_refl Hc1)
                 eq_refl).
  - destruct (get_ordered_clients string exampleGroupGet exampleActiveByGroups
                exampleGetByID (fun s => s) ["c1"; "c9"] []) as (_ & H & _).
    exact (proj1 (proj2 (H [] ["c1"] [exampleClient "c1"] "c9" []
                           ltac:(constructor) eq_refl Hc1))
                 _ 1597831763 eq_refl eq_refl).
Defined.

Lemma distinct_targets_witness :
  exists targets,
    exampleResolve ["c1"; "c2"] ["g1"] = (targets, 3, None)
    /\ NoDup (map c_ID targets)
    /\ map c_ID targets = ["c1"; "c2"; "c3"].
Proof.
  destruct (distinct_targets string exampleGroupGet exampleActiveByGroups exampleGetByID
              (fun s => s)) with (clientIDs := ["c1"; "c2"]) (groupIDs := ["g1"])
              (groups := ["g1"]) (clients := [exampleClient "c1"; exampleClient "c2"])
    as (targets & Heq & Hnd & _).
  - intros cid client. unfold exampleGetByID.
    destruct (String.eqb cid "c1" || String.eqb cid "c2" || String.eqb cid "c3").
    + intros [= <-]. reflexivity.
    + destruct (String.eqb cid "c9"); [intros [= <-]; reflexivity | discriminate].
  - repeat constructor.
  - repeat constructor.
  - repeat constructor; simpl; intros H; repeat (apply elem_of_cons in H as [H|H]; try discriminate H); inversion H.
  - exists targets. split; [exact Heq|]. split; [exact Hnd|].
    assert (Hv : exampleResolve ["c1"; "c2"] ["g1"]
                 = ([exampleClient "c1"; exampleClient "c2"; exampleClient "c3"], 3, None))
      by (vm_compute; reflexivity).
    unfold exampleResolve in Hv. rewrite Hv in Heq. inversion Heq. reflexivity.
Defined.

End Dispatcher.

(* ===================================================================== *)
(** * Execution of a multi-client job (server/api_middleware.go) *)
(* ===================================================================== *)

Module MultiClientJob.
Import Models Dispatcher.

(** [comm.RunCmdResponse]. *)
Record RunCmdResponse := mkRunCmdResponse {
  Pid : Z;
  resp_StartedAt : Z
}.

(** What the surroundings answer during one turn of the loop of
    [executeMultiClientJob]: the job id generated (or the error), the two
    readings of the clock, the client's answer to the run_cmd request (or
    the error of the transport), the error of the store when the child is
    persisted, and the job received on the done-channel afterwards, if one
    ever is. *)
Record ChildEnv := mkChildEnv {
  env_jid : string + string;
  env_now : Z;
  env_send : string + RunCmdResponse;
  env_failedAt : Z;
  env_dbErr : option string;
  env_done : option Job
}.

(** What a run leaves behind: the run_cmd requests sent and the child jobs
    persisted by [CreateJob], oldest first, each with the position of its
    target in the list of ordered clients. *)
Record World := mkWorld {
  sent : list (nat * Job);
  persisted : list (nat * Job)
}.

Definition emptyWorld : World := {| sent := []; persisted := [] |}.

(** The decimal form of a position, for the job ids of the examples. *)
Definition FormatIntNat (n : nat) : string := GoInt.FormatInt (Z.of_nat n).

(** [createAndRunJob] for the target at position [idx]. *)
Definition createAndRunJob (idx : nat) (env : ChildEnv)
  (multiJobID cmd interpreter createdBy cwd : string) (timeoutSec : Z)
  (isSudo isScript hasShebang : bool) (client : Client) (w : World)
  : bool * World :=
  match env_jid env with
  | inl _ => (false, w)
  | inr jid =>
      let curJob :=
        {| JID := jid; Status := ""; FinishedAt := None;
           ClientID := c_ID client; ClientName := c_Name client;
           MultiJobID := Some multiJobID; Command := cmd;
           Interpreter := interpreter; Cwd := cwd; IsSudo := isSudo;
           IsScript := isScript; HasShebang := hasShebang;
           CreatedBy := createdBy; TimeoutSec := timeoutSec; PID := None;
           StartedAt := env_now env; Error := ""; Result := None |} in
      let wA := {| sent := sent w ++ [(idx, curJob)]; persisted := persisted w |} in
      let finalJob :=
        match env_send env with
        | inl err =>
            {| JID := jid; Status := JobStatusFailed;
               FinishedAt := Some (env_failedAt env);
               ClientID := c_ID client; ClientName := c_Name client;
               MultiJobID := Some multiJobID; Command := cmd;
               Interpreter := interpreter; Cwd := cwd; IsSudo := isSudo;
               IsScript := isScript; HasShebang := hasShebang;
               CreatedBy := createdBy; TimeoutSec := timeoutSec; PID := None;
               StartedAt := env_now env; Error := err; Result := None |}
        | inr sshResp =>
            {| JID := jid; Status := JobStatusRunning; FinishedAt := None;
               ClientID := c_ID client; ClientName := c_Name client;
               MultiJobID := Some multiJobID; Command := cmd;
               Interpreter := interpreter; Cwd := cwd; IsSudo := isSudo;
               IsScript := isScript; HasShebang := hasShebang;
               CreatedBy := createdBy; TimeoutSec := timeoutSec;
               PID := Some (Pid sshResp);
               StartedAt := resp_StartedAt sshResp; Error := ""; Result := None |}
        end in
      let wB :=
        match env_dbErr env with
        | Some _ => wA
        | None => {| sent := sent wA; persisted := persisted wA ++ [(idx, finalJob)] |}
        end in
      (match env_send env with inl _ => false | inr _ => true end, wB)
  end.

(** How the loop of [executeMultiClientJob] ends: it ran over all targets,
    it left by [break], or it waits on the done-channel for a result that
    never comes. *)
Inductive LoopEnd := RanAll | Broke | Blocked.

(** The scenario of the specification: a sequential multi-client job that
    aborts on errors, over the targets A, B and C; the client A accepts the
    command and returns a result with the status failed. *)
Definition exampleJob : MultiJob :=
  {| mj_JID := "multi-1"; mj_StartedAt := 1597831000; mj_CreatedBy := "admin";
     mj_ClientIDs := ["A"; "B"; "C"]; mj_GroupIDs := []; mj_Command := "/bin/date";
     mj_Interpreter := ""; mj_Cwd := ""; mj_IsSudo := false; mj_IsScript := false;
     mj_HasShebang := false; mj_TimeoutSec := 60; mj_Concurrent := false;
     mj_AbortOnErr := true |}.

Definition exampleTargets : list Client :=
  [ exampleClient "A"; exampleClient "B"; exampleClient "C" ].

Definition failedResult (jid clientID : string) : Job :=
  {| JID := jid; Status := JobStatusFailed; FinishedAt := Some 1597831010;
     ClientID := clientID; ClientName := "host-" +:+ clientID;
     MultiJobID := Some "multi-1"; Command := "/bin/date"; Interpreter := "";
     Cwd := ""; IsSudo := false; IsScript := false; HasShebang := false;
     CreatedBy := "admin"; TimeoutSec := 60; PID := Some 77;
     StartedAt := 1597831001; Error := "exit status 1"; Result := None |}.

Definition exampleOracle (idx : nat) : ChildEnv :=
  {| env_jid := inr ("child-" +:+ FormatIntNat idx);
     env_now := 1597831000;
     env_send := inr {| Pid := 77; resp_StartedAt := 1597831001 |};
     env_failedAt := 1597831002;
     env_dbErr := None;
     env_done := Some (failedResult ("child-" +:+ FormatIntNat idx) "A") |}.

(** The job of the scenario when it does not abort on errors. *)
Definition patientJob : MultiJob :=
  {| mj_JID := "multi-2"; mj_StartedAt := 1597831000; mj_CreatedBy := "admin";
     mj_ClientIDs := ["A"; "B"; "C"]; mj_GroupIDs := []; mj_Command := "/bin/date";
     mj_Interpreter := ""; mj_Cwd := ""; mj_IsSudo := false; mj_IsScript := false;
     mj_HasShebang := false; mj_TimeoutSec := 60; mj_Concurrent := false;
     mj_AbortOnErr := false |}.

Section Execute.

Variable insecureForTests : bool.
Variable oracle : nat -> ChildEnv.
Variable job : MultiJob.
Variable clientIDCommandMap : gmap string string.

(** The loop of [executeMultiClientJob] from the target at position [idx].
    In the concurrent case the children are started as goroutines; they are
    run here in the order they are started. *)
Fixpoint executeFrom (idx : nat) (orderedClients : list Client) (w : World)
  : LoopEnd * World :=
  match orderedClients with
  | [] => (RanAll, w)
  | client :: rest =>
      let command := match clientIDCommandMap !! c_ID client with
                     | Some command => command
                     | None => mj_Command job
                     end in
      let '(success, wA) :=
        createAndRunJob idx (oracle idx) (mj_JID job) command (mj_Interpreter job)
                        (mj_CreatedBy job) (mj_Cwd job) (mj_TimeoutSec job)
                        (mj_IsSudo job) (mj_IsScript job) (mj_HasShebang job)
                        client w in
      if mj_Concurrent job then executeFrom (S idx) rest wA
      else if negb success
           then (if mj_AbortOnErr job then (Broke, wA) else executeFrom (S idx) rest wA)
           else if insecureForTests then executeFrom (S idx) rest wA
                else match env_done (oracle idx) with
                     | None => (Blocked, wA)
                     | Some jobResult =>
                         if mj_AbortOnErr job
                            && String.eqb (Status jobResult) JobStatusFailed
                         then (Broke, wA)
                         else executeFrom (S idx) rest wA
                     end
  end.

Definition executeMultiClientJob (orderedClients : list Client) : LoopEnd * World :=
  executeFrom 0 orderedClients emptyWorld.

(** The child of a turn of the loop fails: no job id could be generated,
    the transport send errors out, or (when the loop waits for results) the
    result received on the done-channel has the status failed. *)
Definition childFails (env : ChildEnv) : Prop :=
  (exists err, env_jid env = inl err)
  \/ (exists err, env_send env = inl err)
  \/ (insecureForTests = false
      /\ exists jobResult, env_done env = Some jobResult
                           /\ Status jobResult = JobStatusFailed).

(** The positions of the targets a world has requests or children for. *)
Definition positions_below (n : nat) (w : World) : Prop :=
  Forall (fun e => (fst e < n)%nat) (sent w)
  /\ Forall (fun e => (fst e < n)%nat) (persisted w).

(** The positions a run that is never cut short sends a request for: those
    of the targets a job id could be generated for. *)
Definition withJobID (idx : nat) : bool :=
  match env_jid (oracle idx) with inr _ => true | inl _ => false end.

(** The positions it persists a child for: those whose child the store
    accepted. *)
Definition stored (idx : nat) : bool :=
  withJobID idx && match env_dbErr (oracle idx) with None => true | Some _ => false end.

(** The positions whose command the client accepted: the run waits for the
    result of these. *)
Definition accepted (idx : nat) : bool :=
  withJobID idx && match env_send (oracle idx) with inr _ => true | inl _ => false end.

(** What a child job carries of the multi-client job and of its target. *)
Definition childOf (orderedClients : list Client) (e : nat * Job) : Prop :=
  exists client,
    nth_error orderedClients (fst e) = Some client
    /\ env_jid (oracle (fst e)) = inr (JID (snd e))
    /\ ClientID (snd e) = c_ID client
    /\ ClientName (snd e) = c_Name client
    /\ MultiJobID (snd e) = Some (mj_JID job)
    /\ Command (snd e) = match clientIDCommandMap !! c_ID client with
                         | Some command => command
                         | None => mj_Command job
                         end
    /\ Interpreter (snd e) = mj_Interpreter job
    /\ Cwd (snd e) = mj_Cwd job
    /\ CreatedBy (snd e) = mj_CreatedBy job
    /\ TimeoutSec (snd e) = mj_TimeoutSec job
    /\ IsSudo (snd e) = mj_IsSudo job
    /\ IsScript (snd e) = mj_IsScript job
    /\ HasShebang (snd e) = mj_HasShebang job.

(** How a child is persisted: failed, with the error of the send and the
    instant of the failure, or running, with the process id and the start
    time the client answered. *)
Definition persistedAs (e : nat * Job) : Prop :=
  match env_send (oracle (fst e)) with
  | inl err =>
      Status (snd e) = JobStatusFailed /\ Error (snd e) = err
      /\ FinishedAt (snd e) = Some (env_failedAt (oracle (fst e)))
      /\ PID (snd e) = None /\ StartedAt (snd e) = env_now (oracle (fst e))
  | inr sshResp =>
      Status (snd e) = JobStatusRunning /\ Error (snd e) = ""
      /\ FinishedAt (snd e) = None
      /\ PID (snd e) = Some (Pid sshResp)
      /\ StartedAt (snd e) = resp_StartedAt sshResp
  end.

(** ** Properties *)

Lemma createAndRunJob_positions idx env mj cmd i cb cwd t s sc sh client w n :
  positions_below n w -> (idx < n)%nat ->
  positions_below n (snd (createAndRunJob idx env mj cmd i cb cwd t s sc sh client w)).
Proof.
  intros [Hs Hp] Hidx. unfold createAndRunJob.
  destruct (env_jid env) as [e|jid]; simpl; [split; assumption|].
  destruct (env_dbErr env); simpl; split;
    try apply Forall_app; try split; try assumption;
    repeat constructor; simpl; assumption.
Qed.

Lemma executeFrom_positions orderedClients :
  forall idx w,
    positions_below (idx + length orderedClients) w ->
    positions_below (idx + length orderedClients)
                    (snd (executeFrom idx orderedClients w)).
Proof.
  induction orderedClients as [|client rest IH]; intros idx w Hw; simpl; [exact Hw|].
  pose proof (createAndRunJob_positions idx (oracle idx) (mj_JID job)
                (match clientIDCommandMap !! c_ID client with
                 | Some command => command
                 | None => mj_Command job
                 end)
                (mj_Interpreter job) (mj_CreatedBy job) (mj_Cwd job)
                (mj_TimeoutSec job) (mj_IsSudo job) (mj_IsScript job)
                (mj_HasShebang job) client w _ Hw ltac:(simpl; lia)) as Hstep.
  destruct (createAndRunJob _ _ _ _ _ _ _ _ _ _ _ client w) as [success wA].
  simpl in Hstep. simpl length in *.
  assert (Hrec : positions_below (idx + S (length rest))
                                 (snd (executeFrom (S idx) rest wA))).
  { replace (idx + S (length rest))%nat with (S idx + length rest)%nat in * by lia.
    apply IH. exact Hstep. }
  destruct (mj_Concurrent job); [exact Hrec|].
  destruct success; simpl.
  - destruct insecureForTests; [exact Hrec|].
    destruct (env_done (oracle idx)) as [r|]; [|exact Hstep].
    destruct (mj_AbortOnErr job && String.eqb (Status r) JobStatusFailed);
      [exact Hstep | exact Hrec].
  - destruct (mj_AbortOnErr job); [exact Hstep | exact Hrec].
Qed.

(** The loop over a list of targets followed by more targets: the rest is
    reached only when the loop ran over all of the first ones. *)
Lemma executeFrom_app pre rest :
  forall idx w,
    executeFrom idx (pre ++ rest) w =
    match executeFrom idx pre w with
    | (RanAll, wA) => executeFrom (idx + length pre) rest wA
    | stopped => stopped
    end.
Proof.
  induction pre as [|client pre IH]; intros idx w; simpl.
  - rewrite Nat.add_0_r. reflexivity.
  - destruct (createAndRunJob _ _ _ _ _ _ _ _ _ _ _ client w) as [success wA].
    replace (idx + S (length pre))%nat with (S idx + length pre)%nat by lia.
    destruct (mj_Concurrent job); [apply IH|].
    destruct success; simpl.
    + destruct insecureForTests; [apply IH|].
      destruct (env_done (oracle idx)) as [r|]; [|reflexivity].
      destruct (mj_AbortOnErr job && String.eqb (Status r) JobStatusFailed);
        [reflexivity | apply IH].
    + destruct (mj_AbortOnErr job); [reflexivity | apply IH].
Qed.

(** A failed child ends a sequential run that aborts on errors. *)
Lemma executeFrom_fails idx client rest w :
  mj_Concurrent job = false ->
  mj_AbortOnErr job = true ->
  childFails (oracle idx) ->
  executeFrom idx (client :: rest) w = executeFrom idx [client] w
  /\ fst (executeFrom idx (client :: rest) w) = Broke.
Proof.
  intros Hseq Habort Hfail. simpl. rewrite Hseq, Habort.
  unfold createAndRunJob.
  destruct Hfail as [[err Hjid] | [[err Hsend] | (Hins & r & Hdone & Hst)]].
  - rewrite Hjid. simpl. split; reflexivity.
  - destruct (env_jid (oracle idx)) as [e|jid]; simpl; [split; reflexivity|].
    rewrite Hsend. simpl. split; reflexivity.
  - destruct (env_jid (oracle idx)) as [e|jid]; simpl; [split; reflexivity|].
    destruct (env_send (oracle idx)) as [e|resp]; simpl; [split; reflexivity|].
    rewrite Hins, Hdone, Hst. simpl. split; reflexivity.
Qed.

(** C1. In a sequential run ([concurrent] false) that aborts on errors,
    when the child of the target at some position fails (the send errors
    out, the result received on the done-channel has the status failed, or
    no job id could be generated), the run is the run over the targets up
    to that one: whatever targets follow in the list, no request is sent
    and no child is persisted for a target at a later position. *)
Theorem sequential_abort_stops (pre : list Client) (client : Client) (post : list Client) :
  mj_Concurrent job = false ->
  mj_AbortOnErr job = true ->
  childFails (oracle (length pre)) ->
  executeMultiClientJob (pre ++ client :: post)
  = executeMultiClientJob (pre ++ [client])
  /\ fst (executeMultiClientJob (pre ++ client :: post)) <> RanAll
  /\ Forall (fun e => (fst e <= length pre)%nat)
            (sent (snd (executeMultiClientJob (pre ++ client :: post))))
  /\ Forall (fun e => (fst e <= length pre)%nat)
            (persisted (snd (executeMultiClientJob (pre ++ client :: post)))).
Proof.
  intros Hseq Habort Hfail.
  assert (Heq : executeMultiClientJob (pre ++ client :: post)
                = executeMultiClientJob (pre ++ [client])).
  { unfold executeMultiClientJob. rewrite !executeFrom_app.
    destruct (executeFrom 0 pre emptyWorld) as [[| |] wA]; try reflexivity.
    apply (executeFrom_fails _ client post wA Hseq Habort Hfail). }
  split; [exact Heq|]. split.
  - unfold executeMultiClientJob. rewrite executeFrom_app.
    destruct (executeFrom 0 pre emptyWorld) as [[| |] wA].
    + change (0 + length pre)%nat with (length pre).
      rewrite (proj2 (executeFrom_fails _ client post wA Hseq Habort Hfail)).
      discriminate.
    + discriminate.
    + discriminate.
  - rewrite Heq. unfold executeMultiClientJob.
    destruct (executeFrom_positions (pre ++ [client]) 0 emptyWorld) as [Hs Hp].
    { split; constructor. }
    rewrite length_app in Hs, Hp. simpl in Hs, Hp.
    split; (eapply Forall_impl; [eassumption|]); simpl; intros; lia.
Qed.

Lemma createAndRunJob_world idx client w :
  let r := createAndRunJob idx (oracle idx) (mj_JID job)
             (match clientIDCommandMap !! c_ID client with
              | Some command => command
              | None => mj_Command job
              end)
             (mj_Interpreter job) (mj_CreatedBy job) (mj_Cwd job) (mj_TimeoutSec job)
             (mj_IsSudo job) (mj_IsScript job) (mj_HasShebang job) client w in
  fst r = accepted idx
  /\ map fst (sent (snd r)) = map fst (sent w) ++ (if withJobID idx then [idx] else [])
  /\ map fst (persisted (snd r)) = map fst (persisted w) ++ (if stored idx then [idx] else [])
  /\ (forall clients,
        nth_error clients idx = Some client ->
        Forall (childOf clients) (sent w) -> Forall (childOf clients) (sent (snd r)))
  /\ (forall clients,
        nth_error clients idx = Some client ->
        Forall (fun e => childOf clients e /\ persistedAs e) (persisted w) ->
        Forall (fun e => childOf clients e /\ persistedAs e) (persisted (snd r))).
Proof.
  unfold createAndRunJob, accepted, stored, withJobID.
  destruct (env_jid (oracle idx)) as [e|jid] eqn:Hjid; cbn [fst snd andb].
  { rewrite !app_nil_r. repeat split; auto. }
  split; [|split; [|split; [|split]]].
  - destruct (env_send (oracle idx)); reflexivity.
  - destruct (env_dbErr (oracle idx)); cbn [sent]; rewrite map_app; reflexivity.
  - destruct (env_dbErr (oracle idx)); cbn [persisted sent].
    + rewrite app_nil_r. reflexivity.
    + rewrite map_app. reflexivity.
  - intros clients Hnth Hw.
    assert (Hnew : Forall (childOf clients)
              (sent w ++ [(idx, {| JID := jid; Status := ""; FinishedAt := None;
                 ClientID := c_ID client; ClientName := c_Name client;
                 MultiJobID := Some (mj_JID job);
                 Command := match clientIDCommandMap !! c_ID client with
                            | Some command => command
                            | None => mj_Command job
                            end;
                 Interpreter := mj_Interpreter job; Cwd := mj_Cwd job;
                 IsSudo := mj_IsSudo job; IsScript := mj_IsScript job;
                 HasShebang := mj_HasShebang job; CreatedBy := mj_CreatedBy job;
                 TimeoutSec := mj_TimeoutSec job; PID := None;
                 StartedAt := env_now (oracle idx); Error := ""; Result := None |})])).
    { apply Forall_app. split; [exact Hw|]. constructor; [|constructor].
      exists client. cbn [fst snd]. rewrite Hjid. repeat split; try reflexivity. exact Hnth. }
    destruct (env_dbErr (oracle idx)); exact Hnew.
  - intros clients Hnth Hw.
    destruct (env_dbErr (oracle idx)); cbn [persisted]; [exact Hw|].
    apply Forall_app. split; [exact Hw|]. constructor; [|constructor].
    split.
    + exists client. cbn [fst snd]. rewrite Hjid.
      destruct (env_send (oracle idx)); repeat split; try reflexivity; exact Hnth.
    + unfold persistedAs. cbn [fst snd].
      destruct (env_send (oracle idx)); repeat split; reflexivity.
Qed.

Lemma nth_error_middle {A} (pre : list A) (x : A) (rest : list A) :
  nth_error (pre ++ x :: rest) (length pre) = Some x.
Proof. induction pre as [|y pre IH]; [reflexivity | exact IH]. Qed.

(** Every request a run sends and every child it persists is for the
    target at its position and carries the fields of the job. *)
Lemma executeFrom_children rest :
  forall pre w,
    Forall (childOf (pre ++ rest)) (sent w) ->
    Forall (fun e => childOf (pre ++ rest) e /\ persistedAs e) (persisted w) ->
    let w' := snd (executeFrom (length pre) rest w) in
    Forall (childOf (pre ++ rest)) (sent w')
    /\ Forall (fun e => childOf (pre ++ rest) e /\ persistedAs e) (persisted w').
Proof.
  induction rest as [|client rest IH]; intros pre w Hs Hp; [split; assumption|].
  cbn [executeFrom].
  destruct (createAndRunJob_world (length pre) client w) as (_ & _ & _ & HsA & HpA).
  specialize (HsA (pre ++ client :: rest) (nth_error_middle pre client rest) Hs).
  specialize (HpA (pre ++ client :: rest) (nth_error_middle pre client rest) Hp).
  destruct (createAndRunJob _ _ _ _ _ _ _ _ _ _ _ client w) as [success wA].
  cbn [snd] in HsA, HpA.
  assert (Hrec : let w' := snd (executeFrom (S (length pre)) rest wA) in
                 Forall (childOf (pre ++ client :: rest)) (sent w')
                 /\ Forall (fun e => childOf (pre ++ client :: rest) e /\ persistedAs e)
                           (persisted w')).
  { specialize (IH (pre ++ [client]) wA).
    rewrite <- !app_assoc in IH. cbn [app] in IH.
    rewrite length_app in IH. cbn [length] in IH.
    replace (length pre + 1)%nat with (S (length pre)) in IH by lia.
    exact (IH HsA HpA). }
  destruct (mj_Concurrent job); [exact Hrec|].
  destruct success; cbn [negb].
  - destruct insecureForTests; [exact Hrec|].
    destruct (env_done (oracle (length pre))) as [r|]; [|split; assumption].
    destruct (mj_AbortOnErr job && String.eqb (Status r) JobStatusFailed);
      [split; assumption | exact Hrec].
  - destruct (mj_AbortOnErr job); [split; assumption | exact Hrec].
Qed.

(** X22. In a sequential run, every request sent and every child
    persisted is for the target at its position in the list and carries
    the job id generated for it, the id and the name of that client, the id
    of the multi-client job, the command of the client in the command map
    (the command of the job when it has none), and the interpreter, working
    directory, creator, timeout and flags of the job.  A child is persisted
    as failed, with the error of the send and the instant of the failure,
    when the send failed, and as running, with the process id and the start
    time the client answered, when it did not. *)
Theorem children_carry_job_fields (orderedClients : list Client) :
  mj_Concurrent job = false ->
  let w := snd (executeMultiClientJob orderedClients) in
  Forall (childOf orderedClients) (sent w)
  /\ Forall (fun e => childOf orderedClients e /\ persistedAs e) (persisted w).
Proof.
  intros _.
  exact (executeFrom_children orderedClients [] emptyWorld
           (List.Forall_nil _) (List.Forall_nil _)).
Qed.

Lemma filter_seq_cons (f : nat -> bool) (idx n : nat) :
  List.filter f (seq idx (S n)) = (if f idx then [idx] else []) ++ List.filter f (seq (S idx) n).
Proof. cbn [seq List.filter]. destruct (f idx); reflexivity. Qed.

(** A run that is not cut short takes every target in turn. *)
Lemma executeFrom_all rest :
  forall idx w,
    (mj_Concurrent job = true \/ mj_AbortOnErr job = false) ->
    (forall i, (idx <= i < idx + length rest)%nat -> accepted i = true ->
               env_done (oracle i) <> None) ->
    let r := executeFrom idx rest w in
    fst r = RanAll
    /\ map fst (sent (snd r))
       = map fst (sent w) ++ List.filter withJobID (seq idx (length rest))
    /\ map fst (persisted (snd r))
       = map fst (persisted w) ++ List.filter stored (seq idx (length rest)).
Proof.
  induction rest as [|client rest IH]; intros idx w Hmode Hdone.
  { cbn. rewrite !app_nil_r. auto. }
  cbn [executeFrom length].
  destruct (createAndRunJob_world idx client w) as (Hacc & HsA & HpA & _ & _).
  destruct (createAndRunJob _ _ _ _ _ _ _ _ _ _ _ client w) as [success wA].
  cbn [fst snd] in Hacc, HsA, HpA.
  assert (Hrec : let r := executeFrom (S idx) rest wA in
                 fst r = RanAll
                 /\ map fst (sent (snd r))
                    = map fst (sent w) ++ List.filter withJobID (seq idx (S (length rest)))
                 /\ map fst (persisted (snd r))
                    = map fst (persisted w) ++ List.filter stored (seq idx (S (length rest)))).
  { destruct (IH (S idx) wA Hmode) as (H1 & H2 & H3).
    { intros i Hi. apply Hdone. cbn [length]. lia. }
    rewrite !filter_seq_cons, !app_assoc, <- HsA, <- HpA. auto. }
  destruct (mj_Concurrent job) eqn:Hc; [exact Hrec|].
  assert (Habort : mj_AbortOnErr job = false) by (destruct Hmode; congruence).
  rewrite Habort. cbn [andb].
  destruct success; cbn [negb]; [|exact Hrec].
  destruct insecureForTests eqn:Hins; [exact Hrec|].
  destruct (env_done (oracle idx)) as [res|] eqn:Hd; [exact Hrec|].
  exfalso. apply (Hdone idx); [cbn [length]; lia | congruence | exact Hd].
Qed.

(** X21. A sequential run that does not abort on errors takes every
    target in turn, whatever fails: when a result arrives for every command
    a client accepted, the loop runs to its end, a request is sent, in the
    order of the list and once, for exactly the targets a job id could be
    generated for, and a child is persisted for exactly those of them whose
    child the store accepted. *)
Theorem run_without_abort (orderedClients : list Client) :
  mj_Concurrent job = false ->
  mj_AbortOnErr job = false ->
  (forall i, (i < length orderedClients)%nat -> accepted i = true ->
             env_done (oracle i) <> None) ->
  let r := executeMultiClientJob orderedClients in
  fst r = RanAll
  /\ map fst (sent (snd r)) = List.filter withJobID (seq 0 (length orderedClients))
  /\ map fst (persisted (snd r)) = List.filter stored (seq 0 (length orderedClients)).
Proof.
  intros _ Habort Hdone.
  apply (executeFrom_all orderedClients 0%nat emptyWorld (or_intror Habort)).
  intros i Hi. apply Hdone. lia.
Qed.

End Execute.

Example example_run_persists_A_only :
  map (fun e => (fst e, ClientID (snd e)))
      (persisted (snd (executeMultiClientJob false exampleOracle exampleJob ∅
                                             exampleTargets)))
  = [(0%nat, "A")]
  /\ map (fun e => (fst e, ClientID (snd e)))
         (sent (snd (executeMultiClientJob false exampleOracle exampleJob ∅
                                           exampleTargets)))
     = [(0%nat, "A")].
Proof. split; vm_compute; reflexivity. Qed.

Lemma sequential_abort_stops_witness :
  executeMultiClientJob false exampleOracle exampleJob ∅ exampleTargets
  = executeMultiClientJob false exampleOracle exampleJob ∅ [exampleClient "A"]
  /\ Forall (fun e => (fst e <= 0)%nat)
            (persisted (snd (executeMultiClientJob false exampleOracle exampleJob ∅
                                                   exampleTargets))).
Proof.
  destruct (sequential_abort_stops false exampleOracle exampleJob ∅
              [] (exampleClient "A") [exampleClient "B"; exampleClient "C"]
              eq_refl eq_refl) as (Heq & _ & _ & Hp).
  - right. right. split; [reflexivity|].
    exists (failedResult "child-0" "A"). split; reflexivity.
  - split; [exact Heq | exact Hp].
Defined.

Lemma run_without_abort_witness :
  let r := executeMultiClientJob false exampleOracle patientJob ∅ exampleTargets in
  fst r = RanAll
  /\ map fst (sent (snd r)) = List.filter (withJobID exampleOracle) (seq 0 3)
  /\ map fst (persisted (snd r)) = List.filter (stored exampleOracle) (seq 0 3).
Proof.
  apply (run_without_abort false exampleOracle patientJob ∅ exampleTargets).
  - reflexivity.
  - reflexivity.
  - intros i _ _. discriminate.
Defined.

Lemma children_carry_job_fields_witness :
  Forall (fun e => childOf exampleOracle exampleJob ∅ exampleTargets e
                   /\ persistedAs exampleOracle e)
         (persisted (snd (executeMultiClientJob false exampleOracle exampleJob ∅
                                                exampleTargets))).
Proof.
  exact (proj2 (children_carry_job_fields false exampleOracle exampleJob ∅ exampleTargets
                  eq_refl)).
Defined.

End MultiClientJob.

(* ===================================================================== *)
(** * The multi-client command and script requests
      (server/api_middleware.go) *)
(* ===================================================================== *)

Module MultiClientCommand.
Import GoInt Models Dispatcher MultiClientJob.

(** [multiClientCmdRequest], as [parseRequestBody] fills it from the body
    of the request; [AbortOnError] is a pointer, nil when the field is
    missing. *)
Record multiClientCmdRequest := mkMultiClientCmdRequest {
  req_ClientIDs : list string;
  req_GroupIDs : list string;
  req_Command : string;
  req_Script : string;
  req_Cwd : string;
  req_IsSudo : bool;
  req_Interpreter : string;
  req_TimeoutSec : Z;
  req_ExecuteConcurrently : bool;
  req_AbortOnError : option bool;
  req_IsScript : bool;
  req_HasShebang : bool
}.

(** An error value: one that holds an [errors2.APIError], one that holds a
    list of them ([errors2.APIErrors]), or another error, with its text. *)
Inductive GoError :=
| ErrAPIError (e : APIError)
| ErrAPIErrors (es : list APIError)
| ErrOther (msg : string).

Definition StatusOK : Z := 200.

(** The status code [jsonError] answers an error with. *)
Definition jsonErrorStatus (err : GoError) : Z :=
  match err with
  | ErrAPIError apiErr => HTTPStatus apiErr
  | ErrAPIErrors (apiErr :: _) => HTTPStatus apiErr
  | _ => StatusInternalServerError
  end.

(** What the handler writes: an error by [jsonError], an error with a
    title and a detail, or the id of the new job. *)
Inductive Response :=
| ResponseError (statusCode : Z) (err : GoError)
| ResponseTitle (statusCode : Z) (title detail : string)
| ResponseNewJob (statusCode : Z) (jid : string).

(** The user model: the name is what the handler reads. *)
Record User := mkUser { Username : string }.

(** The call [go al.executeMultiClientJob(job, orderedClients, commands)]. *)
Record Started := mkStarted {
  st_job : MultiJob;
  st_orderedClients : list Client;
  st_clientIDCommandMap : gmap string string
}.

Section Handler.

(** The services behind the listener, whose code is not among the
    sources, and what they answer during the call. *)
Variable ClientGroup : Type.
Variable groupGet : string -> string + option ClientGroup.
Variable GetActiveByGroups : list ClientGroup -> list Client.
Variable GetByID : string -> string + option Client.
Variable quoted : string -> string.
Variable ValidateInterpreter : string -> bool -> option string.
Variable RunRemoteCmdTimeoutSec : Z.
Variable getUserModelForAuth : GoError + User.
Variable CheckClientsAccess : list Client -> User -> option GoError.
Variable generateNewJobID : string + string.
Variable now : Z.
Variable SaveMultiJob : MultiJob -> option string.

Definition minClients : Z := 2.

(** [handlePostMultiClientCommand] on a parsed body: the response, and the
    run it starts, if it starts one. *)
Definition handlePostMultiClientCommand (reqBody : multiClientCmdRequest)
  : Response * option Started :=
  if String.eqb (req_Command reqBody) ""
  then (ResponseTitle StatusBadRequest "Command cannot be empty." "", None)
  else
    match ValidateInterpreter (req_Interpreter reqBody) (req_IsScript reqBody) with
    | Some err => (ResponseTitle StatusBadRequest "Invalid interpreter." err, None)
    | None =>
        let timeoutSec := if req_TimeoutSec reqBody <=? 0 then RunRemoteCmdTimeoutSec
                          else req_TimeoutSec reqBody in
        match getOrderedClients ClientGroup groupGet GetActiveByGroups GetByID quoted
                                (req_ClientIDs reqBody) (req_GroupIDs reqBody) with
        | (_, _, Some err) =>
            (ResponseError (jsonErrorStatus (ErrAPIError err)) (ErrAPIError err), None)
        | (orderedClients, groupClientsCount, None) =>
            if (0 <? Z.of_nat (length (req_GroupIDs reqBody)))
               && (groupClientsCount =? 0)
               && (Z.of_nat (length (req_ClientIDs reqBody)) =? 0)
            then (ResponseTitle StatusBadRequest
                    "No active clients belong to the selected group(s)." "", None)
            else if (Z.of_nat (length (req_ClientIDs reqBody)) <? minClients)
                    && (groupClientsCount =? 0)
            then (ResponseTitle StatusBadRequest
                    ("At least " +:+ FormatInt minClients
                     +:+ " clients should be specified.") "", None)
            else
              let abortOnErr := match req_AbortOnError reqBody with
                                | Some b => b
                                | None => true
                                end in
              match getUserModelForAuth with
              | inl err => (ResponseError (jsonErrorStatus err) err, None)
              | inr curUser =>
                  match CheckClientsAccess orderedClients curUser with
                  | Some err => (ResponseError (jsonErrorStatus err) err, None)
                  | None =>
                      match generateNewJobID with
                      | inl err =>
                          (ResponseError (jsonErrorStatus (ErrOther err)) (ErrOther err),
                           None)
                      | inr jid =>
                          let multiJob :=
                            {| mj_JID := jid; mj_StartedAt := now;
                               mj_CreatedBy := Username curUser;
                               mj_ClientIDs := req_ClientIDs reqBody;
                               mj_GroupIDs := req_GroupIDs reqBody;
                               mj_Command := req_Command reqBody;
                               mj_Interpreter := req_Interpreter reqBody;
                               mj_Cwd := req_Cwd reqBody;
                               mj_IsSudo := req_IsSudo reqBody;
                               mj_IsScript := false;
                               mj_HasShebang := false;
                               mj_TimeoutSec := timeoutSec;
                               mj_Concurrent := req_ExecuteConcurrently reqBody;
                               mj_AbortOnErr := abortOnErr |} in
                          match SaveMultiJob multiJob with
                          | Some err =>
                              (ResponseTitle StatusInternalServerError
                                 "Failed to persist a new multi-client job." err, None)
                          | None =>
                              (ResponseNewJob StatusOK jid,
                               Some {| st_job := multiJob;
                                       st_orderedClients := orderedClients;
                                       st_clientIDCommandMap := ∅ |})
                          end
                      end
                  end
              end
        end
    end.

End Handler.

(** [api.ExecuteInput], with the fields [createScriptOnMultipleClients]
    sets. *)
Record ExecuteInput := mkExecuteInput {
  ei_Command : string;
  ei_Script : string;
  ei_Interpreter : string;
  ei_Cwd : string;
  ei_IsSudo : bool;
  ei_TimeoutSec : Z;
  ei_ClientID : string;
  ei_IsScript : bool
}.

Section Scripts.

Variable ClientGroup : Type.
Variable groupGet : string -> string + option ClientGroup.
Variable GetActiveByGroups : list ClientGroup -> list Client.
Variable GetByID : string -> string + option Client.
Variable quoted : string -> string.
Variable RunRemoteCmdTimeoutSec : Z.

(** [base64.StdEncoding.DecodeString], and the script manager, which
    answers the call for the target at a position with the path of the
    script it created on the client, or with an error. *)
Variable DecodeString : string -> string + string.
Variable CreateScriptOnClient : nat -> ExecuteInput -> Client -> GoError + string.

(** The loop of [createScriptOnMultipleClients] from the target at
    position [idx]: the path of each script is stored under the id of its
    client. *)
Fixpoint createScripts (inboundMsg : multiClientCmdRequest) (idx : nat)
  (orderedClients : list Client) (clientIDCommandMap : gmap string string)
  : GoError + gmap string string :=
  match orderedClients with
  | [] => inr clientIDCommandMap
  | cl :: rest =>
      match CreateScriptOnClient idx
              {| ei_Command := req_Command inboundMsg;
                 ei_Script := req_Script inboundMsg;
                 ei_Interpreter := req_Interpreter inboundMsg;
                 ei_Cwd := req_Cwd inboundMsg;
                 ei_IsSudo := req_IsSudo inboundMsg;
                 ei_TimeoutSec := req_TimeoutSec inboundMsg;
                 ei_ClientID := c_ID cl;
                 ei_IsScript := true |} cl with
      | inl err => inl err
      | inr scriptPath =>
          createScripts inboundMsg (S idx) rest (<[c_ID cl := scriptPath]> clientIDCommandMap)
      end
  end.

(** The message as the function leaves it: the script decoded, marked as
    a script, with the timeout of the configuration when it had none. *)
Definition scriptMessage (inboundMsg : multiClientCmdRequest) (decoded : string)
  : multiClientCmdRequest :=
  {| req_ClientIDs := req_ClientIDs inboundMsg;
     req_GroupIDs := req_GroupIDs inboundMsg;
     req_Command := req_Command inboundMsg;
     req_Script := decoded;
     req_Cwd := req_Cwd inboundMsg;
     req_IsSudo := req_IsSudo inboundMsg;
     req_Interpreter := req_Interpreter inboundMsg;
     req_TimeoutSec := if req_TimeoutSec inboundMsg <=? 0 then RunRemoteCmdTimeoutSec
                       else req_TimeoutSec inboundMsg;
     req_ExecuteConcurrently := req_ExecuteConcurrently inboundMsg;
     req_AbortOnError := req_AbortOnError inboundMsg;
     req_IsScript := true;
     req_HasShebang := req_HasShebang inboundMsg |}.

(** [createScriptOnMultipleClients]: the error, or the number of group
    clients, the command map and the ordered clients it stores in the
    message. *)
Definition createScriptOnMultipleClients (inboundMsg : multiClientCmdRequest)
  : GoError + (Z * gmap string string * list Client) :=
  if String.eqb (req_Script inboundMsg) ""
  then inl (ErrAPIError {| Message := "Missing script body";
                           HTTPStatus := StatusBadRequest |})
  else
    match DecodeString (req_Script inboundMsg) with
    | inl _ =>
        inl (ErrAPIError {| Message := "failed to decode script payload from base64";
                            HTTPStatus := StatusBadRequest |})
    | inr decodedScriptBytes =>
        let msg := scriptMessage inboundMsg decodedScriptBytes in
        match getOrderedClients ClientGroup groupGet GetActiveByGroups GetByID quoted
                                (req_ClientIDs msg) (req_GroupIDs msg) with
        | (_, _, Some err) => inl (ErrAPIError err)
        | (orderedClients, clientsInGroupsCount, None) =>
            match orderedClients with
            | [] => inl (ErrOther "no clients to execute the script for")
            | _ =>
                match createScripts msg 0 orderedClients ∅ with
                | inl err => inl err
                | inr clientIDCommandMap =>
                    inr (clientsInGroupsCount, clientIDCommandMap, orderedClients)
                end
            end
        end
    end.

(** The script created for the target at a position. *)
Definition scriptAt (msg : multiClientCmdRequest) (idx : nat) (cl : Client)
  (scriptPath : string) : Prop :=
  CreateScriptOnClient idx
    {| ei_Command := req_Command msg; ei_Script := req_Script msg;
       ei_Interpreter := req_Interpreter msg; ei_Cwd := req_Cwd msg;
       ei_IsSudo := req_IsSudo msg; ei_TimeoutSec := req_TimeoutSec msg;
       ei_ClientID := c_ID cl; ei_IsScript := true |} cl
  = inr scriptPath.

End Scripts.

(** The services of the examples: every interpreter is valid, the timeout
    of the configuration is one minute, the user is admin and may reach
    every client, the job id is multi-7 and the store accepts the job. *)
Definition exampleHandler : multiClientCmdRequest -> Response * option Started :=
  handlePostMultiClientCommand string exampleGroupGet exampleActiveByGroups exampleGetByID
    (fun s => s) (fun _ _ => None) 60 (inr (mkUser "admin")) (fun _ _ => None)
    (inr "multi-7") 1597831000 (fun _ => None).

(** A request that lists the client c1 twice and nothing else. *)
Definition exampleRequest : multiClientCmdRequest :=
  {| req_ClientIDs := ["c1"; "c1"]; req_GroupIDs := []; req_Command := "/bin/date";
     req_Script := ""; req_Cwd := ""; req_IsSudo := false; req_Interpreter := "";
     req_TimeoutSec := 0; req_ExecuteConcurrently := false; req_AbortOnError := None;
     req_IsScript := false; req_HasShebang := false |}.

(** A script manager that names the script after the position of the
    target, and a decoder that leaves the text as it is. *)
Definition exampleCreateScript (idx : nat) (input : ExecuteInput) (cl : Client)
  : GoError + string :=
  inr ("/tmp/script-" +:+ FormatIntNat idx +:+ ".sh").

Definition exampleScripts : multiClientCmdRequest
                            -> GoError + (Z * gmap string string * list Client) :=
  createScriptOnMultipleClients string exampleGroupGet exampleActiveByGroups exampleGetByID
    (fun s => s) 60 (fun s => inr s) exampleCreateScript.

Definition exampleScriptRequest : multiClientCmdRequest :=
  {| req_ClientIDs := ["c1"; "c1"; "c2"]; req_GroupIDs := []; req_Command := "";
     req_Script := "date"; req_Cwd := ""; req_IsSudo := false; req_Interpreter := "";
     req_TimeoutSec := 0; req_ExecuteConcurrently := false; req_AbortOnError := None;
     req_IsScript := false; req_HasShebang := false |}.

(** ** Properties *)

Section HandlerFacts.

Variable ClientGroup : Type.
Variable groupGet : string -> string + option ClientGroup.
Variable GetActiveByGroups : list ClientGroup -> list Client.
Variable GetByID : string -> string + option Client.
Variable quoted : string -> string.
Variable ValidateInterpreter : string -> bool -> option string.
Variable RunRemoteCmdTimeoutSec : Z.
Variable getUserModelForAuth : GoError + User.
Variable CheckClientsAccess : list Client -> User -> option GoError.
Variable generateNewJobID : string + string.
Variable now : Z.
Variable SaveMultiJob : MultiJob -> option string.

(** X24. [handlePostMultiClientCommand] answers with the id of a new job
    exactly when it starts a run, and then: the job has been stored, the
    command is not empty, the run is over the targets [getOrderedClients]
    resolved, with no command of its own per client, the request listed
    two client ids or more or a group client was found (the ids are
    counted as listed, not the distinct clients), and the job has the
    command, ids, groups and concurrency of the request, aborts on errors
    unless the request says false, and has the timeout of the request when
    that is positive and of the configuration otherwise. *)
Theorem post_multi_client_command (reqBody : multiClientCmdRequest) :
  let '(resp, started) :=
    handlePostMultiClientCommand ClientGroup groupGet GetActiveByGroups GetByID quoted
      ValidateInterpreter RunRemoteCmdTimeoutSec getUserModelForAuth CheckClientsAccess
      generateNewJobID now SaveMultiJob reqBody in
  ((exists jid, resp = ResponseNewJob StatusOK jid) <-> started <> None)
  /\ forall st, started = Some st ->
       resp = ResponseNewJob StatusOK (mj_JID (st_job st))
       /\ SaveMultiJob (st_job st) = None
       /\ st_clientIDCommandMap st = ∅
       /\ req_Command reqBody <> ""
       /\ mj_Command (st_job st) = req_Command reqBody
       /\ mj_ClientIDs (st_job st) = req_ClientIDs reqBody
       /\ mj_GroupIDs (st_job st) = req_GroupIDs reqBody
       /\ mj_Concurrent (st_job st) = req_ExecuteConcurrently reqBody
       /\ mj_AbortOnErr (st_job st)
          = negb (bool_decide (req_AbortOnError reqBody = Some false))
       /\ mj_TimeoutSec (st_job st)
          = (if req_TimeoutSec reqBody <=? 0 then RunRemoteCmdTimeoutSec
             else req_TimeoutSec reqBody)
       /\ (0 < RunRemoteCmdTimeoutSec -> 0 < mj_TimeoutSec (st_job st))
       /\ exists groupClientsCount,
            getOrderedClients ClientGroup groupGet GetActiveByGroups GetByID quoted
                              (req_ClientIDs reqBody) (req_GroupIDs reqBody)
            = (st_orderedClients st, groupClientsCount, None)
            /\ (2 <= Z.of_nat (length (req_ClientIDs reqBody)) \/ groupClientsCount <> 0).
Proof.
  unfold handlePostMultiClientCommand.
  destruct (String.eqb_spec (req_Command reqBody) "") as [Hcmd|Hcmd].
  { split; [split; [intros [jid H]; discriminate H | congruence] | discriminate]. }
  destruct (ValidateInterpreter _ _) as [err|].
  { split; [split; [intros [jid H]; discriminate H | congruence] | discriminate]. }
  destruct (getOrderedClients _ _ _ _ _ _ _) as [[orderedClients n] [err|]] eqn:Hres.
  { split; [split; [intros [jid H]; discriminate H | congruence] | discriminate]. }
  destruct (_ && _ && _) eqn:Hnone.
  { split; [split; [intros [jid H]; discriminate H | congruence] | discriminate]. }
  destruct ((_ <? minClients) && _) eqn:Hmin.
  { split; [split; [intros [jid H]; discriminate H | congruence] | discriminate]. }
  destruct getUserModelForAuth as [err|curUser].
  { split; [split; [intros [jid H]; discriminate H | congruence] | discriminate]. }
  destruct (CheckClientsAccess orderedClients curUser) as [err|].
  { split; [split; [intros [jid H]; discriminate H | congruence] | discriminate]. }
  destruct generateNewJobID as [err|jid].
  { split; [split; [intros [jid H]; discriminate H | congruence] | discriminate]. }
  destruct (SaveMultiJob _) as [err|] eqn:Hsave.
  { split; [split; [intros [jid' H]; discriminate H | congruence] | discriminate]. }
  split; [split; [discriminate | eauto]|].
  intros st [= <-]. cbn [st_job st_orderedClients st_clientIDCommandMap mj_JID mj_Command
                         mj_ClientIDs mj_GroupIDs mj_Concurrent mj_AbortOnErr mj_TimeoutSec].
  repeat (split; [first [reflexivity | assumption]|]).
  split.
  { destruct (req_AbortOnError reqBody) as [[]|]; reflexivity. }
  split; [reflexivity|]. split.
  { intros Hdef. destruct (Z.leb_spec (req_TimeoutSec reqBody) 0); lia. }
  exists n. split; [reflexivity|].
  apply andb_false_iff in Hmin as [Hmin|Hmin].
  - left. apply Z.ltb_ge in Hmin. exact Hmin.
  - right. apply Z.eqb_neq in Hmin. exact Hmin.
Qed.

End HandlerFacts.

Section ScriptsFacts.

Variable ClientGroup : Type.
Variable groupGet : string -> string + option ClientGroup.
Variable GetActiveByGroups : list ClientGroup -> list Client.
Variable GetByID : string -> string + option Client.
Variable quoted : string -> string.
Variable RunRemoteCmdTimeoutSec : Z.
Variable DecodeString : string -> string + string.
Variable CreateScriptOnClient : nat -> ExecuteInput -> Client -> GoError + string.

Lemma createScripts_map msg (clients : list Client) :
  forall idx m0 m,
    createScripts CreateScriptOnClient msg idx clients m0 = inr m ->
    (forall cid, is_Some (m !! cid) <-> is_Some (m0 !! cid) \/ In cid (map c_ID clients))
    /\ (forall i cl,
          nth_error clients i = Some cl ->
          (forall j cl', (i < j)%nat -> nth_error clients j = Some cl' -> c_ID cl' <> c_ID cl) ->
          exists scriptPath,
            scriptAt CreateScriptOnClient msg (idx + i) cl scriptPath /\ m !! c_ID cl = Some scriptPath)
    /\ (forall cid, ~ In cid (map c_ID clients) -> m !! cid = m0 !! cid).
Proof.
  induction clients as [|c rest IH]; intros idx m0 m H; cbn [createScripts] in H.
  - inversion H; subst. split; [|split].
    + intros cid. cbn. tauto.
    + intros [|i] cl Hnth; discriminate Hnth.
    + reflexivity.
  - destruct (CreateScriptOnClient idx _ c) as [err|path] eqn:Hc; [discriminate|].
    destruct (IH _ _ _ H) as (Hdom & Hlast & Hframe).
    split; [|split].
    + intros cid. rewrite Hdom. cbn [map In].
      destruct (decide (c_ID c = cid)) as [->|Hne].
      * rewrite lookup_insert_eq. split; [auto|]. intros _. left. eauto.
      * rewrite lookup_insert_ne by assumption. tauto.
    + intros [|i] cl Hnth Hlater.
      * cbn in Hnth. inversion Hnth; subst cl. exists path.
        rewrite Nat.add_0_r. split; [exact Hc|].
        rewrite Hframe, lookup_insert_eq; [reflexivity|].
        intros Hin. apply in_map_iff in Hin as (c' & Hid & Hin').
        apply In_nth_error in Hin' as (j & Hj).
        exact (Hlater (S j) c' ltac:(lia) Hj Hid).
      * cbn in Hnth. destruct (Hlast i cl Hnth) as (sp & Hsp & Hm).
        { intros j cl' Hj Hnth'. apply (Hlater (S j) cl'); [lia | exact Hnth']. }
        exists sp. replace (idx + S i)%nat with (S idx + i)%nat by lia. auto.
    + intros cid Hnin. rewrite Hframe.
      * apply lookup_insert_ne. intros Heq. apply Hnin. left. exact Heq.
      * intros Hin. apply Hnin. right. exact Hin.
Qed.

(** X27. When [createScriptOnMultipleClients] succeeds, the script was
    not empty and decoded, there is at least one target, and the command
    map has an entry for exactly the ids of the targets: under the id of a
    target it holds the path of the script created for the last target with
    that id, so a run with this map never falls back on the command of the
    job. *)
Theorem script_command_map (inboundMsg : multiClientCmdRequest)
  (n : Z) (m : gmap string string) (orderedClients : list Client) :
  createScriptOnMultipleClients ClientGroup groupGet GetActiveByGroups GetByID quoted
    RunRemoteCmdTimeoutSec DecodeString CreateScriptOnClient inboundMsg
  = inr (n, m, orderedClients) ->
  exists decoded,
    DecodeString (req_Script inboundMsg) = inr decoded
    /\ req_Script inboundMsg <> ""
    /\ orderedClients <> []
    /\ getOrderedClients ClientGroup groupGet GetActiveByGroups GetByID quoted
                         (req_ClientIDs inboundMsg) (req_GroupIDs inboundMsg)
       = (orderedClients, n, None)
    /\ (forall cid, is_Some (m !! cid) <-> In cid (map c_ID orderedClients))
    /\ forall i cl,
         nth_error orderedClients i = Some cl ->
         (forall j cl', (i < j)%nat -> nth_error orderedClients j = Some cl' ->
                        c_ID cl' <> c_ID cl) ->
         exists scriptPath,
           scriptAt CreateScriptOnClient (scriptMessage RunRemoteCmdTimeoutSec inboundMsg decoded)
                    i cl scriptPath
           /\ m !! c_ID cl = Some scriptPath.
Proof.
  unfold createScriptOnMultipleClients.
  destruct (String.eqb_spec (req_Script inboundMsg) "") as [|Hne]; [discriminate|].
  destruct (DecodeString (req_Script inboundMsg)) as [err|decoded]; [discriminate|].
  cbn [scriptMessage req_ClientIDs req_GroupIDs].
  destruct (getOrderedClients _ _ _ _ _ _ _) as [[cls k] [err|]] eqn:Hres; [discriminate|].
  destruct cls as [|c cls]; [discriminate|].
  destruct (createScripts _ _ 0 (c :: cls) ∅) as [err|m'] eqn:Hm; [discriminate|].
  intros [= <- <- <-]. exists decoded.
  destruct (createScripts_map _ _ _ _ _ Hm) as (Hdom & Hlast & _).
  split; [reflexivity|]. split; [exact Hne|]. split; [discriminate|].
  split; [reflexivity|]. split.
  - intros cid. rewrite Hdom, lookup_empty. split; [intros [[x Hx]|H]; [discriminate|exact H] | auto].
  - intros i cl Hnth Hlater. exact (Hlast i cl Hnth Hlater).
Qed.

End ScriptsFacts.

Lemma post_multi_client_command_witness :
  exists st,
    exampleHandler exampleRequest = (ResponseNewJob StatusOK "multi-7", Some st)
    /\ st_orderedClients st = [exampleClient "c1"; exampleClient "c1"]
    /\ mj_AbortOnErr (st_job st) = true
    /\ mj_TimeoutSec (st_job st) = 60.
Proof.
  pose proof (post_multi_client_command string exampleGroupGet exampleActiveByGroups
                exampleGetByID (fun s => s) (fun _ _ => None) 60 (inr (mkUser "admin"))
                (fun _ _ => None) (inr "multi-7") 1597831000 (fun _ => None)
                exampleRequest) as H.
  fold exampleHandler in H.
  destruct (exampleHandler exampleRequest) as [resp [st|]] eqn:E.
  - destruct H as [_ H]. destruct (H st eq_refl)
      as (_ & _ & _ & _ & _ & _ & _ & _ & Habort & Htime & _).
    vm_compute in E. inversion E; subst resp st.
    eexists. split; [reflexivity|]. split; [reflexivity|].
    split; [exact Habort | exact Htime].
  - vm_compute in E. discriminate E.
Defined.

Lemma script_command_map_witness :
  exists m,
    exampleScripts exampleScriptRequest
    = inr (0, m, [exampleClient "c1"; exampleClient "c1"; exampleClient "c2"])
    /\ m !! "c1" = Some "/tmp/script-1.sh"
    /\ m !! "c2" = Some "/tmp/script-2.sh".
Proof.
  set (m := <["c2" := "/tmp/script-2.sh"]>
              (<["c1" := "/tmp/script-1.sh"]>
                 (<["c1" := "/tmp/script-0.sh"]> (∅ : gmap string string)))).
  assert (E : exampleScripts exampleScriptRequest
              = inr (0, m, [exampleClient "c1"; exampleClient "c1"; exampleClient "c2"]))
    by reflexivity.
  exists m. split; [exact E|].
  destruct (script_command_map string exampleGroupGet exampleActiveByGroups exampleGetByID
              (fun s => s) 60 (fun s => inr s) exampleCreateScript exampleScriptRequest
              0 m _ E) as (decoded & _ & _ & _ & _ & _ & Hlast).
  split.
  - destruct (Hlast 1%nat (exampleClient "c1") eq_refl) as (p & Hp & Hm).
    { intros [|[|[|j]]] cl' Hj Hnth; try lia; cbn in Hnth.
      - inversion Hnth; subst. discriminate.
      - destruct j; discriminate Hnth. }
    assert (Hpath : p = "/tmp/script-1.sh")
      by (vm_compute in Hp; inversion Hp; reflexivity).
    subst p. exact Hm.
  - destruct (Hlast 2%nat (exampleClient "c2") eq_refl) as (p & Hp & Hm).
    { intros [|[|[|j]]] cl' Hj Hnth; try lia; cbn in Hnth. destruct j; discriminate Hnth. }
    assert (Hpath : p = "/tmp/script-2.sh")
      by (vm_compute in Hp; inversion Hp; reflexivity).
    subst p. exact Hm.
Defined.

End MultiClientCommand.

(* ===================================================================== *)
(** * The ids of client groups (server/api_middleware.go) *)
(* ===================================================================== *)

Module ClientGroups.
Import GoInt GoStrings.

Definition groupIDMaxLength : Z := 30.
Definition validGroupIDChars : string := "A-Za-z0-9_-*".

(** The bytes the regular expression [[^\*A-Za-z0-9_-]] does not match: the
    star, the letters, the digits, the underscore and the hyphen. *)
Definition validGroupIDChar (c : ascii) : bool :=
  let n := nat_of_ascii c in
  ((n =? 42) || ((65 <=? n) && (n <=? 90)) || ((97 <=? n) && (n <=? 122))
   || ((48 <=? n) && (n <=? 57)) || (n =? 95) || (n =? 45))%nat.

(** [invalidGroupIDRegexp.MatchString(s)]: some character of [s] is not in
    the class.  A byte of 128 or above belongs to a character that is not
    (or to no character, which the matcher reads as U+FFFD). *)
Fixpoint invalidGroupIDRegexp_MatchString (s : string) : bool :=
  match s with
  | EmptyString => false
  | String c s' => negb (validGroupIDChar c) || invalidGroupIDRegexp_MatchString s'
  end.

(** The white space of one byte: tab, line feed, vertical tab, form feed,
    carriage return and the blank. *)
Definition asciiSpace (c : ascii) : bool :=
  let n := nat_of_ascii c in (((9 <=? n) && (n <=? 13)) || (n =? 32))%nat.

(** The white space of two bytes in UTF-8: U+0085 and U+00A0. *)
Definition space2 (c1 c2 : ascii) : bool :=
  ((nat_of_ascii c1 =? 194) && ((nat_of_ascii c2 =? 133) || (nat_of_ascii c2 =? 160)))%nat.

(** The white space of three bytes: U+1680, U+2000 to U+200A, U+2028,
    U+2029, U+202F, U+205F and U+3000. *)
Definition space3 (c1 c2 c3 : ascii) : bool :=
  let a := nat_of_ascii c1 in
  let b := nat_of_ascii c2 in
  let c := nat_of_ascii c3 in
  (((a =? 225) && (b =? 154) && (c =? 128))
   || ((a =? 226) && (b =? 128)
       && (((128 <=? c) && (c <=? 138)) || (c =? 168) || (c =? 169) || (c =? 175)))
   || ((a =? 226) && (b =? 129) && (c =? 159))
   || ((a =? 227) && (b =? 128) && (c =? 128)))%nat.

(** [strings.TrimSpace(s) == ""]: [s] is made of white space
    ([unicode.IsSpace]) only. *)
Fixpoint TrimSpace_isEmpty (s : string) : bool :=
  match s with
  | EmptyString => true
  | String c1 r1 =>
      if asciiSpace c1 then TrimSpace_isEmpty r1
      else match r1 with
           | EmptyString => false
           | String c2 r2 =>
               if space2 c1 c2 then TrimSpace_isEmpty r2
               else match r2 with
                    | EmptyString => false
                    | String c3 r3 =>
                        if space3 c1 c2 c3 then TrimSpace_isEmpty r3 else false
                    end
           end
  end.

Section Validate.

(** The [%q] verb of [fmt.Errorf]. *)
Variable quoted : string -> string.

(** [validateInputClientGroup(group)], which reads the id of the group
    only: the text of the error, or nothing. *)
Definition validateInputClientGroup (ID : string) : option string :=
  if TrimSpace_isEmpty ID then Some "group ID cannot be empty"
  else if groupIDMaxLength <? Z.of_nat (String.length ID)
  then Some ("invalid group ID: max length " +:+ FormatInt groupIDMaxLength
             +:+ ", got " +:+ FormatInt (Z.of_nat (String.length ID)))
  else if invalidGroupIDRegexp_MatchString ID
  then Some ("invalid group ID " +:+ quoted ID +:+ ": can contain only "
             +:+ quoted validGroupIDChars)
  else None.

End Validate.

(** The bytes of a string. *)
Fixpoint bytesOf (s : string) : list ascii :=
  match s with
  | EmptyString => []
  | String c s' => c :: bytesOf s'
  end.

(** ** Properties *)

Lemma MatchString_spec (s : string) :
  invalidGroupIDRegexp_MatchString s = false
  <-> Forall (fun c => validGroupIDChar c = true) (bytesOf s).
Proof.
  induction s as [|c s IH]; cbn [invalidGroupIDRegexp_MatchString bytesOf].
  - split; [constructor | reflexivity].
  - rewrite orb_false_iff, negb_false_iff, IH. split.
    + intros [Hc Hs]. constructor; assumption.
    + intros H. inversion H; subst. split; assumption.
Qed.

Lemma valid_char_not_space (c : ascii) (rest : string) :
  validGroupIDChar c = true -> TrimSpace_isEmpty (String c rest) = false.
Proof.
  intros Hc.
  assert (Hs : asciiSpace c = false /\ (forall c2, space2 c c2 = false)
               /\ (forall c2 c3, space3 c c2 c3 = false)).
  { destruct c as [[] [] [] [] [] [] [] []]; try discriminate Hc;
      (split; [reflexivity|split; intros; reflexivity]). }
  destruct Hs as (H1 & H2 & H3). cbn [TrimSpace_isEmpty]. rewrite H1.
  destruct rest as [|c2 r2]; [reflexivity|]. rewrite H2.
  destruct r2 as [|c3 r3]; [reflexivity|]. rewrite H3. reflexivity.
Qed.

(** X25. [validateInputClientGroup] accepts a group id exactly when it is
    not empty, has at most 30 bytes and consists of letters, digits,
    underscores, hyphens and stars; an id made of white space only is
    refused as empty, whatever its length. *)
Theorem validate_group_id (quoted : string -> string) (ID : string) :
  (validateInputClientGroup quoted ID = None
   <-> ID <> ""
       /\ (String.length ID <= 30)%nat
       /\ Forall (fun c => validGroupIDChar c = true) (bytesOf ID))
  /\ (TrimSpace_isEmpty ID = true ->
      validateInputClientGroup quoted ID = Some "group ID cannot be empty").
Proof.
  unfold validateInputClientGroup, groupIDMaxLength. split.
  - split.
    + destruct (TrimSpace_isEmpty ID) eqn:Hblank; [discriminate|].
      destruct (Z.ltb_spec 30 (Z.of_nat (String.length ID))) as [Hlen|Hlen]; [discriminate|].
      destruct (invalidGroupIDRegexp_MatchString ID) eqn:Hre; [discriminate|].
      intros _. split; [|split].
      * intros ->. discriminate Hblank.
      * lia.
      * apply MatchString_spec. exact Hre.
    + intros (Hne & Hlen & Hall).
      destruct ID as [|c rest]; [congruence|].
      assert (Hc : validGroupIDChar c = true) by (inversion Hall; assumption).
      rewrite (valid_char_not_space c rest Hc).
      destruct (Z.ltb_spec 30 (Z.of_nat (String.length (String c rest)))) as [Hl|_]; [lia|].
      rewrite (proj2 (MatchString_spec (String c rest)) Hall). reflexivity.
  - intros ->. reflexivity.
Qed.

Lemma validate_group_id_witness :
  validateInputClientGroup (fun s => s) "web-servers_*" = None
  /\ validateInputClientGroup (fun s => s) "   " = Some "group ID cannot be empty".
Proof.
  destruct (validate_group_id (fun s => s) "web-servers_*") as [[_ Hok] _].
  destruct (validate_group_id (fun s => s) "   ") as [_ Hblank].
  split.
  - apply Hok. split; [discriminate|]. split; [vm_compute; lia|].
    repeat constructor.
  - apply Hblank. reflexivity.
Defined.

End ClientGroups.

(* ===================================================================== *)
(** * Go's package net: addresses, masks and their parsers *)
(* ===================================================================== *)

Module GoNet.
Import GoStrings.

(** [net.IP] and [net.IPMask] are byte slices; a byte is an integer from 0
    to 255.  A nil slice is [None] where the code tests for it. *)
Definition IP := list Z.
Definition IPMask := list Z.

Record IPNet := mkIPNet {
  net_IP : IP;
  net_Mask : IPMask
}.

Definition IPv4len : nat := 4.
Definition IPv6len : nat := 16.

Definition v4InV6Prefix : list Z := [0; 0; 0; 0; 0; 0; 0; 0; 0; 0; 255; 255].

(** [net.IPv4(a, b, c, d)]: the 16-byte form of an IPv4 address. *)
Definition IPv4 (a b c d : Z) : IP := v4InV6Prefix ++ [a; b; c; d].

Definition IPv4zero : IP := IPv4 0 0 0 0.

Definition IPv4Mask (a b c d : Z) : IPMask := [a; b; c; d].

Definition bytes_eqb (x y : list Z) : bool :=
  (length x =? length y)%nat && forallb (fun p => fst p =? snd p) (combine x y).

(** [ip.To4()]. *)
Definition To4 (ip : IP) : option IP :=
  if (length ip =? IPv4len)%nat then Some ip
  else if (length ip =? IPv6len)%nat && bytes_eqb (firstn 12 ip) v4InV6Prefix
       then Some (skipn 12 ip)
       else None.

(** [ip.Equal(x)]. *)
Definition Equal (ip x : IP) : bool :=
  if (length ip =? length x)%nat then bytes_eqb ip x
  else if (length ip =? IPv4len)%nat && (length x =? IPv6len)%nat
       then bytes_eqb (firstn 12 x) v4InV6Prefix && bytes_eqb ip (skipn 12 x)
       else if (length ip =? IPv6len)%nat && (length x =? IPv4len)%nat
            then bytes_eqb (firstn 12 ip) v4InV6Prefix && bytes_eqb (skipn 12 ip) x
            else false.

(** [net.CIDRMask(ones, bits)]: [ones] one-bits followed by zero-bits. *)
Fixpoint cidrMaskBytes (l : nat) (n : Z) : IPMask :=
  match l with
  | O => []
  | S l' =>
      if 8 <=? n then 255 :: cidrMaskBytes l' (n - 8)
      else (255 - Z.shiftr 255 n) :: cidrMaskBytes l' 0
  end.

Definition CIDRMask (ones bits : Z) : option IPMask :=
  if negb (bits =? 32) && negb (bits =? 128) then None
  else if (ones <? 0) || (bits <? ones) then None
  else Some (cidrMaskBytes (Z.to_nat (bits / 8)) ones).

Definition allFF (b : list Z) : bool := forallb (fun c => c =? 255) b.

(** [ip.Mask(mask)]. *)
Definition Mask (ip : IP) (mask : IPMask) : option IP :=
  let mask := if (length mask =? IPv6len)%nat && (length ip =? IPv4len)%nat
                 && allFF (firstn 12 mask)
              then skipn 12 mask else mask in
  let ip := if (length mask =? IPv4len)%nat && (length ip =? IPv6len)%nat
               && bytes_eqb (firstn 12 ip) v4InV6Prefix
            then skipn 12 ip else ip in
  if (length ip =? length mask)%nat
  then Some (map (fun p => Z.land (fst p) (snd p)) (combine ip mask))
  else None.

(** [networkNumberAndMask(n)]; nothing stands for the pair of nil
    slices. *)
Definition networkNumberAndMask (n : IPNet) : option (IP * IPMask) :=
  let ip := match To4 (net_IP n) with
            | Some ip4 => Some ip4
            | None => if (length (net_IP n) =? IPv6len)%nat then Some (net_IP n)
                      else None
            end in
  match ip with
  | None => None
  | Some ip =>
      let m := net_Mask n in
      if (length m =? IPv4len)%nat
      then (if negb (length ip =? IPv4len)%nat then None else Some (ip, m))
      else if (length m =? IPv6len)%nat
           then (if (length ip =? IPv4len)%nat then Some (ip, skipn 12 m)
                 else Some (ip, m))
           else None
  end.

(** [n.Contains(ip)]. *)
Definition Contains (n : IPNet) (ip : IP) : bool :=
  let '(nn, m) := match networkNumberAndMask n with
                  | Some r => r
                  | None => ([], [])
                  end in
  let ip := match To4 ip with Some x => x | None => ip end in
  if negb (length ip =? length nn)%nat then false
  else forallb (fun t => Z.land (fst (fst t)) (snd t) =? Z.land (snd (fst t)) (snd t))
               (combine (combine nn ip) m).

(** The digits. *)
Definition is_digit (c : ascii) : bool :=
  let n := nat_of_ascii c in ((48 <=? n) && (n <=? 57))%nat.

Definition digit_val (c : ascii) : Z := Z.of_nat (nat_of_ascii c) - 48.

Definition big : Z := 16777215.   (* 0xFFFFFF *)

(** The loop of [dtoi(s)]: [n] is the number read so far, [i] the number of
    bytes read. *)
Fixpoint dtoi_from (s : string) (n : Z) (i : nat) : Z * nat * bool :=
  match s with
  | String c s' =>
      if is_digit c
      then let n' := n * 10 + digit_val c in
           if big <=? n' then (big, i, false) else dtoi_from s' n' (S i)
      else if (i =? 0)%nat then (0, O, false) else (n, i, true)
  | EmptyString => if (i =? 0)%nat then (0, O, false) else (n, i, true)
  end.

(** [dtoi(s)]: the decimal number at the start of [s], the number of bytes
    it takes, and whether there is one (below [big]). *)
Definition dtoi (s : string) : Z * nat * bool := dtoi_from s 0 0.

Definition starts_with (c : ascii) (s : string) : bool :=
  match s with
  | String c' _ => Ascii.eqb c' c
  | EmptyString => false
  end.

(** The loop of [parseIPv4]: [k] octets are still to be read, [i] have been
    read into [p]. *)
Fixpoint parseIPv4_from (k i : nat) (s : string) (p : list Z) : option (list Z) :=
  match k with
  | O => match s with EmptyString => Some p | _ => None end
  | S k' =>
      match s with
      | EmptyString => None
      | String c0 rest =>
          let after_dot :=
            if (i =? 0)%nat then Some s
            else if Ascii.eqb c0 "." then Some rest else None in
          match after_dot with
          | None => None
          | Some s1 =>
              let '(n, c, ok) := dtoi s1 in
              if negb ok || (255 <? n) then None
              else if (1 <? c)%nat && starts_with "0" s1 then None
              else parseIPv4_from k' (S i) (drop_bytes c s1) (p ++ [n])
          end
      end
  end.

(** [parseIPv4(s)] (Go 1.17: an octet with a leading zero is rejected). *)
Definition parseIPv4 (s : string) : option IP :=
  match parseIPv4_from 4 0 s [] with
  | Some [a; b; c; d] => Some (IPv4 a b c d)
  | _ => None
  end.

(** The first of '.' and ':' in a string. *)
Fixpoint first_separator (s : string) : option ascii :=
  match s with
  | EmptyString => None
  | String c s' =>
      if Ascii.eqb c "." then Some c
      else if Ascii.eqb c ":" then Some c
      else first_separator s'
  end.

(** [s[:i]] and [s[i+1:]] for the first index [i] of a byte in [s]. *)
Fixpoint cut (sep : ascii) (s : string) : option (string * string) :=
  match s with
  | EmptyString => None
  | String c s' =>
      if Ascii.eqb c sep then Some (EmptyString, s')
      else match cut sep s' with
           | Some (before, after) => Some (String c before, after)
           | None => None
           end
  end.

Section Parsers.

(** [parseIPv6] of package net is an argument of the two functions that
    call it, so that what is proved of IPv4 text, which never reaches it,
    holds whatever it returns; the function itself follows the section. *)
Variable parseIPv6 : string -> option IP.

(** [net.ParseIP(s)]. *)
Definition ParseIP (s : string) : option IP :=
  match first_separator s with
  | Some c => if Ascii.eqb c "." then parseIPv4 s else parseIPv6 s
  | None => None
  end.

(** [net.ParseCIDR(s)]: the address and the network, or nothing for the
    parse error. *)
Definition ParseCIDR (s : string) : option (IP * IPNet) :=
  match cut "/" s with
  | None => None
  | Some (addr, mask) =>
      let '(ip, iplen) :=
        match parseIPv4 addr with
        | Some ip => (Some ip, 4)
        | None => (parseIPv6 addr, 16)
        end in
      let '(n, i, ok) := dtoi mask in
      match ip with
      | None => None
      | Some ip =>
          if negb ok || negb (i =? String.length mask)%nat || (n <? 0)
             || (8 * iplen <? n)
          then None
          else
            let m := match CIDRMask n (8 * iplen) with
                     | Some m => m
                     | None => []
                     end in
            let masked := match Mask ip m with
                          | Some masked => masked
                          | None => []
                          end in
            Some (ip, {| net_IP := masked; net_Mask := m |})
      end
  end.

End Parsers.

(** *** The IPv6 notation

    [parseIPv6] as package net has it; [ParseIP] and [ParseCIDR] above take
    it as an argument. *)

(** The value of a hexadecimal digit, of either case. *)
Definition hex_val (c : ascii) : option Z :=
  let n := Z.of_nat (nat_of_ascii c) in
  if (48 <=? n) && (n <=? 57) then Some (n - 48)
  else if (97 <=? n) && (n <=? 102) then Some (n - 97 + 10)
  else if (65 <=? n) && (n <=? 70) then Some (n - 65 + 10)
  else None.

(** The loop of [xtoi(s)]: [n] is the number read so far, [i] the number of
    bytes read. *)
Fixpoint xtoi_from (s : string) (n : Z) (i : nat) : Z * nat * bool :=
  match s with
  | String c s' =>
      match hex_val c with
      | Some v =>
          let n' := n * 16 + v in
          if big <=? n' then (0, i, false) else xtoi_from s' n' (S i)
      | None => if (i =? 0)%nat then (0, i, false) else (n, i, true)
      end
  | EmptyString => if (i =? 0)%nat then (0, i, false) else (n, i, true)
  end.

(** [xtoi(s)]: the hexadecimal number at the start of [s], the number of
    bytes it takes, and whether there is one (below [big]). *)
Definition xtoi (s : string) : Z * nat * bool := xtoi_from s 0 0.

(** The loop [for j := i - 1; j >= ellipsis; j-- { ip[j+n] = ip[j] }] of
    [parseIPv6]; [count] is the number of turns left, [j] the index of the
    turn. *)
Fixpoint moveUp (count j n : nat) (ip : list Z) : list Z :=
  match count with
  | O => ip
  | S count' => moveUp count' (j - 1) n (<[(j + n)%nat := nth j ip 0]> ip)
  end.

(** The loop [for j := ellipsis + n - 1; j >= ellipsis; j-- { ip[j] = 0 }]. *)
Fixpoint zeroDown (count j : nat) (ip : list Z) : list Z :=
  match count with
  | O => ip
  | S count' => zeroDown count' (j - 1) (<[j := 0]> ip)
  end.

(** The main loop of [parseIPv6], [for i < IPv6len].  Every turn that goes
    on to the next one has stored one 16-bit chunk, so the turns are counted
    by [k], the chunks for which there is room: [i] is [IPv6len - 2 * k].
    [ellipsis] is -1 until the ellipsis is read.  The result is nothing for
    [return nil], else [ip], [s], [i] and [ellipsis] where the loop ends. *)
Fixpoint parseIPv6_loop (k : nat) (ip : list Z) (s : string) (ellipsis : Z)
  : option (list Z * string * nat * Z) :=
  let i := (IPv6len - 2 * k)%nat in
  match k with
  | O => Some (ip, s, i, ellipsis)
  | S k' =>
      let '(n, c, ok) := xtoi s in
      if negb ok || (65535 <? n) then None
      else if starts_with "." (drop_bytes c s)
      then
        if (ellipsis <? 0) && negb (i =? IPv6len - IPv4len)%nat then None
        else if (IPv6len <? i + IPv4len)%nat then None
        else match parseIPv4 s with
             | None => None
             | Some ip4 =>
                 Some (<[(i + 3)%nat := nth 15 ip4 0]>
                         (<[(i + 2)%nat := nth 14 ip4 0]>
                            (<[(i + 1)%nat := nth 13 ip4 0]>
                               (<[i := nth 12 ip4 0]> ip))),
                       EmptyString, (i + IPv4len)%nat, ellipsis)
             end
      else
        let ip := <[(i + 1)%nat := Z.land n 255]>
                    (<[i := Z.land (Z.shiftr n 8) 255]> ip) in
        let i := (i + 2)%nat in
        match drop_bytes c s with
        | EmptyString => Some (ip, EmptyString, i, ellipsis)
        | String c0 s1 =>
            if negb (Ascii.eqb c0 ":") || (String.length s1 =? 0)%nat then None
            else if starts_with ":" s1
                 then if 0 <=? ellipsis then None
                      else match drop_bytes 1 s1 with
                           | EmptyString => Some (ip, EmptyString, i, Z.of_nat i)
                           | s2 => parseIPv6_loop k' ip s2 (Z.of_nat i)
                           end
                 else parseIPv6_loop k' ip s1 ellipsis
        end
  end.

(** [parseIPv6(s)] (Go 1.17): the 16 bytes of the address, or nothing. *)
Definition parseIPv6 (s : string) : option IP :=
  let ip := repeat 0 IPv6len in
  let leading := (2 <=? String.length s)%nat && starts_with ":" s
                 && starts_with ":" (drop_bytes 1 s) in
  let ellipsis := if leading then 0 else -1 in
  let s := if leading then drop_bytes 2 s else s in
  if leading && (String.length s =? 0)%nat then Some ip
  else
    match parseIPv6_loop (IPv6len / 2) ip s ellipsis with
    | None => None
    | Some (ip, s, i, ellipsis) =>
        if negb (String.length s =? 0)%nat then None
        else if (i <? IPv6len)%nat
             then if ellipsis <? 0 then None
                  else
                    let e := Z.to_nat ellipsis in
                    let n := (IPv6len - i)%nat in
                    Some (zeroDown n (e + n - 1)
                            (moveUp (i - e) (i - 1) n ip))
             else if 0 <=? ellipsis then None else Some ip
    end.

End GoNet.

(* ===================================================================== *)
(** * server/clients/tunnel_acl.go *)
(* ===================================================================== *)

Module TunnelACL.
Import GoInt GoStrings GoNet.

Record TunnelACL := mkTunnelACL {
  AllowedIPs : list IPNet
}.

(** [CheckAccess]: a list with no entry allows every address. *)
Definition CheckAccess (a : TunnelACL) (ip : IP) : bool :=
  match AllowedIPs a with
  | [] => true
  | allowed => existsb (fun n => Contains n ip) allowed
  end.

(** Modelled from the spec: the guard of the tunnel's accept loop, which is
    not among the sources; of the nil list [ParseTunnelACL] returns for the
    empty string the specification says "An empty ACL means allow-all". *)
Definition allows (acl : option TunnelACL) (ip : IP) : bool :=
  match acl with
  | None => true
  | Some a => CheckAccess a ip
  end.

(** The message of the error for the address 0.0.0.0. *)
Definition zeroMessage : string :=
  "0.0.0.0 would allow access to everyone. If that's what you want, do not set the ACL".

Section Parse.

Variable parseIPv6 : string -> option IP.

(** [parseIPNet(strVal)]: the network, or the message of the error. *)
Definition parseIPNet (strVal : string) : string + IPNet :=
  let parsed : string + (IP * option IPNet) :=
    if ContainsRune strVal "/"
    then match ParseCIDR parseIPv6 strVal with
         | None => inl ("invalid CIDR address: " +:+ strVal)
         | Some (ip, ipNet) => inr (ip, Some ipNet)
         end
    else match ParseIP parseIPv6 strVal with
         | None => inl ("invalid IP addr: " +:+ strVal)
         | Some ip => inr (ip, None)
         end in
  match parsed with
  | inl err => inl err
  | inr (ip, ipNet) =>
      match To4 ip with
      | None => inl (strVal +:+ " is not IPv4 address")
      | Some _ =>
          if Equal ip IPv4zero
          then inl zeroMessage
          else match ipNet with
               | Some ipNet => inr ipNet
               | None => inr {| net_IP := ip; net_Mask := IPv4Mask 255 255 255 255 |}
               end
      end
  end.

(** The loop of [ParseTunnelACL] over the comma-separated values. *)
Fixpoint parseValues (values : list string) (allowedIPs : list IPNet)
  : string + list IPNet :=
  match values with
  | [] => inr allowedIPs
  | strVal :: rest =>
      match parseIPNet strVal with
      | inl err => inl err
      | inr ipNet => parseValues rest (allowedIPs ++ [ipNet])
      end
  end.

(** [ParseTunnelACL(str)]: nil (no list) for the empty string. *)
Definition ParseTunnelACL (str : string) : string + option TunnelACL :=
  match str with
  | EmptyString => inr None
  | _ =>
      match parseValues (Split str ",") [] with
      | inl err => inl err
      | inr allowedIPs => inr (Some {| AllowedIPs := allowedIPs |})
      end
  end.

(** [AddACL(aclStr)]: the network of the text is appended to the list.  The
    error of [parseIPNet] is dropped and the result dereferenced: for a text
    that does not parse the call panics on the nil pointer, which is
    [None] here. *)
Definition AddACL (a : TunnelACL) (aclStr : string) : option TunnelACL :=
  match parseIPNet aclStr with
  | inl _ => None
  | inr lh => Some {| AllowedIPs := AllowedIPs a ++ [lh] |}
  end.

End Parse.

(** ** The lists of the specification *)

(** An entry of an ACL as the specification describes it: a dotted quad
    with an optional prefix length. *)
Record Entry := mkEntry {
  e_a : Z; e_b : Z; e_c : Z; e_d : Z;
  e_prefix : option Z
}.

Definition octet (n : Z) : Prop := 0 <= n <= 255.

(** An entry has the shape of an IPv4 CIDR: four octets and, when there is
    one, a prefix length from 0 to 32. *)
Definition shapedEntry (e : Entry) : Prop :=
  octet (e_a e) /\ octet (e_b e) /\ octet (e_c e) /\ octet (e_d e)
  /\ match e_prefix e with
     | Some p => 0 <= p <= 32
     | None => True
     end.

(** The address of the entry is 0.0.0.0. *)
Definition zeroEntry (e : Entry) : Prop :=
  (e_a e, e_b e, e_c e, e_d e) = (0, 0, 0, 0).

(** The entries the parser accepts. *)
Definition validEntry (e : Entry) : Prop := shapedEntry e /\ ~ zeroEntry e.

(** The text of an entry, numbers in decimal. *)
Definition renderEntry (e : Entry) : string :=
  GoInt.FormatInt (e_a e) +:+ "." +:+ GoInt.FormatInt (e_b e) +:+ "."
  +:+ GoInt.FormatInt (e_c e) +:+ "." +:+ GoInt.FormatInt (e_d e)
  +:+ match e_prefix e with
      | Some p => "/" +:+ GoInt.FormatInt p
      | None => ""
      end.

Definition renderACL (es : list Entry) : string := Join (map renderEntry es) ",".

(** An address as a number: the four bytes, most significant first. *)
Definition addr32 (a b c d : Z) : Z := a * 2 ^ 24 + b * 2 ^ 16 + c * 2 ^ 8 + d.

Definition prefixLength (e : Entry) : Z :=
  match e_prefix e with Some p => p | None => 32 end.

(** An address is in the CIDR of an entry when it is an IPv4 address (of 4
    bytes, or of 16 bytes in the IPv4-mapped form) whose first
    [prefixLength e] bits are those of the entry's address. *)
Definition inCIDR (e : Entry) (ip : IP) : Prop :=
  exists x y z w,
    To4 ip = Some [x; y; z; w]
    /\ addr32 x y z w / 2 ^ (32 - prefixLength e)
       = addr32 (e_a e) (e_b e) (e_c e) (e_d e) / 2 ^ (32 - prefixLength e).

(** The bytes of an address are bytes. *)
Definition wellFormedIP (ip : IP) : Prop := Forall (fun b => 0 <= b <= 255) ip.

(** A string of decimal digits. *)
Fixpoint all_digits (s : string) : bool :=
  match s with
  | EmptyString => true
  | String c s' => is_digit c && all_digits s'
  end.

(** The number a string of digits denotes, read after the number [acc]. *)
Fixpoint dec_val (s : string) (acc : Z) : Z :=
  match s with
  | EmptyString => acc
  | String c s' => dec_val s' (acc * 10 + digit_val c)
  end.

(** The number a string of decimal digits denotes when read as hexadecimal,
    after the number [acc]. *)
Fixpoint hex_acc (s : string) (acc : Z) : Z :=
  match s with
  | EmptyString => acc
  | String c s' => hex_acc s' (acc * 16 + digit_val c)
  end.

(** What may follow a number: the end of the string, or a byte that is no
    digit. *)
Definition rest_ok (rest : string) : Prop :=
  match rest with String c _ => is_digit c = false | EmptyString => True end.

(** The dotted quad of four numbers. *)
Definition quadText (a b c d : Z) : string :=
  FormatInt a +:+ "." +:+ FormatInt b +:+ "." +:+ FormatInt c +:+ "." +:+ FormatInt d.

(** The text of an IPv4-mapped address in the IPv6 notation. *)
Definition mappedText (a b c d : Z) : string := "::ffff:" +:+ quadText a b c d.

(** The bytes of the masks of [CIDRMask]: the first bits set. *)
Definition byteMasks : list Z := [0; 128; 192; 224; 240; 248; 252; 254; 255].

(** A byte and-ed with such a mask is the byte without its last bits;
    checked on every byte and every mask. *)
Definition land_table_ok : bool :=
  forallb (fun m => forallb (fun v => Z.land v m =? (256 - m) * (v / (256 - m)))
                            (map Z.of_nat (seq 0 256)))
          byteMasks.

(** The network [parseIPNet] builds for an entry: the masked address and
    the mask of the prefix; for an entry without a prefix, the address in
    its 16-byte form and the mask of 32 bits. *)
Definition netOf (e : Entry) : IPNet :=
  match e_prefix e with
  | Some p =>
      {| net_IP := map (fun q => Z.land (fst q) (snd q))
                       (combine [e_a e; e_b e; e_c e; e_d e] (cidrMaskBytes 4 p));
         net_Mask := cidrMaskBytes 4 p |}
  | None =>
      {| net_IP := IPv4 (e_a e) (e_b e) (e_c e) (e_d e);
         net_Mask := IPv4Mask 255 255 255 255 |}
  end.

(** The list of the specification's scenario: "10.0.0.1,10.0.0.0/24". *)
Definition exampleEntries : list Entry :=
  [ mkEntry 10 0 0 1 None; mkEntry 10 0 0 0 (Some 24) ].

(** A parser of the IPv6 notation that accepts nothing. *)
Definition noIPv6 (s : string) : option IP := None.

(** The address of package clients for the local host. *)
Definition LocalHost : string := "127.0.0.1".

(** ** Properties *)

Lemma is_digit_val c : is_digit c = true -> 0 <= digit_val c <= 9.
Proof.
  unfold is_digit, digit_val. intros H.
  apply andb_true_iff in H as [H1 H2].
  apply Nat.leb_le in H1, H2. lia.
Qed.

Lemma dec_val_mono s : forall n, all_digits s = true -> 0 <= n -> n <= dec_val s n.
Proof.
  induction s as [|c s IH]; intros n Hd Hn; simpl in *; [lia|].
  apply andb_true_iff in Hd as [Hc Hs].
  pose proof (is_digit_val c Hc).
  specialize (IH (n * 10 + digit_val c) Hs ltac:(lia)). lia.
Qed.

Lemma dtoi_from_digits s : forall rest n i,
  all_digits s = true ->
  match rest with String c _ => is_digit c = false | EmptyString => True end ->
  0 <= n -> dec_val s n < big ->
  (s <> EmptyString \/ i <> O) ->
  dtoi_from (s +:+ rest) n i = (dec_val s n, (i + String.length s)%nat, true).
Proof.
  induction s as [|c s IH]; intros rest n i Hd Hrest Hn Hbig Hne.
  - simpl. destruct Hne as [Hne|Hne]; [congruence|].
    rewrite Nat.add_0_r.
    destruct rest as [|c r]; simpl.
    + destruct (Nat.eqb_spec i 0); [contradiction | reflexivity].
    + rewrite Hrest. destruct (Nat.eqb_spec i 0); [contradiction | reflexivity].
  - simpl in Hd. apply andb_true_iff in Hd as [Hc Hs].
    pose proof (is_digit_val c Hc) as Hv.
    simpl. rewrite Hc. simpl in Hbig.
    pose proof (dec_val_mono s (n * 10 + digit_val c) Hs ltac:(lia)) as Hm.
    destruct (Z.leb_spec big (n * 10 + digit_val c)); [lia|].
    rewrite (IH rest (n * 10 + digit_val c) (S i) Hs Hrest ltac:(lia) Hbig
                (or_intror (Nat.neq_succ_0 i))).
    do 2 f_equal. lia.
Qed.

Lemma string_of_uint_digits d : all_digits (NilEmpty.string_of_uint d) = true.
Proof. induction d; simpl; try rewrite IHd; reflexivity. Qed.

Lemma dec_val_uint_acc d : forall acc,
  dec_val (NilEmpty.string_of_uint d) (Zpos acc) = Zpos (Pos.of_uint_acc d acc).
Proof.
  induction d; intros acc; simpl; try reflexivity.
  all: rewrite <- IHd; f_equal.
  all: match goal with
       | |- context [digit_val ?c] =>
           let v := eval vm_compute in (digit_val c) in change (digit_val c) with v
       end; lia.
Qed.

Lemma dec_val_uint d : dec_val (NilEmpty.string_of_uint d) 0 = Z.of_N (Pos.of_uint d).
Proof.
  induction d; simpl; try reflexivity; try exact IHd.
  all: match goal with
       | |- context [digit_val ?c] =>
           let v := eval vm_compute in (digit_val c) in change (digit_val c) with v
       end; apply dec_val_uint_acc.
Qed.

Lemma FormatInt_pos p : FormatInt (Zpos p) = NilEmpty.string_of_uint (Pos.to_uint p).
Proof.
  unfold FormatInt. simpl. unfold NilZero.string_of_uint.
  destruct (Pos.to_uint p) eqn:E; try reflexivity.
  exfalso. exact (Unsigned.to_uint_nonnil p E).
Qed.

Lemma FormatInt_digits n : 0 <= n -> all_digits (FormatInt n) = true.
Proof.
  intros Hn. destruct n as [|p|p]; [reflexivity| |lia].
  rewrite FormatInt_pos. apply string_of_uint_digits.
Qed.

Lemma dec_val_FormatInt n : 0 <= n -> dec_val (FormatInt n) 0 = n.
Proof.
  intros Hn. destruct n as [|p|p]; [reflexivity| |lia].
  rewrite FormatInt_pos, dec_val_uint, Unsigned.of_to. reflexivity.
Qed.

Lemma FormatInt_nonempty n : FormatInt n <> EmptyString.
Proof.
  destruct n as [|p|p]; try discriminate.
  rewrite FormatInt_pos. destruct (Pos.to_uint p) eqn:E; try discriminate.
  exfalso. exact (Unsigned.to_uint_nonnil p E).
Qed.

Lemma nzhead_no_zero d d' : Decimal.nzhead d <> Decimal.D0 d'.
Proof. induction d; simpl; try discriminate. exact IHd. Qed.

Lemma FormatInt_leading_zero n :
  0 <= n -> starts_with "0" (FormatInt n) = true -> n = 0.
Proof.
  intros Hn Hz. destruct n as [|p|p]; [reflexivity| |lia]. exfalso.
  rewrite FormatInt_pos in Hz.
  pose proof (Unsigned.to_of (Pos.to_uint p)) as Hnorm.
  rewrite Unsigned.of_to in Hnorm. simpl in Hnorm.
  destruct (Pos.to_uint p) as [|d|d|d|d|d|d|d|d|d|d] eqn:E; simpl in Hz; try discriminate.
  unfold Decimal.unorm in Hnorm.
  destruct (Decimal.nzhead (Decimal.D0 d)) eqn:Hh;
    try (exact (nzhead_no_zero _ _ Hh)); try discriminate Hnorm.
  apply (Unsigned.to_uint_nonzero p). rewrite E. exact Hnorm.
Qed.

(** dtoi of a rendered number followed by something that is no digit *)
Lemma dtoi_FormatInt n rest :
  0 <= n < big ->
  match rest with String c _ => is_digit c = false | EmptyString => True end ->
  dtoi (FormatInt n +:+ rest) = (n, String.length (FormatInt n), true).
Proof.
  intros Hn Hrest. unfold dtoi.
  rewrite dtoi_from_digits; try assumption.
  - rewrite dec_val_FormatInt by lia. reflexivity.
  - apply FormatInt_digits; lia.
  - lia.
  - rewrite dec_val_FormatInt by lia. lia.
  - left. apply FormatInt_nonempty.
Qed.

Lemma append_nil_l (b : string) : "" +:+ b = b.
Proof. reflexivity. Qed.

Lemma append_cons (x : ascii) (a b : string) : String x a +:+ b = String x (a +:+ b).
Proof. reflexivity. Qed.

Ltac ssimpl := rewrite ?append_cons, ?append_nil_l; simpl.

(* ---------- strings ---------- *)
Lemma string_app_assoc (a b c : string) : (a +:+ b) +:+ c = a +:+ (b +:+ c).
Proof. induction a as [|x a IH]; ssimpl; [reflexivity | rewrite IH; reflexivity]. Qed.

Lemma string_app_nil_r (a : string) : a +:+ "" = a.
Proof. induction a as [|x a IH]; ssimpl; [reflexivity | rewrite IH; reflexivity]. Qed.

Lemma string_length_app (a b : string) :
  String.length (a +:+ b) = (String.length a + String.length b)%nat.
Proof. induction a as [|x a IH]; ssimpl; [reflexivity | rewrite IH; reflexivity]. Qed.

Lemma drop_bytes_app (a r : string) : drop_bytes (String.length a) (a +:+ r) = r.
Proof. induction a as [|x a IH]; ssimpl; [destruct r; reflexivity | exact IH]. Qed.

Lemma ContainsRune_app (a b : string) (c : ascii) :
  ContainsRune (a +:+ b) c = ContainsRune a c || ContainsRune b c.
Proof.
  induction a as [|x a IH]; ssimpl; [reflexivity|].
  destruct (Ascii.eqb x c); [reflexivity | exact IH].
Qed.

Lemma digits_ContainsRune (s : string) (c : ascii) :
  all_digits s = true -> is_digit c = false -> ContainsRune s c = false.
Proof.
  intros Hs Hc. induction s as [|x s IH]; simpl in *; [reflexivity|].
  apply andb_true_iff in Hs as [Hx Hs].
  destruct (Ascii.eqb_spec x c) as [->|_]; [congruence | auto].
Qed.

Lemma starts_with_app (c : ascii) (a b : string) :
  a <> EmptyString -> starts_with c (a +:+ b) = starts_with c a.
Proof. destruct a; [congruence | reflexivity]. Qed.

Lemma Split_single (s : string) (sep : ascii) :
  ContainsRune s sep = false -> Split s sep = [s].
Proof.
  induction s as [|x s IH]; simpl; [reflexivity|].
  destruct (Ascii.eqb x sep); [discriminate|].
  intros H. rewrite (IH H). reflexivity.
Qed.

Lemma Split_app (s t : string) (sep : ascii) :
  ContainsRune s sep = false ->
  Split (s +:+ String sep t) sep = s :: Split t sep.
Proof.
  induction s as [|x s IH]; ssimpl.
  - intros _. rewrite Ascii.eqb_refl. reflexivity.
  - destruct (Ascii.eqb x sep); [discriminate|].
    intros H. rewrite (IH H). reflexivity.
Qed.

Lemma Split_Join (strs : list string) (sep : ascii) :
  strs <> [] ->
  Forall (fun s => ContainsRune s sep = false) strs ->
  Split (Join strs (String sep EmptyString)) sep = strs.
Proof.
  induction strs as [|s strs IH]; intros Hne Hall; [congruence|].
  inversion Hall as [|? ? Hs Hrest]; subst.
  destruct strs as [|s' strs].
  - simpl. apply Split_single. exact Hs.
  - change (Join (s :: s' :: strs) (String sep EmptyString))
      with (s +:+ String sep EmptyString +:+ Join (s' :: strs) (String sep EmptyString)).
    change (String sep EmptyString +:+ Join (s' :: strs) (String sep EmptyString))
      with (String sep (Join (s' :: strs) (String sep EmptyString))).
    rewrite (Split_app _ _ _ Hs), IH; [reflexivity | discriminate | exact Hrest].
Qed.

Lemma cut_app (s t : string) (sep : ascii) :
  ContainsRune s sep = false -> cut sep (s +:+ String sep t) = Some (s, t).
Proof.
  induction s as [|x s IH]; ssimpl.
  - intros _. rewrite Ascii.eqb_refl. reflexivity.
  - destruct (Ascii.eqb x sep); [discriminate|].
    intros H. rewrite (IH H). reflexivity.
Qed.

Lemma first_separator_digits (s r : string) :
  all_digits s = true -> first_separator (s +:+ String "." r) = Some "."%char.
Proof.
  induction s as [|x s IH]; ssimpl; [reflexivity|].
  intros H. apply andb_true_iff in H as [Hx Hs].
  destruct (Ascii.eqb_spec x "."%char) as [->|_]; [discriminate Hx|].
  destruct (Ascii.eqb_spec x ":"%char) as [->|_]; [discriminate Hx|].
  exact (IH Hs).
Qed.

Lemma octet_checks x rest :
  octet x -> rest_ok rest ->
  let s := FormatInt x +:+ rest in
  dtoi s = (x, String.length (FormatInt x), true)
  /\ (255 <? x) = false
  /\ ((1 <? String.length (FormatInt x))%nat && starts_with "0" s) = false
  /\ drop_bytes (String.length (FormatInt x)) s = rest.
Proof.
  intros Hx Hrest s. unfold octet in Hx.
  split; [apply dtoi_FormatInt; [unfold big; lia | exact Hrest]|].
  split; [apply Z.ltb_ge; lia|].
  split; [|apply drop_bytes_app].
  subst s. rewrite starts_with_app by apply FormatInt_nonempty.
  destruct (starts_with "0" (FormatInt x)) eqn:Hz; [|apply andb_false_r].
  rewrite (FormatInt_leading_zero x ltac:(lia) Hz). reflexivity.
Qed.

Lemma parseIPv4_from_first k x rest p :
  octet x -> rest_ok rest ->
  parseIPv4_from (S k) 0 (FormatInt x +:+ rest) p
  = parseIPv4_from k 1 rest (p ++ [x]).
Proof.
  intros Hx Hrest.
  destruct (octet_checks x rest Hx Hrest) as (Hd & Hle & Hz & Hdrop).
  cbn [parseIPv4_from].
  destruct (FormatInt x +:+ rest) as [|c0 s0] eqn:Es.
  { exfalso. destruct (FormatInt x) eqn:E; [exact (FormatInt_nonempty x E) | discriminate]. }
  cbn [Nat.eqb]. cbv beta iota zeta. rewrite Hd, Hle, Hz, Hdrop. reflexivity.
Qed.

Lemma parseIPv4_from_next k i x rest p :
  octet x -> rest_ok rest ->
  parseIPv4_from (S k) (S i) ("." +:+ FormatInt x +:+ rest) p
  = parseIPv4_from k (S (S i)) rest (p ++ [x]).
Proof.
  intros Hx Hrest.
  destruct (octet_checks x rest Hx Hrest) as (Hd & Hle & Hz & Hdrop).
  rewrite append_cons, append_nil_l. cbn [parseIPv4_from Nat.eqb]. cbv beta iota zeta.
  change (Ascii.eqb "." ".") with true. cbv iota.
  rewrite Hd, Hle, Hz, Hdrop. reflexivity.
Qed.

Lemma parseIPv4_quad a b c d :
  octet a -> octet b -> octet c -> octet d ->
  parseIPv4 (quadText a b c d) = Some (IPv4 a b c d).
Proof.
  intros Ha Hb Hc Hd. unfold parseIPv4, quadText.
  rewrite parseIPv4_from_first by (assumption || reflexivity).
  rewrite parseIPv4_from_next by (assumption || reflexivity).
  rewrite parseIPv4_from_next by (assumption || reflexivity).
  rewrite <- (string_app_nil_r (FormatInt d)).
  rewrite parseIPv4_from_next by (assumption || reflexivity || exact I).
  reflexivity.
Qed.

Lemma quadText_no (a b c d : Z) (sep : ascii) :
  octet a -> octet b -> octet c -> octet d ->
  is_digit sep = false -> sep <> "."%char ->
  ContainsRune (quadText a b c d) sep = false.
Proof.
  unfold octet. intros Ha Hb Hc Hd Hsep Hdot. unfold quadText.
  assert (Hdot' : ContainsRune "." sep = false).
  { cbn [ContainsRune]. destruct (Ascii.eqb_spec "."%char sep); [congruence | reflexivity]. }
  rewrite !ContainsRune_app, Hdot'.
  rewrite !digits_ContainsRune by (try apply FormatInt_digits; try assumption; lia).
  reflexivity.
Qed.

Lemma ParseIP_quad parseIPv6 a b c d :
  octet a -> octet b -> octet c -> octet d ->
  ParseIP parseIPv6 (quadText a b c d) = Some (IPv4 a b c d).
Proof.
  intros Ha Hb Hc Hd. unfold ParseIP.
  assert (Hsep : first_separator (quadText a b c d) = Some "."%char).
  { unfold quadText.
    change ("." +:+ FormatInt b +:+ "." +:+ FormatInt c +:+ "." +:+ FormatInt d)
      with (String "." (FormatInt b +:+ "." +:+ FormatInt c +:+ "." +:+ FormatInt d)).
    apply first_separator_digits. apply FormatInt_digits. unfold octet in Ha. lia. }
  rewrite Hsep. change (Ascii.eqb "." ".") with true. cbv iota.
  apply parseIPv4_quad; assumption.
Qed.

Lemma land_byte_mask (m v : Z) :
  In m byteMasks -> 0 <= v <= 255 -> Z.land v m = (256 - m) * (v / (256 - m)).
Proof.
  intros Hm Hv.
  assert (Htab : land_table_ok = true) by (vm_compute; reflexivity).
  unfold land_table_ok in Htab. rewrite forallb_forall in Htab.
  specialize (Htab m Hm). rewrite forallb_forall in Htab.
  apply Z.eqb_eq, Htab, in_map_iff. exists (Z.to_nat v).
  split; [lia | apply in_seq; lia].
Qed.

Lemma mask_compare (p a b c d x y z w : Z) :
  0 <= p <= 32 ->
  octet a -> octet b -> octet c -> octet d ->
  octet x -> octet y -> octet z -> octet w ->
  forallb (fun t => Z.land (fst (fst t)) (snd t) =? Z.land (snd (fst t)) (snd t))
          (combine (combine (map (fun q => Z.land (fst q) (snd q))
                                 (combine [a; b; c; d] (cidrMaskBytes 4 p)))
                            [x; y; z; w])
                   (cidrMaskBytes 4 p)) = true
  <-> addr32 x y z w / 2 ^ (32 - p) = addr32 a b c d / 2 ^ (32 - p).
Proof.
  unfold octet, addr32. intros Hp Ha Hb Hc Hd Hx Hy Hz Hw.
  assert (Hn : exists n, p = Z.of_nat n /\ (n <= 32)%nat)
    by (exists (Z.to_nat p); lia).
  destruct Hn as (n & -> & Hn).
  do 33 (destruct n as [|n];
         [ match goal with
           | |- context [cidrMaskBytes 4 ?q] =>
               let m := eval vm_compute in (cidrMaskBytes 4 q) in
               change (cidrMaskBytes 4 q) with m
           end;
           match goal with
           | |- context [2 ^ (32 - ?q)] =>
               let k := eval vm_compute in (2 ^ (32 - q)) in
               change (2 ^ (32 - q)) with k
           end;
           change (2 ^ 24) with 16777216; change (2 ^ 16) with 65536;
           change (2 ^ 8) with 256;
           cbn [combine map forallb fst snd];
           rewrite !andb_true_r, !andb_true_iff, !Z.eqb_eq;
           rewrite <- !Z.land_assoc, !Z.land_diag;
           rewrite !(land_byte_mask _ a), !(land_byte_mask _ b), !(land_byte_mask _ c),
             !(land_byte_mask _ d), !(land_byte_mask _ x), !(land_byte_mask _ y),
             !(land_byte_mask _ z), !(land_byte_mask _ w)
             by (assumption || (unfold byteMasks; simpl; tauto));
           split; intros; Z.div_mod_to_equations; lia
         | ]).
  lia.
Qed.

Lemma cidrMaskBytes_4 p : exists m0 m1 m2 m3, cidrMaskBytes 4 p = [m0; m1; m2; m3].
Proof.
  cbn [cidrMaskBytes].
  repeat match goal with |- context [if ?b then _ else _] => destruct b end;
    eauto.
Qed.

Lemma Equal_zero a b c d :
  (a, b, c, d) <> (0, 0, 0, 0) -> Equal (IPv4 a b c d) IPv4zero = false.
Proof.
  intros Hne. unfold Equal, IPv4, IPv4zero, bytes_eqb. simpl.
  destruct (Z.eqb_spec a 0) as [->|]; [|reflexivity].
  destruct (Z.eqb_spec b 0) as [->|]; [|reflexivity].
  destruct (Z.eqb_spec c 0) as [->|]; [|reflexivity].
  destruct (Z.eqb_spec d 0) as [->|]; [|reflexivity].
  congruence.
Qed.

Lemma renderEntry_quad (e : Entry) :
  renderEntry e =
  quadText (e_a e) (e_b e) (e_c e) (e_d e)
  +:+ match e_prefix e with
      | Some p => String "/" (FormatInt p)
      | None => ""
      end.
Proof.
  unfold renderEntry, quadText. rewrite !string_app_assoc.
  destruct (e_prefix e); reflexivity.
Qed.

Lemma parseIPNet_render parseIPv6 (e : Entry) :
  shapedEntry e ->
  parseIPNet parseIPv6 (renderEntry e)
  = if Equal (IPv4 (e_a e) (e_b e) (e_c e) (e_d e)) IPv4zero
    then inl zeroMessage else inr (netOf e).
Proof.
  destruct e as [a b c d pre]. unfold shapedEntry, netOf.
  cbn [e_a e_b e_c e_d e_prefix].
  intros (Ha & Hb & Hc & Hd & Hp).
  rewrite renderEntry_quad. cbn [e_a e_b e_c e_d e_prefix].
  assert (Hslash : ContainsRune (quadText a b c d) "/" = false)
    by (apply quadText_no; try assumption; [reflexivity | discriminate]).
  unfold parseIPNet. destruct pre as [p|].
  - rewrite ContainsRune_app, Hslash. cbn [ContainsRune orb].
    change (Ascii.eqb "/" "/") with true. cbv iota.
    unfold ParseCIDR. rewrite (cut_app _ _ _ Hslash).
    rewrite (parseIPv4_quad a b c d Ha Hb Hc Hd).
    pose proof (dtoi_FormatInt p "" ltac:(unfold big; lia) I) as Hdtoi.
    rewrite string_app_nil_r in Hdtoi. rewrite Hdtoi.
    rewrite Nat.eqb_refl.
    destruct (Z.ltb_spec p 0); [lia|].
    destruct (Z.ltb_spec (8 * 4) p); [lia|].
    cbn [negb orb].
    assert (Hmask : CIDRMask p (8 * 4) = Some (cidrMaskBytes 4 p)).
    { unfold CIDRMask. change (8 * 4 =? 32) with true. cbn [negb andb].
      destruct (Z.ltb_spec p 0); [lia|]. destruct (Z.ltb_spec (8 * 4) p); [lia|].
      reflexivity. }
    rewrite Hmask.
    destruct (cidrMaskBytes_4 p) as (m0 & m1 & m2 & m3 & Hm). rewrite Hm.
    change (Mask (IPv4 a b c d) [m0; m1; m2; m3])
      with (Some [Z.land a m0; Z.land b m1; Z.land c m2; Z.land d m3]).
    change (To4 (IPv4 a b c d)) with (Some [a; b; c; d]).
    cbv iota. destruct (Equal (IPv4 a b c d) IPv4zero); reflexivity.
  - rewrite string_app_nil_r, Hslash.
    rewrite (ParseIP_quad parseIPv6 a b c d Ha Hb Hc Hd).
    change (To4 (IPv4 a b c d)) with (Some [a; b; c; d]).
    cbv iota. destruct (Equal (IPv4 a b c d) IPv4zero); reflexivity.
Qed.

Lemma parseIPNet_entry parseIPv6 (e : Entry) :
  validEntry e -> parseIPNet parseIPv6 (renderEntry e) = inr (netOf e).
Proof.
  intros [Hs Hnz]. rewrite (parseIPNet_render parseIPv6 e Hs).
  rewrite Equal_zero; [reflexivity | exact Hnz].
Qed.

Lemma parseIPNet_zero parseIPv6 (e : Entry) :
  shapedEntry e -> zeroEntry e ->
  parseIPNet parseIPv6 (renderEntry e) = inl zeroMessage.
Proof.
  intros Hs Hz. rewrite (parseIPNet_render parseIPv6 e Hs).
  unfold zeroEntry in Hz. injection Hz as -> -> -> ->. reflexivity.
Qed.

Lemma To4_length ip x : To4 ip = Some x -> length x = 4%nat.
Proof.
  unfold To4. destruct (Nat.eqb_spec (length ip) IPv4len) as [H4|_].
  - intros [= <-]. exact H4.
  - destruct (Nat.eqb_spec (length ip) IPv6len) as [H16|_]; [|discriminate].
    cbn [andb]. destruct (bytes_eqb _ _); [|discriminate].
    intros [= <-]. rewrite length_skipn, H16. reflexivity.
Qed.

Lemma To4_wellFormed ip x : wellFormedIP ip -> To4 ip = Some x -> wellFormedIP x.
Proof.
  unfold To4, wellFormedIP. intros Hw.
  destruct (length ip =? IPv4len)%nat; [intros [= <-]; exact Hw|].
  destruct (_ && _); [|discriminate].
  intros [= <-]. rewrite <- (firstn_skipn 12 ip) in Hw.
  apply Forall_app in Hw. tauto.
Qed.

Lemma To4_none_length ip : To4 ip = None -> length ip <> 4%nat.
Proof.
  unfold To4. destruct (Nat.eqb_spec (length ip) IPv4len); [discriminate | auto].
Qed.

Lemma Contains_netOf (e : Entry) (ip : IP) :
  validEntry e -> wellFormedIP ip ->
  (Contains (netOf e) ip = true <-> inCIDR e ip).
Proof.
  destruct e as [a b c d pre]. unfold validEntry, shapedEntry, inCIDR, prefixLength.
  cbn [e_a e_b e_c e_d e_prefix].
  intros ((Ha & Hb & Hc & Hd & Hp) & Hnz) Hip.
  destruct (To4 ip) as [x4|] eqn:Hto4.
  - pose proof (To4_length ip x4 Hto4) as Hlen.
    pose proof (To4_wellFormed ip x4 Hip Hto4) as Hw.
    destruct x4 as [|x [|y [|z [|w [|? ?]]]]]; try discriminate Hlen.
    unfold wellFormedIP in Hw.
    inversion Hw as [|? ? Hx Hw1]; subst. inversion Hw1 as [|? ? Hy Hw2]; subst.
    inversion Hw2 as [|? ? Hz Hw3]; subst. inversion Hw3 as [|? ? Hw' _]; subst.
    assert (Hcore : forall p, 0 <= p <= 32 ->
      Contains {| net_IP := map (fun q => Z.land (fst q) (snd q))
                                (combine [a; b; c; d] (cidrMaskBytes 4 p));
                  net_Mask := cidrMaskBytes 4 p |} ip = true
      <-> addr32 x y z w / 2 ^ (32 - p) = addr32 a b c d / 2 ^ (32 - p)).
    { intros p Hp'. rewrite <- (mask_compare p a b c d x y z w) by assumption.
      unfold Contains. rewrite Hto4.
      destruct (cidrMaskBytes_4 p) as (m0 & m1 & m2 & m3 & Hm). rewrite Hm.
      reflexivity. }
    destruct pre as [p|]; unfold netOf; cbn [e_a e_b e_c e_d e_prefix].
    + rewrite (Hcore p Hp). split.
      * intros H. exists x, y, z, w. split; [reflexivity | exact H].
      * intros (x' & y' & z' & w' & [= <- <- <- <-] & H). exact H.
    + assert (Hsame : Contains {| net_IP := IPv4 a b c d;
                                  net_Mask := IPv4Mask 255 255 255 255 |} ip
                      = Contains {| net_IP := map (fun q => Z.land (fst q) (snd q))
                                                  (combine [a; b; c; d] (cidrMaskBytes 4 32));
                                    net_Mask := cidrMaskBytes 4 32 |} ip).
      { unfold Contains. rewrite Hto4.
        change (cidrMaskBytes 4 32) with [255; 255; 255; 255].
        cbn [combine map fst snd].
        change (networkNumberAndMask
                  {| net_IP := IPv4 a b c d; net_Mask := IPv4Mask 255 255 255 255 |})
          with (Some ([a; b; c; d], [255; 255; 255; 255])).
        change (networkNumberAndMask
                  {| net_IP := [Z.land a 255; Z.land b 255; Z.land c 255; Z.land d 255];
                     net_Mask := [255; 255; 255; 255] |})
          with (Some ([Z.land a 255; Z.land b 255; Z.land c 255; Z.land d 255],
                      [255; 255; 255; 255])).
        cbn [length Nat.eqb negb combine forallb fst snd].
        rewrite <- !Z.land_assoc, !Z.land_diag. reflexivity. }
      rewrite Hsame, (Hcore 32 ltac:(lia)). split.
      * intros H. exists x, y, z, w. split; [reflexivity | exact H].
      * intros (x' & y' & z' & w' & [= <- <- <- <-] & H). exact H.
  - split.
    + intros H. exfalso. unfold Contains in H. rewrite Hto4 in H.
      pose proof (To4_none_length ip Hto4) as Hlen.
      assert (Hnn : exists nn m, match networkNumberAndMask (netOf (mkEntry a b c d pre)) with
                                 | Some r => r | None => ([], [])
                                 end = (nn, m) /\ length nn = 4%nat).
      { unfold netOf. cbn [e_a e_b e_c e_d e_prefix]. destruct pre as [p|].
        - destruct (cidrMaskBytes_4 p) as (m0 & m1 & m2 & m3 & Hm). rewrite Hm.
          eexists _, _. split; reflexivity.
        - eexists _, _. split; reflexivity. }
      destruct Hnn as (nn & m & Hnn & Hl). rewrite Hnn in H. rewrite Hl in H.
      destruct (Nat.eqb_spec (length ip) 4); [contradiction | discriminate H].
    + intros (x & y & z & w & Hsome & _). discriminate Hsome.
Qed.

Lemma renderEntry_no_comma (e : Entry) :
  shapedEntry e -> ContainsRune (renderEntry e) "," = false.
Proof.
  destruct e as [a b c d pre]. unfold shapedEntry. cbn [e_a e_b e_c e_d e_prefix].
  intros (Ha & Hb & Hc & Hd & Hp).
  rewrite renderEntry_quad, ContainsRune_app. cbn [e_a e_b e_c e_d e_prefix].
  rewrite quadText_no by (assumption || reflexivity || discriminate).
  destruct pre as [p|]; [|reflexivity].
  cbn [ContainsRune orb]. change (Ascii.eqb "/" ",") with false. cbv iota.
  apply digits_ContainsRune; [apply FormatInt_digits; lia | reflexivity].
Qed.

Lemma renderEntry_nonempty (e : Entry) : renderEntry e <> EmptyString.
Proof.
  unfold renderEntry. destruct (FormatInt (e_a e)) eqn:E.
  - exfalso. exact (FormatInt_nonempty _ E).
  - rewrite append_cons. discriminate.
Qed.

Lemma renderACL_nonempty (es : list Entry) : es <> [] -> renderACL es <> EmptyString.
Proof.
  destruct es as [|e es]; [congruence|]. intros _. unfold renderACL.
  cbn [map Join]. pose proof (renderEntry_nonempty e) as He.
  destruct (map renderEntry es); [exact He|].
  destruct (renderEntry e); [congruence|]. rewrite append_cons. discriminate.
Qed.

Lemma Split_renderACL (es : list Entry) :
  es <> [] -> Forall shapedEntry es ->
  Split (renderACL es) "," = map renderEntry es.
Proof.
  intros Hne Hall. unfold renderACL. apply Split_Join.
  - destruct es; [congruence | discriminate].
  - apply Forall_map. eapply Forall_impl; [exact Hall|].
    intros e He. apply renderEntry_no_comma. exact He.
Qed.

Lemma parseValues_entries parseIPv6 (es : list Entry) :
  Forall validEntry es ->
  forall acc, parseValues parseIPv6 (map renderEntry es) acc = inr (acc ++ map netOf es).
Proof.
  induction 1 as [|e es He _ IH]; intros acc; cbn [map parseValues].
  - rewrite app_nil_r. reflexivity.
  - rewrite (parseIPNet_entry parseIPv6 e He), IH, <- app_assoc. reflexivity.
Qed.

Lemma parseValues_error parseIPv6 (values : list string) :
  Exists (fun s => exists err, parseIPNet parseIPv6 s = inl err) values ->
  forall acc, exists err, parseValues parseIPv6 values acc = inl err.
Proof.
  induction values as [|s values IH]; intros Hex acc; [inversion Hex|].
  cbn [parseValues]. destruct (parseIPNet parseIPv6 s) as [err|ipNet] eqn:Hs; [eauto|].
  apply IH. inversion Hex as [? ? (err & Herr)|]; subst; [congruence | assumption].
Qed.

Lemma ParseTunnelACL_values parseIPv6 (str : string) :
  str <> EmptyString ->
  ParseTunnelACL parseIPv6 str =
  match parseValues parseIPv6 (Split str ",") [] with
  | inl err => inl err
  | inr allowedIPs => inr (Some {| AllowedIPs := allowedIPs |})
  end.
Proof. destruct str; [congruence | reflexivity]. Qed.

Lemma CheckAccess_exists (nets : list IPNet) (ip : IP) :
  nets <> [] ->
  (CheckAccess {| AllowedIPs := nets |} ip = true
   <-> exists n, In n nets /\ Contains n ip = true).
Proof.
  intros Hne. unfold CheckAccess. cbn [AllowedIPs].
  destruct nets as [|n nets]; [congruence|]. apply existsb_exists.
Qed.

Lemma parseIPNet_not_IPv4 parseIPv6 (s : string) (ip : IP) :
  To4 ip = None ->
  (ContainsRune s "/" = false /\ ParseIP parseIPv6 s = Some ip
   \/ exists n, ContainsRune s "/" = true /\ ParseCIDR parseIPv6 s = Some (ip, n)) ->
  parseIPNet parseIPv6 s = inl (s +:+ " is not IPv4 address").
Proof.
  intros Hto4 [[Hs Hp] | (n & Hs & Hp)]; unfold parseIPNet; rewrite Hs, Hp, Hto4;
    reflexivity.
Qed.

(** *** IPv6 text of IPv4-mapped addresses *)

Lemma hex_val_digit c : is_digit c = true -> hex_val c = Some (digit_val c).
Proof.
  unfold is_digit, hex_val, digit_val. intros H.
  apply andb_true_iff in H as [H1 H2]. apply Nat.leb_le in H1, H2.
  destruct (Z.leb_spec 48 (Z.of_nat (nat_of_ascii c))); [|lia].
  destruct (Z.leb_spec (Z.of_nat (nat_of_ascii c)) 57); [|lia].
  reflexivity.
Qed.

Lemma hex_acc_mono s : forall n, all_digits s = true -> 0 <= n -> n <= hex_acc s n.
Proof.
  induction s as [|c s IH]; intros n Hd Hn; simpl in *; [lia|].
  apply andb_true_iff in Hd as [Hc Hs].
  pose proof (is_digit_val c Hc).
  specialize (IH (n * 16 + digit_val c) Hs ltac:(lia)). lia.
Qed.

Lemma xtoi_from_digits s : forall r n i,
  all_digits s = true -> 0 <= n -> hex_acc s n < big ->
  (s <> EmptyString \/ i <> O) ->
  xtoi_from (s +:+ String "." r) n i = (hex_acc s n, (i + String.length s)%nat, true).
Proof.
  induction s as [|c s IH]; intros r n i Hd Hn Hbig Hne.
  - destruct Hne as [Hne|Hne]; [congruence|].
    rewrite append_nil_l. cbn [xtoi_from hex_acc String.length].
    change (hex_val ".") with (@None Z). rewrite Nat.add_0_r.
    destruct (Nat.eqb_spec i 0); [contradiction | reflexivity].
  - simpl in Hd. apply andb_true_iff in Hd as [Hc Hs].
    pose proof (is_digit_val c Hc) as Hv.
    rewrite append_cons. cbn [xtoi_from hex_acc String.length].
    rewrite (hex_val_digit c Hc). cbn [hex_acc] in Hbig.
    pose proof (hex_acc_mono s (n * 16 + digit_val c) Hs ltac:(lia)) as Hm.
    destruct (Z.leb_spec big (n * 16 + digit_val c)); [lia|].
    rewrite (IH r (n * 16 + digit_val c) (S i) Hs ltac:(lia) Hbig
                (or_intror (Nat.neq_succ_0 i))).
    do 2 f_equal. lia.
Qed.

Lemma hex_acc_octet a : octet a -> hex_acc (FormatInt a) 0 <= 65535.
Proof.
  intros [H0 H255].
  assert (Hall : forallb (fun k => hex_acc (FormatInt (Z.of_nat k)) 0 <=? 65535)
                         (seq 0 256) = true) by (vm_compute; reflexivity).
  rewrite forallb_forall in Hall.
  specialize (Hall (Z.to_nat a)). rewrite Z2Nat.id in Hall by lia.
  apply Z.leb_le, Hall, in_seq. lia.
Qed.

Lemma digit_not_colon c : is_digit c = true -> Ascii.eqb c ":" = false.
Proof.
  intros H. apply Ascii.eqb_neq. intros ->. discriminate.
Qed.

(** A turn of the loop of [parseIPv6] that stores a chunk and goes on after
    a single colon. *)
Lemma parseIPv6_loop_chunk k ip s ellipsis n c c1 s1 :
  xtoi s = (n, c, true) -> n <= 65535 ->
  drop_bytes c s = String ":" (String c1 s1) ->
  Ascii.eqb c1 ":" = false ->
  parseIPv6_loop (S k) ip s ellipsis
  = parseIPv6_loop k
      (<[(IPv6len - 2 * S k + 1)%nat := Z.land n 255]>
         (<[(IPv6len - 2 * S k)%nat := Z.land (Z.shiftr n 8) 255]> ip))
      (String c1 s1) ellipsis.
Proof.
  intros Hx Hn Hd Hc. cbn [parseIPv6_loop]. rewrite Hx, Hd.
  destruct (Z.ltb_spec 65535 n); [lia|].
  cbn [negb orb starts_with]. change (Ascii.eqb ":" ".") with false. cbv iota.
  rewrite Ascii.eqb_refl. cbn [negb orb String.length Nat.eqb starts_with].
  rewrite Hc. reflexivity.
Qed.

(** The turn of the loop that reads the trailing dotted quad, after an
    ellipsis. *)
Lemma parseIPv6_loop_quad k ip s ellipsis n c r ip4 :
  xtoi s = (n, c, true) -> n <= 65535 ->
  drop_bytes c s = String "." r ->
  0 <= ellipsis -> (2 <= S k)%nat ->
  parseIPv4 s = Some ip4 ->
  parseIPv6_loop (S k) ip s ellipsis
  = Some (<[(IPv6len - 2 * S k + 3)%nat := nth 15 ip4 0]>
            (<[(IPv6len - 2 * S k + 2)%nat := nth 14 ip4 0]>
               (<[(IPv6len - 2 * S k + 1)%nat := nth 13 ip4 0]>
                  (<[(IPv6len - 2 * S k)%nat := nth 12 ip4 0]> ip))),
          EmptyString, (IPv6len - 2 * S k + IPv4len)%nat, ellipsis).
Proof.
  intros Hx Hn Hd He Hk H4. cbn [parseIPv6_loop]. rewrite Hx, Hd, H4.
  destruct (Z.ltb_spec 65535 n); [lia|].
  cbn [negb orb starts_with]. rewrite Ascii.eqb_refl.
  destruct (Z.ltb_spec ellipsis 0); [lia|]. cbn [andb].
  destruct (Nat.ltb_spec IPv6len (IPv6len - 2 * S k + IPv4len)); [|reflexivity].
  unfold IPv6len, IPv4len in *. lia.
Qed.

(** [parseIPv6] of the text of an IPv4-mapped address: the 16-byte form of
    the IPv4 address, the one [parseIPv4] gives for the dotted quad. *)
Lemma parseIPv6_mapped a b c d :
  octet a -> octet b -> octet c -> octet d ->
  parseIPv6 ("::ffff:" +:+ quadText a b c d) = Some (IPv4 a b c d).
Proof.
  intros Ha Hb Hc Hd.
  pose proof (parseIPv4_quad a b c d Ha Hb Hc Hd) as H4.
  assert (Hq : exists r, quadText a b c d = FormatInt a +:+ String "." r).
  { unfold quadText. eexists. reflexivity. }
  destruct Hq as (r & Hq).
  assert (Hx : xtoi (quadText a b c d)
               = (hex_acc (FormatInt a) 0, String.length (FormatInt a), true)).
  { rewrite Hq. unfold xtoi. rewrite xtoi_from_digits; [reflexivity| | | |].
    - apply FormatInt_digits. unfold octet in Ha. lia.
    - lia.
    - pose proof (hex_acc_octet a Ha). unfold big. lia.
    - left. apply FormatInt_nonempty. }
  assert (Hdrop : drop_bytes (String.length (FormatInt a)) (quadText a b c d) = String "." r).
  { rewrite Hq. apply drop_bytes_app. }
  pose proof (hex_acc_octet a Ha) as Hle.
  assert (Hhead : exists c0 q', quadText a b c d = String c0 q' /\ is_digit c0 = true).
  { rewrite Hq. pose proof (FormatInt_digits a ltac:(unfold octet in Ha; lia)) as Hdig.
    pose proof (FormatInt_nonempty a) as Hne.
    destruct (FormatInt a) as [|c0 s0]; [congruence|].
    simpl in Hdig. apply andb_true_iff in Hdig as [Hc0 _].
    rewrite append_cons. eauto. }
  destruct Hhead as (c0 & q' & Hq' & Hc0).
  generalize dependent (quadText a b c d). intros q H4 Hq Hx Hdrop Hq'.
  unfold parseIPv6.
  change ("::ffff:" +:+ q)
    with (String ":" (String ":" (String "f" (String "f" (String "f" (String "f"
            (String ":" q))))))).
  cbn [String.length starts_with drop_bytes Nat.leb andb Ascii.eqb Bool.eqb Nat.eqb].
  cbv iota.
  change (IPv6len `div` 2)%nat with 8%nat.
  rewrite (parseIPv6_loop_chunk 7 _ _ 0 65535 4 c0 q');
    [| rewrite Hq'; reflexivity | lia | rewrite Hq'; reflexivity
     | apply digit_not_colon; exact Hc0].
  rewrite <- Hq'.
  rewrite (parseIPv6_loop_quad 6 _ q 0 _ _ r (IPv4 a b c d) Hx Hle Hdrop);
    [| lia | lia | exact H4].
  vm_compute. reflexivity.
Qed.

(** The value is taken for the dotted quad it ends with. *)
Lemma parseIPNet_mapped a b c d :
  octet a -> octet b -> octet c -> octet d -> (a, b, c, d) <> (0, 0, 0, 0) ->
  parseIPNet parseIPv6 (mappedText a b c d) = inr (netOf (mkEntry a b c d None)).
Proof.
  intros Ha Hb Hc Hd Hnz. unfold parseIPNet, mappedText.
  rewrite ContainsRune_app, (quadText_no a b c d "/") by (assumption || reflexivity || discriminate).
  change (ContainsRune "::ffff:" "/") with false. cbn [orb].
  unfold ParseIP.
  change (first_separator ("::ffff:" +:+ quadText a b c d)) with (Some ":"%char).
  rewrite (parseIPv6_mapped a b c d Ha Hb Hc Hd).
  cbn [Ascii.eqb Bool.eqb]. cbv iota beta.
  change (To4 (IPv4 a b c d)) with (Some [a; b; c; d]). cbv iota.
  rewrite (Equal_zero a b c d Hnz). reflexivity.
Qed.

Lemma ParseTunnelACL_mapped a b c d :
  octet a -> octet b -> octet c -> octet d -> (a, b, c, d) <> (0, 0, 0, 0) ->
  ParseTunnelACL parseIPv6 (mappedText a b c d)
  = inr (Some {| AllowedIPs := [netOf (mkEntry a b c d None)] |}).
Proof.
  intros Ha Hb Hc Hd Hnz.
  rewrite ParseTunnelACL_values by (unfold mappedText; discriminate).
  rewrite Split_single.
  2:{ unfold mappedText.
      rewrite ContainsRune_app, (quadText_no a b c d ",")
        by (assumption || reflexivity || discriminate).
      reflexivity. }
  cbn [parseValues]. rewrite (parseIPNet_mapped a b c d Ha Hb Hc Hd Hnz). reflexivity.
Qed.

(** C6 (amended). For every non-empty list of valid IPv4 CIDR entries (dotted
    quad, optional prefix length from 0 to 32, address other than 0.0.0.0), the
    comma-separated text of the list parses to an ACL with one network per
    entry, and [CheckAccess] of that ACL holds of an address exactly when
    the address lies in the CIDR of one of the entries (a prefix of 32 bits
    when the entry has none).  The empty string parses to the nil ACL, which
    allows every address, as the ACL with no entry does.  A list with an
    entry of address 0.0.0.0 is rejected, and so is every text with a value
    whose address has no IPv4 form ([To4] is nil).  The IPv6 notation is not
    rejected as such: with [parseIPv6] of package net, the text of an
    IPv4-mapped address, ::ffff:a.b.c.d, parses to the entry of a.b.c.d, and
    ::ffff:10.0.0.0/104 to a network that holds the addresses of
    10.0.0.0/8. *)
Theorem parse_tunnel_acl (parseIPv6 : string -> option IP) :
  (forall es : list Entry,
      es <> [] -> Forall validEntry es ->
      exists acl,
        ParseTunnelACL parseIPv6 (renderACL es) = inr (Some acl)
        /\ length (AllowedIPs acl) = length es
        /\ forall ip, wellFormedIP ip ->
             (CheckAccess acl ip = true <-> Exists (fun e => inCIDR e ip) es))
  /\ (ParseTunnelACL parseIPv6 "" = inr None
      /\ forall ip, allows None ip = true
                    /\ CheckAccess {| AllowedIPs := [] |} ip = true)
  /\ (forall es : list Entry,
      Forall shapedEntry es -> Exists zeroEntry es ->
      exists err, ParseTunnelACL parseIPv6 (renderACL es) = inl err)
  /\ (forall (str s : string) (ip : IP),
      str <> "" -> In s (Split str ",") ->
      To4 ip = None ->
      (ContainsRune s "/" = false /\ ParseIP parseIPv6 s = Some ip
       \/ exists n, ContainsRune s "/" = true /\ ParseCIDR parseIPv6 s = Some (ip, n)) ->
      exists err, ParseTunnelACL parseIPv6 str = inl err)
  /\ (forall a b c d,
      octet a -> octet b -> octet c -> octet d -> (a, b, c, d) <> (0, 0, 0, 0) ->
      ParseTunnelACL GoNet.parseIPv6 (mappedText a b c d)
      = inr (Some {| AllowedIPs := [netOf (mkEntry a b c d None)] |}))
  /\ (exists acl,
      ParseTunnelACL GoNet.parseIPv6 "::ffff:10.0.0.0/104" = inr (Some acl)
      /\ forall ip, wellFormedIP ip ->
           (CheckAccess acl ip = true <-> inCIDR (mkEntry 10 0 0 0 (Some 8)) ip)).
Proof.
  split; [|split; [|split; [|split; [|split]]]].
  - intros es Hne Hall.
    assert (Hshaped : Forall shapedEntry es).
    { eapply Forall_impl; [exact Hall|]. intros e [He _]. exact He. }
    exists {| AllowedIPs := map netOf es |}.
    rewrite (ParseTunnelACL_values parseIPv6 _ (renderACL_nonempty es Hne)).
    rewrite (Split_renderACL es Hne Hshaped).
    rewrite (parseValues_entries parseIPv6 es Hall).
    split; [reflexivity|]. split; [apply length_map|].
    intros ip Hip. rewrite CheckAccess_exists by (destruct es; [congruence | discriminate]).
    rewrite List.Exists_exists. split.
    + intros (n & Hin & Hn). apply in_map_iff in Hin as (e & <- & He).
      exists e. split; [exact He|].
      rewrite List.Forall_forall in Hall.
      apply (Contains_netOf e ip (Hall e He) Hip). exact Hn.
    + intros (e & He & Hcidr). exists (netOf e). split; [apply in_map; exact He|].
      rewrite List.Forall_forall in Hall.
      apply (Contains_netOf e ip (Hall e He) Hip). exact Hcidr.
  - split; [reflexivity|]. intros ip. split; reflexivity.
  - intros es Hshaped Hzero.
    assert (Hne : es <> []) by (destruct Hzero; discriminate).
    rewrite (ParseTunnelACL_values parseIPv6 _ (renderACL_nonempty es Hne)).
    rewrite (Split_renderACL es Hne Hshaped).
    destruct (parseValues_error parseIPv6 (map renderEntry es)) with (acc := @nil IPNet)
      as (err & Herr).
    { apply List.Exists_exists in Hzero as (e & He & Hz).
      apply List.Exists_exists. exists (renderEntry e). split; [apply in_map; exact He|].
      exists zeroMessage. apply parseIPNet_zero; [|exact Hz].
      rewrite List.Forall_forall in Hshaped. exact (Hshaped e He). }
    rewrite Herr. eauto.
  - intros str s ip Hne Hin Hto4 Hparse.
    rewrite (ParseTunnelACL_values parseIPv6 str Hne).
    destruct (parseValues_error parseIPv6 (Split str ",")) with (acc := @nil IPNet)
      as (err & Herr).
    { apply List.Exists_exists. exists s. split; [exact Hin|].
      eexists. apply (parseIPNet_not_IPv4 parseIPv6 s ip Hto4 Hparse). }
    rewrite Herr. eauto.
  - exact ParseTunnelACL_mapped.
  - eexists. split; [vm_compute; reflexivity|].
    intros ip Hip. unfold CheckAccess. cbn [AllowedIPs existsb]. rewrite orb_false_r.
    apply (Contains_netOf (mkEntry 10 0 0 0 (Some 8)) ip); [|exact Hip].
    split; [repeat split; simpl; lia | discriminate].
Qed.

(** The specification's "IPv6 is rejected" against the code: the texts
    ::ffff:10.0.0.1 and ::ffff:10.0.0.0/104 are in the IPv6 notation,
    [ParseIP] hands the first to [parseIPv6], and [ParseTunnelACL] accepts
    both, the first with the very result of 10.0.0.1, alone and in a
    list. *)
Lemma ipv6_text_accepted :
  first_separator "::ffff:10.0.0.1" = Some ":"%char
  /\ parseIPv6 "::ffff:10.0.0.1" = Some (IPv4 10 0 0 1)
  /\ ParseTunnelACL parseIPv6 "::ffff:10.0.0.1"
     = inr (Some {| AllowedIPs :=
                      [ {| net_IP := IPv4 10 0 0 1;
                           net_Mask := IPv4Mask 255 255 255 255 |} ] |})
  /\ ParseTunnelACL parseIPv6 "::ffff:10.0.0.1" = ParseTunnelACL parseIPv6 "10.0.0.1"
  /\ ParseTunnelACL parseIPv6 "::ffff:10.0.0.0/104"
     = inr (Some {| AllowedIPs :=
                      [ {| net_IP := IPv4 10 0 0 0;
                           net_Mask := [255; 255; 255; 255; 255; 255; 255; 255;
                                        255; 255; 255; 255; 255; 0; 0; 0] |} ] |})
  /\ ParseTunnelACL parseIPv6 "10.0.0.1,::ffff:10.0.0.2"
     = ParseTunnelACL parseIPv6 "10.0.0.1,10.0.0.2".
Proof. repeat split; vm_compute; reflexivity. Qed.

Example exampleEntries_text : renderACL exampleEntries = "10.0.0.1,10.0.0.0/24".
Proof. vm_compute. reflexivity. Qed.

Lemma parse_tunnel_acl_witness :
  (exists acl,
    ParseTunnelACL parseIPv6 (renderACL exampleEntries) = inr (Some acl)
    /\ CheckAccess acl [10; 0; 0; 5] = true
    /\ CheckAccess acl [10; 0; 0; 1] = true)
  /\ (exists err, ParseTunnelACL parseIPv6 "10.0.0.1,2001:db8::1" = inl err).
Proof.
  split.
  - destruct (proj1 (parse_tunnel_acl parseIPv6) exampleEntries)
      as (acl & Hparse & _ & Hcheck).
    + discriminate.
    + repeat constructor; simpl; try lia; discriminate.
    + exists acl. split; [exact Hparse|]. split.
      * apply Hcheck; [repeat constructor; lia|].
        apply Exists_cons_tl, Exists_cons_hd.
        exists 10, 0, 0, 5. split; reflexivity.
      * apply Hcheck; [repeat constructor; lia|].
        apply Exists_cons_hd.
        exists 10, 0, 0, 1. split; reflexivity.
  - apply (proj1 (proj2 (proj2 (proj2 (parse_tunnel_acl parseIPv6))))
             "10.0.0.1,2001:db8::1" "2001:db8::1"
             [32; 1; 13; 184; 0; 0; 0; 0; 0; 0; 0; 0; 0; 0; 0; 1]).
    + discriminate.
    + right. left. reflexivity.
    + reflexivity.
    + left. split; vm_compute; reflexivity.
Defined.

Example scenario_acl :
  exists acl,
    ParseTunnelACL noIPv6 "10.0.0.1,10.0.0.0/24" = inr (Some acl)
    /\ CheckAccess acl [10; 0; 0; 1] = true
    /\ CheckAccess acl [10; 0; 0; 5] = true
    /\ CheckAccess acl [10; 0; 1; 1] = false
    /\ CheckAccess acl [0; 0; 0; 0; 0; 0; 0; 0; 0; 0; 0; 0; 0; 0; 0; 1] = false.
Proof. eexists. split; [vm_compute; reflexivity|]. repeat split. Qed.

(** X12. [AddACL] with the text of a valid entry appends its network, and
    access is then allowed to the addresses of that entry and to those the
    list allowed before, if it had an entry: a list with no entry, which
    allows every address, allows only the addresses of the new entry
    afterwards.  With a text that [parseIPNet] refuses, 0.0.0.0 among them,
    the call panics on the nil network. *)
Theorem add_acl (parseIPv6 : string -> option IP) (a : TunnelACL) :
  (forall e : Entry,
      validEntry e ->
      exists a',
        AddACL parseIPv6 a (renderEntry e) = Some a'
        /\ AllowedIPs a' = AllowedIPs a ++ [netOf e]
        /\ forall ip, wellFormedIP ip ->
             (CheckAccess a' ip = true
              <-> (AllowedIPs a <> [] /\ CheckAccess a ip = true) \/ inCIDR e ip))
  /\ (forall s err, parseIPNet parseIPv6 s = inl err -> AddACL parseIPv6 a s = None)
  /\ (forall e : Entry,
        shapedEntry e -> zeroEntry e -> AddACL parseIPv6 a (renderEntry e) = None).
Proof.
  split; [|split].
  - intros e He. unfold AddACL. rewrite (parseIPNet_entry parseIPv6 e He).
    eexists. split; [reflexivity|]. split; [reflexivity|].
    intros ip Hip. cbn [AllowedIPs].
    rewrite CheckAccess_exists by (destruct (AllowedIPs a); discriminate).
    rewrite <- (Contains_netOf e ip He Hip).
    destruct a as [nets]. cbn [AllowedIPs]. split.
    + intros (n & Hin & Hn). apply in_app_or in Hin as [Hin|[<-|[]]].
      * left. split; [destruct nets; [destruct Hin|discriminate]|].
        apply CheckAccess_exists; [destruct nets; [destruct Hin|discriminate]|]. eauto.
      * right. exact Hn.
    + intros [[Hne Hc]|Hc].
      * apply (CheckAccess_exists nets ip Hne) in Hc as (n & Hin & Hn).
        exists n. split; [apply in_or_app; left; exact Hin|exact Hn].
      * exists (netOf e). split; [apply in_or_app; right; left; reflexivity|exact Hc].
  - intros s err H. unfold AddACL. rewrite H. reflexivity.
  - intros e Hs Hz. unfold AddACL. rewrite (parseIPNet_zero parseIPv6 e Hs Hz). reflexivity.
Qed.

Lemma add_acl_witness :
  exists a',
    AddACL noIPv6 {| AllowedIPs := [] |} LocalHost = Some a'
    /\ CheckAccess {| AllowedIPs := [] |} [10; 0; 0; 5] = true
    /\ CheckAccess a' [10; 0; 0; 5] = false
    /\ CheckAccess a' [127; 0; 0; 1] = true.
Proof.
  destruct (proj1 (add_acl noIPv6 {| AllowedIPs := [] |}) (mkEntry 127 0 0 1 None))
    as (a' & Hadd & Hnets & Hcheck).
  { split; [repeat split; simpl; lia | discriminate]. }
  exists a'. split; [exact Hadd|]. split; [reflexivity|]. split.
  - unfold CheckAccess. rewrite Hnets. reflexivity.
  - apply Hcheck; [repeat constructor; lia|]. right.
    exists 127, 0, 0, 1. split; reflexivity.
Defined.

Lemma prefix_zero_inCIDR (e : Entry) (ip x : IP) :
  shapedEntry e -> e_prefix e = Some 0 ->
  wellFormedIP ip -> To4 ip = Some x -> inCIDR e ip.
Proof.
  intros (Ha & Hb & Hc & Hd & _) Hp Hip Hx.
  pose proof (To4_length ip x Hx) as Hlen.
  pose proof (To4_wellFormed ip x Hip Hx) as Hwf.
  destruct x as [|x0 [|x1 [|x2 [|x3 [|]]]]]; try discriminate Hlen.
  exists x0, x1, x2, x3. split; [exact Hx|].
  unfold prefixLength. rewrite Hp. change (2 ^ (32 - 0)) with 4294967296.
  inversion Hwf as [|? ? H0 Hwf1]; subst. inversion Hwf1 as [|? ? H1 Hwf2]; subst.
  inversion Hwf2 as [|? ? H2 Hwf3]; subst. inversion Hwf3 as [|? ? H3 _]; subst.
  unfold octet in *. unfold addr32.
  rewrite !Z.div_small; [reflexivity| |]; lia.
Qed.

(** X13. A prefix length of 0 is accepted with any address other than
    0.0.0.0, and a list with such an entry allows every IPv4 address (of 4
    bytes or IPv4-mapped), whatever its other entries are. *)
Theorem prefix_zero_allows_all (parseIPv6 : string -> option IP) (es : list Entry) :
  Forall validEntry es ->
  Exists (fun e => e_prefix e = Some 0) es ->
  exists acl,
    ParseTunnelACL parseIPv6 (renderACL es) = inr (Some acl)
    /\ forall ip, wellFormedIP ip -> To4 ip <> None -> CheckAccess acl ip = true.
Proof.
  intros Hall Hex.
  assert (Hne : es <> []) by (destruct Hex; discriminate).
  assert (Hshaped : Forall shapedEntry es).
  { eapply Forall_impl; [exact Hall|]. intros e [He _]. exact He. }
  exists {| AllowedIPs := map netOf es |}.
  rewrite (ParseTunnelACL_values parseIPv6 _ (renderACL_nonempty es Hne)).
  rewrite (Split_renderACL es Hne Hshaped).
  rewrite (parseValues_entries parseIPv6 es Hall).
  split; [reflexivity|].
  intros ip Hip Hv4. destruct (To4 ip) as [x|] eqn:Hx; [|congruence].
  apply CheckAccess_exists; [destruct es; [congruence|discriminate]|].
  apply List.Exists_exists in Hex as (e & Hin & Hp).
  rewrite List.Forall_forall in Hall.
  exists (netOf e). split; [apply in_map; exact Hin|].
  apply (Contains_netOf e ip (Hall e Hin) Hip).
  exact (prefix_zero_inCIDR e ip x (proj1 (Hall e Hin)) Hp Hip Hx).
Qed.

Lemma prefix_zero_allows_all_witness :
  exists acl,
    ParseTunnelACL noIPv6 (renderACL [mkEntry 10 0 0 1 (Some 0)]) = inr (Some acl)
    /\ CheckAccess acl [192; 168; 1; 7] = true.
Proof.
  destruct (prefix_zero_allows_all noIPv6 [mkEntry 10 0 0 1 (Some 0)])
    as (acl & Hparse & Hcheck).
  - repeat constructor; simpl; try lia. discriminate.
  - constructor. reflexivity.
  - exists acl. split; [exact Hparse|].
    apply Hcheck; [repeat constructor; lia | discriminate].
Defined.

Lemma first_separator_quad (a b c d : Z) (rest : string) :
  octet a -> first_separator (quadText a b c d +:+ rest) = Some "."%char.
Proof.
  intros Ha. unfold quadText. rewrite !string_app_assoc.
  change ("." +:+ FormatInt b +:+ "." +:+ FormatInt c +:+ "." +:+ FormatInt d +:+ rest)
    with (String "." (FormatInt b +:+ "." +:+ FormatInt c +:+ "." +:+ FormatInt d +:+ rest)).
  apply first_separator_digits. apply FormatInt_digits. unfold octet in Ha. lia.
Qed.

Lemma parseIPNet_empty parseIPv6 : parseIPNet parseIPv6 "" = inl "invalid IP addr: ".
Proof. reflexivity. Qed.

Lemma parseIPNet_leading_space parseIPv6 a b c d :
  octet a -> octet b -> octet c -> octet d ->
  parseIPNet parseIPv6 (" " +:+ quadText a b c d)
  = inl ("invalid IP addr: " +:+ " " +:+ quadText a b c d).
Proof.
  intros Ha Hb Hc Hd. unfold parseIPNet.
  change (" " +:+ quadText a b c d) with (String " " (quadText a b c d)).
  cbn [ContainsRune]. change (Ascii.eqb " " "/") with false. cbv iota.
  rewrite quadText_no by (assumption || reflexivity || discriminate).
  unfold ParseIP. cbn [first_separator].
  change (Ascii.eqb " " ".") with false. change (Ascii.eqb " " ":") with false. cbv iota.
  rewrite <- (string_app_nil_r (quadText a b c d)) at 1.
  rewrite first_separator_quad by assumption.
  change (Ascii.eqb "." ".") with true. cbv iota.
  reflexivity.
Qed.

Lemma parseIPNet_trailing_space parseIPv6 a b c d :
  octet a -> octet b -> octet c -> octet d ->
  parseIPNet parseIPv6 (quadText a b c d +:+ " ")
  = inl ("invalid IP addr: " +:+ quadText a b c d +:+ " ").
Proof.
  intros Ha Hb Hc Hd. unfold parseIPNet.
  rewrite ContainsRune_app.
  rewrite quadText_no by (assumption || reflexivity || discriminate).
  cbn [ContainsRune orb]. change (Ascii.eqb " " "/") with false. cbv iota.
  unfold ParseIP. rewrite first_separator_quad by assumption.
  change (Ascii.eqb "." ".") with true. cbv iota.
  assert (Hv4 : parseIPv4 (quadText a b c d +:+ " ") = None).
  { unfold parseIPv4, quadText. rewrite !string_app_assoc.
    rewrite parseIPv4_from_first by (assumption || reflexivity).
    rewrite parseIPv4_from_next by (assumption || reflexivity).
    rewrite parseIPv4_from_next by (assumption || reflexivity).
    rewrite parseIPv4_from_next by (assumption || reflexivity).
    reflexivity. }
  rewrite Hv4. reflexivity.
Qed.

(** X14. The values of an ACL text are not trimmed and may not be empty:
    a text with an empty value (a comma at either end, or two in a row), or
    with a dotted quad preceded or followed by a blank, is a parse error. *)
Theorem acl_values_not_trimmed (parseIPv6 : string -> option IP) (str s : string) :
  str <> "" ->
  In s (Split str ",") ->
  (s = ""
   \/ exists a b c d,
        octet a /\ octet b /\ octet c /\ octet d
        /\ (s = " " +:+ quadText a b c d \/ s = quadText a b c d +:+ " ")) ->
  exists err, ParseTunnelACL parseIPv6 str = inl err.
Proof.
  intros Hne Hin Hs.
  rewrite (ParseTunnelACL_values parseIPv6 str Hne).
  destruct (parseValues_error parseIPv6 (Split str ",")) with (acc := @nil IPNet)
    as (err & Herr).
  { apply List.Exists_exists. exists s. split; [exact Hin|].
    destruct Hs as [->|(a & b & c & d & Ha & Hb & Hc & Hd & [->| ->])].
    - eexists. apply parseIPNet_empty.
    - eexists. apply parseIPNet_leading_space; assumption.
    - eexists. apply parseIPNet_trailing_space; assumption. }
  rewrite Herr. eauto.
Qed.

Lemma acl_values_not_trimmed_witness :
  (exists err, ParseTunnelACL noIPv6 "10.0.0.1, 10.0.0.2" = inl err)
  /\ (exists err, ParseTunnelACL noIPv6 "10.0.0.1," = inl err).
Proof.
  split.
  - apply (acl_values_not_trimmed noIPv6 "10.0.0.1, 10.0.0.2" " 10.0.0.2").
    + discriminate.
    + vm_compute. right. left. reflexivity.
    + right. exists 10, 0, 0, 2. unfold octet.
      repeat (split; [lia|]). left. vm_compute. reflexivity.
  - apply (acl_values_not_trimmed noIPv6 "10.0.0.1," "").
    + discriminate.
    + vm_compute. right. left. reflexivity.
    + left. reflexivity.
Defined.

End TunnelACL.
